(** * A shallow embedding of the search-engine sources

    The development follows the C sources file by file:
    - [DList]    : [src/adt/doublylinkedlist.c]
    - [Tokenize] : [src/tokenize.c]
    - [HashMap]  : [src/adt/hashmap.c]
    - [RBSet]    : [src/adt/rbtreeset.c]
    - [Index]    : [src/adt/index.c]

    Conventions shared by all modules.
    - A C [int] result that is only tested for its sign is a [Z].
    - [size_t] counters ([length], [capacity]) count live heap objects of
      at least 16 bytes each, so they stay far below [2^64]; they are
      modelled as unbounded [nat] without wrap-around.
    - A call that ends the process ([PANIC], a failed [assert], a NULL
      dereference) is an [Abort] in the [result] monad. *)

From Stdlib Require Import ZArith List Lia Permutation Sorted Bool.
From stdpp Require Import base option list strings gmap.
From Equations Require Import Equations.
Import ListNotations.

(** ** Process termination and the error monad *)

Inductive fault : Type :=
| PANIC       (* [PANIC(...)] or a failed [assert]: the process calls [abort()] *)
| SEGFAULT    (* a dereference of NULL or another undefined access *)
| SIGFPE      (* an integer division by zero *)
| TIMEOUT.    (* the step budget given to a pointer loop of the model ran out;
                 not an event of the program *)

Inductive result (A : Type) : Type :=
| Ok (a : A)
| Abort (f : fault).
Arguments Ok {A} a.
Arguments Abort {A} f.

Definition result_bind {A B} (m : result A) (k : A -> result B) : result B :=
  match m with
  | Ok a => k a
  | Abort f => Abort f
  end.

Notation "'do' x <- m ; k" := (result_bind m (fun x => k))
  (at level 10, x name, m at level 100, k at level 200).
Notation "'do' ' p <- m ; k" := (result_bind m (fun x => match x with p => k end))
  (at level 10, p pattern, m at level 100, k at level 200).

(** A value together with the equation that names it: keeps the link to
    the scrutinee in definitions by well-founded recursion. *)
Definition inspect {A} (a : A) : {b : A | a = b} := exist _ a eq_refl.


(** ** Comparison functions ([cmp_fn] of [defs.h])

    [cmp a b] is [0] on equality, positive if [a > b], negative if [a < b]. *)

Definition cmp_fn (A : Type) : Type := A -> A -> Z.

(** A comparison function that describes a total order: the sign flips
    when the arguments are swapped and "not greater" is transitive. *)
Class TotalOrderCmp {A : Type} (cmp : cmp_fn A) : Prop := {
  cmp_flip : forall a b, Z.sgn (cmp a b) = (- Z.sgn (cmp b a))%Z;
  cmp_le_trans : forall a b c, (cmp a b <= 0)%Z -> (cmp b c <= 0)%Z -> (cmp a c <= 0)%Z
}.

Section CmpOrder.
Context {A : Type} (cmp : cmp_fn A).

(** "Not greater", "less" and "equal" under [cmp]. *)
Definition cmp_le (x y : A) : Prop := (cmp x y <= 0)%Z.
Definition cmp_lt (x y : A) : Prop := (cmp x y < 0)%Z.
Definition cmp_eqv (x y : A) : Prop := cmp x y = 0%Z.

Context {Hord : TotalOrderCmp cmp}.


Lemma cmp_lt_le (x y : A) : cmp_lt x y -> cmp_le x y.
Proof. unfold cmp_le, cmp_lt. lia. Qed.

Lemma cmp_gt_lt (x y : A) : (0 < cmp x y)%Z -> cmp_lt y x.
Proof.
  unfold cmp_lt. intros H. pose proof (cmp_flip y x) as Hf.
  destruct (cmp x y) eqn:E1, (cmp y x) eqn:E2; simpl in *; lia.
Qed.

Lemma cmp_lt_gt (x y : A) : cmp_lt x y -> (0 < cmp y x)%Z.
Proof.
  unfold cmp_lt. intros H. pose proof (cmp_flip y x) as Hf.
  destruct (cmp x y) eqn:E1, (cmp y x) eqn:E2; simpl in *; lia.
Qed.

Lemma cmp_eqv_sym (x y : A) : cmp_eqv x y -> cmp_eqv y x.
Proof.
  unfold cmp_eqv. intros H. pose proof (cmp_flip y x) as Hf.
  rewrite H in Hf. destruct (cmp y x); simpl in *; lia.
Qed.

Lemma cmp_eqv_le (x y : A) : cmp_eqv x y -> cmp_le x y /\ cmp_le y x.
Proof.
  intros H. pose proof (cmp_eqv_sym _ _ H) as H'.
  unfold cmp_eqv, cmp_le in *. lia.
Qed.

Lemma cmp_lt_not_le (x y : A) : cmp_lt x y <-> ~ cmp_le y x.
Proof.
  unfold cmp_lt, cmp_le. pose proof (cmp_flip y x) as Hf.
  destruct (cmp x y) eqn:E1, (cmp y x) eqn:E2; simpl in *; lia.
Qed.

Lemma cmp_le_lt_trans (x y z : A) : cmp_le x y -> cmp_lt y z -> cmp_lt x z.
Proof.
  intros Hxy Hyz. apply cmp_lt_not_le. intros Hzx.
  apply cmp_lt_not_le in Hyz. apply Hyz. exact (cmp_le_trans z x y Hzx Hxy).
Qed.

Lemma cmp_lt_le_trans (x y z : A) : cmp_lt x y -> cmp_le y z -> cmp_lt x z.
Proof.
  intros Hxy Hyz. apply cmp_lt_not_le. intros Hzx.
  apply cmp_lt_not_le in Hxy. apply Hxy. exact (cmp_le_trans y z x Hyz Hzx).
Qed.

Lemma cmp_lt_trans (x y z : A) : cmp_lt x y -> cmp_lt y z -> cmp_lt x z.
Proof. intros Hxy Hyz. eapply cmp_le_lt_trans; [apply cmp_lt_le|]; eassumption. Qed.

Lemma cmp_eqv_trans (x y z : A) : cmp_eqv x y -> cmp_eqv y z -> cmp_eqv x z.
Proof.
  intros Hxy Hyz.
  destruct (cmp_eqv_le _ _ Hxy) as [H1 H2], (cmp_eqv_le _ _ Hyz) as [H3 H4].
  pose proof (cmp_le_trans x y z H1 H3) as H5.
  pose proof (cmp_le_trans z y x H4 H2) as H6.
  pose proof (cmp_flip x z) as Hf.
  unfold cmp_eqv, cmp_le in *.
  destruct (cmp x z) eqn:E1, (cmp z x) eqn:E2; simpl in *; lia.
Qed.

Lemma cmp_lt_irrefl_eqv (x y : A) : cmp_lt x y -> cmp_eqv x y -> False.
Proof. unfold cmp_lt, cmp_eqv. lia. Qed.

Lemma Forall_lt_trans_l (l : list A) (e x : A) :
  Forall (fun a => cmp_lt a e) l -> cmp_lt e x -> Forall (fun a => cmp_lt a x) l.
Proof.
  intros Hl He. eapply Forall_impl; [exact Hl|].
  intros a Ha. exact (cmp_lt_trans a e x Ha He).
Qed.

Lemma Forall_lt_trans_r (l : list A) (e x : A) :
  cmp_lt x e -> Forall (cmp_lt e) l -> Forall (cmp_lt x) l.
Proof.
  intros He Hl. eapply Forall_impl; [exact Hl|].
  intros a Ha. exact (cmp_lt_trans x e a He Ha).
Qed.

Lemma Forall_below_not_eqv (l : list A) (x : A) :
  Forall (fun a => cmp_lt a x) l -> Forall (fun y => ~ cmp_eqv x y) l.
Proof.
  intros Hl. eapply Forall_impl; [exact Hl|].
  intros a Ha He. apply cmp_eqv_sym in He. exact (cmp_lt_irrefl_eqv a x Ha He).
Qed.

Lemma Forall_above_not_eqv (l : list A) (x : A) :
  Forall (cmp_lt x) l -> Forall (fun y => ~ cmp_eqv x y) l.
Proof.
  intros Hl. eapply Forall_impl; [exact Hl|].
  intros a Ha He. exact (cmp_lt_irrefl_eqv x a Ha He).
Qed.

(** ** Lists in ascending order *)

Lemma StronglySorted_app_iff (R : A -> A -> Prop) (l1 l2 : list A) :
  StronglySorted R (l1 ++ l2) <->
  StronglySorted R l1 /\ StronglySorted R l2 /\
  Forall (fun a => Forall (R a) l2) l1.
Proof.
  induction l1 as [|a l1 IH]; simpl.
  - split; [intros H; repeat split; [constructor|exact H|constructor]|tauto].
  - split.
    + intros H. apply StronglySorted_inv in H. destruct H as [Hs Hf].
      apply IH in Hs. destruct Hs as (H1 & H2 & H3).
      apply Forall_app in Hf. destruct Hf as [Hf1 Hf2].
      repeat split; [constructor|assumption|constructor]; assumption.
    + intros (H1 & H2 & H3). apply StronglySorted_inv in H1. destruct H1 as [H1 Hf1].
      apply Forall_cons in H3. destruct H3 as [Hf2 H3].
      constructor; [apply IH; tauto|]. apply Forall_app. tauto.
Qed.

(** An element that lies between the two parts can be put there. *)
Lemma sorted_insert_middle (l1 l2 : list A) (x : A) :
  StronglySorted cmp_lt (l1 ++ l2) ->
  Forall (fun a => cmp_lt a x) l1 -> Forall (cmp_lt x) l2 ->
  StronglySorted cmp_lt (l1 ++ x :: l2).
Proof.
  intros Hs H1 H2. apply StronglySorted_app_iff in Hs. destruct Hs as (Hs1 & Hs2 & H12).
  apply StronglySorted_app_iff. repeat split; [assumption|constructor; assumption|].
  eapply Forall_impl; [apply Forall_and; split; [exact H1|exact H12]|].
  intros a [Ha1 Ha2]. constructor; assumption.
Qed.

(** An element can take the place of one it compares equal to. *)
Lemma sorted_replace_eqv (l1 l2 : list A) (x y : A) :
  cmp_eqv x y ->
  StronglySorted cmp_lt (l1 ++ y :: l2) -> StronglySorted cmp_lt (l1 ++ x :: l2).
Proof.
  intros Hxy Hs. destruct (cmp_eqv_le _ _ Hxy) as [Hle Hge].
  apply StronglySorted_app_iff in Hs. destruct Hs as (Hs1 & Hs2 & H12).
  apply StronglySorted_inv in Hs2. destruct Hs2 as [Hs2 Hy].
  apply StronglySorted_app_iff. repeat split; [assumption| |].
  - constructor; [assumption|]. eapply Forall_impl; [exact Hy|].
    intros b Hb. eapply cmp_le_lt_trans; eassumption.
  - eapply Forall_impl; [exact H12|]. intros a Ha.
    apply Forall_cons in Ha. destruct Ha as [Hay Ha].
    constructor; [|assumption]. eapply cmp_lt_le_trans; eassumption.
Qed.

(** In an ascending list no two places hold equal elements. *)
Lemma sorted_eqv_unique (l : list A) (y y' : A) :
  StronglySorted cmp_lt l -> In y l -> In y' l -> cmp_eqv y y' -> y = y'.
Proof.
  induction 1 as [|h l Hs IH Hh]; intros Hy Hy' He; [destruct Hy|].
  rewrite Forall_forall in Hh.
  destruct Hy as [->|Hy], Hy' as [->|Hy']; auto.
  - exfalso. apply (cmp_lt_irrefl_eqv y y'); [|exact He].
    apply Hh, list_elem_of_In. exact Hy'.
  - exfalso. apply cmp_eqv_sym in He. apply (cmp_lt_irrefl_eqv y' y); [|exact He].
    apply Hh, list_elem_of_In. exact Hy.
Qed.

End CmpOrder.

(** Subtraction compares integers. *)
Lemma Z_sub_total_order : TotalOrderCmp Z.sub.
Proof. split; intros; lia. Qed.

(** The comparison functions of the examples: every function address
    holds integer subtraction. *)
Definition Z_code : nat -> cmp_fn Z := fun _ => Z.sub.

(** ** Lists without two equal elements *)

Section Distinct.
Context {A : Type} (cmp : cmp_fn A) {Hord : TotalOrderCmp cmp}.

(** No two elements at different places of [l] compare equal. *)
Definition cmp_distinct (l : list A) : Prop :=
  StronglySorted (fun x y => ~ cmp_eqv cmp x y) l.

Lemma cmp_eqv_refl (x : A) : cmp_eqv cmp x x.
Proof.
  unfold cmp_eqv. pose proof (cmp_flip x x) as Hf.
  destruct (cmp x x); simpl in *; lia.
Qed.



Lemma cmp_distinct_perm (l l' : list A) :
  Permutation l l' -> cmp_distinct l -> cmp_distinct l'.
Proof.
  unfold cmp_distinct. induction 1 as [|x l l' Hp IH|x y l|l l' l'' Hp1 IH1 Hp2 IH2];
    intros Hd; auto.
  - apply StronglySorted_inv in Hd. destruct Hd as [Hd Hx].
    constructor; [auto|]. eapply Permutation_Forall; eassumption.
  - apply StronglySorted_inv in Hd. destruct Hd as [Hd Hy].
    apply StronglySorted_inv in Hd. destruct Hd as [Hd Hx].
    apply Forall_cons in Hy. destruct Hy as [Hyx Hy].
    repeat constructor; auto.
    intros Hxy. apply Hyx. apply cmp_eqv_sym; assumption.
Qed.




Lemma cmp_distinct_replace (l1 l2 : list A) (x y : A) :
  cmp_eqv cmp x y -> cmp_distinct (l1 ++ y :: l2) -> cmp_distinct (l1 ++ x :: l2).
Proof.
  unfold cmp_distinct. intros Hxy Hd.
  apply StronglySorted_app_iff in Hd. destruct Hd as (H1 & H2 & H12).
  apply StronglySorted_inv in H2. destruct H2 as [H2 Hy].
  apply StronglySorted_app_iff. split; [exact H1|]. split.
  - constructor; [exact H2|]. eapply Forall_impl; [exact Hy|].
    intros b Hb Hxb. apply Hb. apply (cmp_eqv_trans cmp y x b); [|exact Hxb].
    apply cmp_eqv_sym; assumption.
  - eapply Forall_impl; [exact H12|]. intros a Ha.
    apply Forall_cons in Ha. destruct Ha as [Hay Ha].
    constructor; [|exact Ha]. intros Hax. apply Hay.
    apply (cmp_eqv_trans cmp a x y); assumption.
Qed.

Lemma cmp_distinct_remove (l1 l2 : list A) (y : A) :
  cmp_distinct (l1 ++ y :: l2) ->
  cmp_distinct (l1 ++ l2) /\ Forall (fun b => ~ cmp_eqv cmp y b) (l1 ++ l2).
Proof.
  unfold cmp_distinct. intros Hd.
  apply StronglySorted_app_iff in Hd. destruct Hd as (H1 & H2 & H12).
  apply StronglySorted_inv in H2. destruct H2 as [H2 Hy]. split.
  - apply StronglySorted_app_iff. split; [exact H1|]. split; [exact H2|].
    eapply Forall_impl; [exact H12|]. intros a Ha.
    apply Forall_cons in Ha. tauto.
  - apply Forall_app. split; [|exact Hy].
    eapply Forall_impl; [exact H12|]. intros a Ha.
    apply Forall_cons in Ha. destruct Ha as [Hay _].
    intros Hya. apply Hay. apply cmp_eqv_sym; assumption.
Qed.

(** Among elements without equal keys, equal keys mean the same element. *)
Lemma cmp_distinct_unique {B : Type} (f : B -> A) (l : list B) (b b' : B) :
  cmp_distinct (map f l) -> In b l -> In b' l -> cmp_eqv cmp (f b) (f b') -> b = b'.
Proof.
  unfold cmp_distinct. induction l as [|a l IH]; intros Hd Hb Hb' He; [destruct Hb|].
  simpl in Hd. apply StronglySorted_inv in Hd. destruct Hd as [Hd Ha].
  rewrite Forall_forall in Ha.
  destruct Hb as [->|Hb], Hb' as [->|Hb']; auto.
  - exfalso. apply (Ha (f b')); [|exact He].
    apply list_elem_of_In, in_map. exact Hb'.
  - exfalso. apply (Ha (f b)); [|apply cmp_eqv_sym; assumption].
    apply list_elem_of_In, in_map. exact Hb.
Qed.

End Distinct.

(** ** Counting the elements of ascending lists *)

Section Counting.
Context {A : Type} (cmp : cmp_fn A) {Hord : TotalOrderCmp cmp}.
Implicit Types (l : list A) (x y z : A).














End Counting.

(** * [doublylinkedlist.c] *)

Module DList.

Section Defs.
Context {A : Type}.

(** [struct list]. The chain of [lnode]s reached from [leftmost] through
    the [right] pointers is the Rocq list [nodes] of their items;
    [rightmost] is its last node. The [length] field is stored apart,
    as in the struct. *)
Record list_t : Type := mk_list {
  nodes : list A;
  length : nat;
  cmpfn : cmp_fn A
}.

(** [list_create]; [malloc_ok = false] is a failed [malloc] (NULL). *)
Definition list_create (malloc_ok : bool) (cmp : cmp_fn A) : option list_t :=
  if malloc_ok then Some {| nodes := []; length := 0; cmpfn := cmp |} else None.

Definition list_length (l : list_t) : nat := length l.

(** [list_addfirst]: [-1] and no change when [newnode] fails. *)
Definition list_addfirst (malloc_ok : bool) (l : list_t) (item : A) : Z * list_t :=
  if malloc_ok
  then (0%Z, {| nodes := item :: nodes l; length := length l + 1; cmpfn := cmpfn l |})
  else ((-1)%Z, l).

(** [list_addlast]: [-1] and no change when [newnode] fails. *)
Definition list_addlast (malloc_ok : bool) (l : list_t) (item : A) : Z * list_t :=
  if malloc_ok
  then (0%Z, {| nodes := nodes l ++ [item]; length := length l + 1; cmpfn := cmpfn l |})
  else ((-1)%Z, l).

(** [list_popfirst]: panics when [length] is 0; reads [leftmost->item]. *)
Definition list_popfirst (l : list_t) : result (A * list_t) :=
  if (length l =? 0)%nat then Abort PANIC
  else match nodes l with
       | [] => Abort SEGFAULT
       | x :: rest =>
           Ok (x, {| nodes := rest; length := length l - 1; cmpfn := cmpfn l |})
       end.

(** [list_poplast]: panics when [length] is 0; reads [rightmost->item]. *)
Definition list_poplast (l : list_t) : result (A * list_t) :=
  if (length l =? 0)%nat then Abort PANIC
  else match last (nodes l) with
       | None => Abort SEGFAULT
       | Some x =>
           Ok (x, {| nodes := removelast (nodes l);
                     length := length l - 1; cmpfn := cmpfn l |})
       end.

(** The search loop of [list_remove]: the nodes before the first one
    that compares equal to [item], that node, and the nodes after it. *)
Fixpoint remove_first (cmp : cmp_fn A) (item : A) (ns : list A)
  : option (list A * A * list A) :=
  match ns with
  | [] => None
  | x :: rest =>
      if (cmp item x =? 0)%Z then Some ([], x, rest)
      else match remove_first cmp item rest with
           | Some (pre, found, post) => Some (x :: pre, found, post)
           | None => None
           end
  end.

(** [list_remove] splices the node out; the source leaves [length] as
    it was. *)
Definition list_remove (l : list_t) (item : A) : option A * list_t :=
  match remove_first (cmpfn l) item (nodes l) with
  | None => (None, l)
  | Some (pre, found, post) =>
      (Some found, {| nodes := pre ++ post; length := length l; cmpfn := cmpfn l |})
  end.

Definition list_contains (l : list_t) (item : A) : Z :=
  if existsb (fun x => cmpfn l item x =? 0)%Z (nodes l) then 1%Z else 0%Z.










(** [struct list_iter]: [iter_node] is the chain that starts at [node]. *)
Record list_iter_t : Type := mk_list_iter {
  iter_list : list_t;
  iter_node : list A
}.

Definition list_createiter (malloc_ok : bool) (l : list_t) : option list_iter_t :=
  if malloc_ok then Some {| iter_list := l; iter_node := nodes l |} else None.

Definition list_hasnext (it : list_iter_t) : Z :=
  match iter_node it with [] => 0%Z | _ :: _ => 1%Z end.

Definition list_next (it : list_iter_t) : option A * list_iter_t :=
  match iter_node it with
  | [] => (None, it)
  | x :: rest => (Some x, {| iter_list := iter_list it; iter_node := rest |})
  end.

End Defs.
Arguments list_t A : clear implicits.
Arguments list_iter_t A : clear implicits.

(** ** Correctness of the merge sort *)

Section Sorting.
Context {A : Type} (cmp : cmp_fn A) {Hord : TotalOrderCmp cmp}.






End Sorting.

(** The representation invariant of [struct list]: the [length] field is
    the number of nodes of the chain. ([list_remove] does not keep it:
    it unlinks a node and leaves [length] as it was.) *)
Definition list_wf {A : Type} (l : list_t A) : Prop :=
  length l = List.length (nodes l).



(** ** The list as a queue, removal and iteration *)

Section Loops.
Context {A : Type}.
Implicit Types (l : list_t A) (it : list_iter_t A) (x item : A) (xs : list A).

(** [list_resetiter]: back to [iter->list->leftmost]. *)
Definition list_resetiter it : list_iter_t A :=
  {| iter_list := iter_list it; iter_node := nodes (iter_list it) |}.

(** [list_addlast] of each item of [xs] in turn, every allocation
    succeeding. *)
Definition addlast_all l xs : list_t A :=
  fold_left (fun l x => (list_addlast true l x).2) xs l.

(** The loop [while (list_length(list)) { item = list_popfirst(list); ... }]
    of [build_index] and [run_interpreter]: the items popped and the list
    left. [rounds] bounds the number of tests of the condition. *)
Fixpoint pop_loop (rounds : nat) l : result (list A * list_t A) :=
  match rounds with
  | 0 => Abort TIMEOUT
  | S rounds' =>
      if (list_length l =? 0)%nat then Ok ([], l)
      else
        do '(item, l1) <- list_popfirst l;
        do '(items, l2) <- pop_loop rounds' l1;
        Ok (item :: items, l2)
  end.

(** The loop [while (list_hasnext(iter)) { item = list_next(iter); ... }]
    of [print_list_of_strings]: the pointers returned and the iterator
    left. *)
Fixpoint list_iterate (rounds : nat) it : result (list (option A) * list_iter_t A) :=
  match rounds with
  | 0 => Abort TIMEOUT
  | S rounds' =>
      if (list_hasnext it =? 0)%Z then Ok ([], it)
      else
        let '(item, it1) := list_next it in
        do '(items, it2) <- list_iterate rounds' it1;
        Ok (item :: items, it2)
  end.

Lemma addlast_all_nodes xs : forall l,
  nodes (addlast_all l xs) = nodes l ++ xs /\
  length (addlast_all l xs) = length l + List.length xs /\
  cmpfn (addlast_all l xs) = cmpfn l.
Proof.
  induction xs as [|x xs IH]; intros l.
  - simpl. rewrite app_nil_r, Nat.add_0_r. auto.
  - change (addlast_all l (x :: xs)) with (addlast_all (list_addlast true l x).2 xs).
    destruct (IH (list_addlast true l x).2) as (-> & -> & ->). simpl.
    rewrite <- app_assoc. split; [reflexivity|]. split; [lia|reflexivity].
Qed.

Lemma pop_loop_drains ns : forall l rounds,
  nodes l = ns -> list_wf l -> List.length ns < rounds ->
  pop_loop rounds l = Ok (ns, {| nodes := []; length := 0; cmpfn := cmpfn l |}).
Proof.
  induction ns as [|x ns IH]; intros [ns0 len c] rounds Hns Hwf Hr;
    unfold list_wf in Hwf; simpl in Hns, Hwf; subst ns0 len;
    (destruct rounds as [|rounds]; [simpl in Hr; lia|]).
  - reflexivity.
  - cbn [pop_loop]. unfold list_length, list_popfirst.
    cbn [length nodes List.length Nat.eqb result_bind cmpfn].
    rewrite (IH {| nodes := ns; length := S (List.length ns) - 1; cmpfn := c |} rounds);
      [reflexivity|reflexivity|unfold list_wf; simpl; lia|simpl in Hr; lia].
Qed.

(** When [length] exceeds the number of nodes the loop runs off the end
    of the chain and reads [leftmost->item] through NULL. *)
Lemma pop_loop_stale ns : forall l rounds,
  nodes l = ns -> List.length ns < length l -> List.length ns < rounds ->
  pop_loop rounds l = Abort SEGFAULT.
Proof.
  induction ns as [|x ns IH]; intros [ns0 len c] rounds Hns Hlen Hr;
    simpl in Hns, Hlen; subst ns0;
    (destruct rounds as [|rounds]; [simpl in Hr; lia|]);
    cbn [pop_loop]; unfold list_length, list_popfirst; cbn [length nodes cmpfn];
    (destruct (Nat.eqb_spec len 0) as [H0|_]; [lia|]).
  - reflexivity.
  - cbn [result_bind].
    rewrite (IH {| nodes := ns; length := len - 1; cmpfn := c |} rounds);
      [reflexivity|reflexivity|simpl; lia|simpl in Hr; lia].
Qed.

Lemma list_iterate_chain ns : forall it rounds,
  iter_node it = ns -> List.length ns < rounds ->
  list_iterate rounds it
  = Ok (map Some ns, {| iter_list := iter_list it; iter_node := [] |}).
Proof.
  induction ns as [|x ns IH]; intros [l0 ns0] rounds Hns Hr; simpl in Hns; subst ns0;
    (destruct rounds as [|rounds]; [simpl in Hr; lia|]).
  - reflexivity.
  - cbn [list_iterate]. unfold list_hasnext, list_next.
    cbn [iter_node iter_list Z.eqb].
    rewrite (IH {| iter_list := l0; iter_node := ns |} rounds);
      [reflexivity|reflexivity|simpl in Hr; lia].
Qed.

Lemma remove_first_spec (cmp : cmp_fn A) item ns :
  match remove_first cmp item ns with
  | Some (pre, found, post) =>
      ns = pre ++ found :: post /\ cmp item found = 0%Z /\
      Forall (fun y => cmp item y <> 0%Z) pre
  | None => Forall (fun y => cmp item y <> 0%Z) ns
  end.
Proof.
  induction ns as [|y ns IH]; simpl; [constructor|].
  destruct (Z.eqb_spec (cmp item y) 0) as [Heq|Hne].
  - repeat split; [exact Heq|constructor].
  - destruct (remove_first cmp item ns) as [[[pre found] post]|].
    + destruct IH as (-> & Hf & Hpre). repeat split; [exact Hf|]. constructor; assumption.
    + constructor; assumption.
Qed.

End Loops.

(** [X1] Used as a queue the list is first in, first out: after
    [list_addlast] of the items [xs] to a list in which [length] counts the
    nodes, the loop that calls [list_popfirst] while [list_length] is not
    zero hands out the old items and then [xs], in that order, and leaves
    the list empty with [length] 0. *)
Theorem list_queue_first_in_first_out {A : Type} (l : list_t A) (xs : list A)
    (rounds : nat) :
  list_wf l -> List.length (nodes l) + List.length xs < rounds ->
  pop_loop rounds (addlast_all l xs)
  = Ok (nodes l ++ xs, {| nodes := []; length := 0; cmpfn := cmpfn l |}).
Proof.
  intros Hwf Hr. destruct (addlast_all_nodes xs l) as (Hn & Hl & Hc).
  rewrite <- Hc. apply pop_loop_drains; [exact Hn| |rewrite length_app; exact Hr].
  unfold list_wf. rewrite Hl, Hn, length_app, Hwf. reflexivity.
Qed.

(** The premises hold for a list of integers: 7 is queued before 8 and 9
    and comes out first. *)
Lemma list_queue_first_in_first_out_witness :
  pop_loop 4 (addlast_all {| nodes := [7%Z]; length := 1; cmpfn := Z.sub |} [8; 9]%Z)
  = Ok ([7; 8; 9]%Z, {| nodes := []; length := 0; cmpfn := Z.sub |}).
Proof.
  apply (list_queue_first_in_first_out
           {| nodes := [7%Z]; length := 1; cmpfn := Z.sub |} [8; 9]%Z 4).
  - reflexivity.
  - simpl. lia.
Defined.

(** [X2] [list_remove] unlinks the first node whose item compares equal
    to [item] and returns that item, or returns NULL and leaves the list
    alone when [list_contains] is 0. It does not lower [length]: after a
    removal [list_length] is one more than the number of nodes, and a loop
    that pops while [list_length] is not zero reads through the NULL
    [leftmost] once the nodes are used up. *)
Theorem list_remove_keeps_length {A : Type} (l : list_t A) (item : A) :
  list_wf l ->
  match list_remove l item with
  | (None, l') =>
      l' = l /\ list_contains l item = 0%Z /\
      Forall (fun y => cmpfn l item y <> 0%Z) (nodes l)
  | (Some found, l') =>
      cmpfn l item found = 0%Z /\ list_contains l item = 1%Z /\
      (exists pre post, nodes l = pre ++ found :: post /\ nodes l' = pre ++ post /\
                        Forall (fun y => cmpfn l item y <> 0%Z) pre) /\
      list_length l' = S (List.length (nodes l')) /\
      forall rounds, list_length l' < rounds -> pop_loop rounds l' = Abort SEGFAULT
  end.
Proof.
  intros Hwf. unfold list_remove, list_contains.
  pose proof (remove_first_spec (cmpfn l) item (nodes l)) as Hspec.
  destruct (remove_first (cmpfn l) item (nodes l)) as [[[pre found] post]|].
  - destruct Hspec as (Hn & Hf & Hpre).
    assert (Hlen : length l = S (List.length (pre ++ post))).
    { rewrite Hwf, Hn, !length_app. simpl. lia. }
    split; [exact Hf|]. split.
    + destruct (existsb _ (nodes l)) eqn:E; [reflexivity|].
      rewrite Hn, existsb_app in E. simpl in E. rewrite Hf in E. simpl in E.
      rewrite orb_true_r in E. discriminate.
    + split; [eauto|]. split; [exact Hlen|].
      intros rounds Hr. unfold list_length in Hr. simpl in Hr.
      apply (pop_loop_stale (pre ++ post)); [reflexivity| |]; simpl; lia.
  - split; [reflexivity|]. split; [|exact Hspec].
    destruct (existsb _ (nodes l)) eqn:E; [|reflexivity].
    apply existsb_exists in E. destruct E as (y & Hy & Hy0).
    rewrite Forall_forall in Hspec. apply list_elem_of_In, Hspec in Hy.
    apply Z.eqb_eq in Hy0. contradiction.
Qed.

(** The premises hold for a list of three integers: removing 2 leaves
    two nodes under a [length] of 3. *)
Lemma list_remove_keeps_length_witness :
  exists l' : list_t Z,
    list_remove {| nodes := [1; 2; 3]%Z; length := 3; cmpfn := Z.sub |} 2%Z
    = (Some 2%Z, l') /\
    nodes l' = [1; 3]%Z /\ list_length l' = 3 /\ pop_loop 4 l' = Abort SEGFAULT.
Proof.
  pose proof (list_remove_keeps_length
                {| nodes := [1; 2; 3]%Z; length := 3; cmpfn := Z.sub |} 2%Z eq_refl) as H.
  cbv [list_remove remove_first nodes cmpfn length Z.sub Z.add Z.opp Z.pos_sub
       Pos.pred_double Z.eqb Pos.eqb Z.succ_double Z.pred_double Z.double app] in H.
  destruct H as (_ & _ & _ & Hlen & Hloop).
  eexists. split; [reflexivity|]. split; [reflexivity|]. split; [reflexivity|].
  apply Hloop. unfold list_length. simpl. lia.
Defined.

(** [X3] An iteration with [list_hasnext] and [list_next] from a new
    iterator returns the items from first to last, each once. At the end
    [list_hasnext] is 0 and [list_next] returns NULL without moving, and
    after [list_resetiter] the same iteration can be made again. *)
Theorem list_iteration_in_order {A : Type} (l : list_t A) (rounds : nat) :
  List.length (nodes l) < rounds ->
  exists it0 it_end : list_iter_t A,
    list_createiter true l = Some it0 /\
    list_iterate rounds it0 = Ok (map Some (nodes l), it_end) /\
    list_hasnext it_end = 0%Z /\
    list_next it_end = (None, it_end) /\
    list_iterate rounds (list_resetiter it_end) = Ok (map Some (nodes l), it_end).
Proof.
  intros Hr. eexists _, _. split; [reflexivity|].
  split; [apply list_iterate_chain; [reflexivity|exact Hr]|].
  split; [reflexivity|]. split; [reflexivity|].
  apply (list_iterate_chain (nodes l)); [reflexivity|exact Hr].
Qed.

(** The premise holds for three rounds over a list of two integers. *)
Lemma list_iteration_in_order_witness :
  exists it0 it_end : list_iter_t Z,
    list_createiter true {| nodes := [4; 5]%Z; length := 2; cmpfn := Z.sub |} = Some it0 /\
    list_iterate 3 it0 = Ok ([Some 4; Some 5]%Z, it_end) /\
    list_iterate 3 (list_resetiter it_end) = Ok ([Some 4; Some 5]%Z, it_end).
Proof.
  destruct (list_iteration_in_order
              {| nodes := [4; 5]%Z; length := 2; cmpfn := Z.sub |} 3 ltac:(simpl; lia))
    as (it0 & it_end & H0 & H1 & _ & _ & H2).
  exists it0, it_end. auto.
Defined.

(** ** The order [list_sort] leaves does not depend on the order it finds *)




End DList.

(** * [tokenize.c] *)

Module Tokenize.
Import DList.

(** The content of a C string, without its terminator. A character is
    the [int] it promotes to. *)
Definition token : Type := list Z.

(** The address of a string made by [strdup]. The items of the output
    list are such addresses; the strings lie in a heap. *)
Definition str_ptr : Type := nat.

Definition TOKEN_SIZE_MAX : nat := 1024.

(** Storing an [int] into a [char]: reduction to the signed 8-bit range. *)
Definition char_of_int (z : Z) : Z := ((z + 128) mod 256 - 128)%Z.

(** What [strdup] copies: up to the first NUL. *)
Fixpoint strdup_content (buf : list Z) : token :=
  match buf with
  | [] => []
  | c :: rest => if (c =? 0)%Z then [] else c :: strdup_content rest
  end.

(** The outcome of every allocation of a run, in call order: [false] is
    a [malloc] that returns NULL; an exhausted list is success. *)
Definition alloc_oracle : Type := list bool.

Definition next_alloc (o : alloc_oracle) : bool * alloc_oracle :=
  match o with
  | [] => (true, [])
  | ok :: rest => (ok, rest)
  end.

(** [strdup]: a new string at an unused address, or NULL. *)
Definition strdup (malloc_ok : bool) (h : gmap str_ptr token) (content : token)
  : option str_ptr * gmap str_ptr token :=
  if malloc_ok then
    let cpy := fresh (dom h) in (Some cpy, <[cpy := content]> h)
  else (None, h).

(** [free] of a string; the pointer must be allocated. *)
Definition free (h : gmap str_ptr token) (p : str_ptr) : result (gmap str_ptr token) :=
  match h !! p with
  | Some _ => Ok (delete p h)
  | None => Abort SEGFAULT
  end.

(** The list, the string heap and the allocation oracle: the state the
    tokenizer works on. *)
Record tok_state : Type := mk_tok_state {
  ts_list : list_t str_ptr;
  ts_heap : gmap str_ptr token;
  ts_alloc : alloc_oracle
}.

Section Defs.
Variable min_token_len : nat.
Variable delimitfn : Z -> Z.
Variable filterfn : option (Z -> Z).
Variable transformfn : option (Z -> Z).

(** [append_token_dup]. [buf] is [base[0 .. offset)], so [offset] is its
    length and [head] is [base + offset]; the helper terminates the
    buffer there before duplicating it. The result is the status and
    the state. *)
Definition append_token_dup (st : tok_state) (buf : list Z) : result (Z * tok_state) :=
  if (min_token_len <=? List.length buf)%nat then
    let '(strdup_ok, o1) := next_alloc (ts_alloc st) in
    match strdup strdup_ok (ts_heap st) (strdup_content buf) with
    | (None, h) => Ok ((-1)%Z, mk_tok_state (ts_list st) h o1)
    | (Some cpy, h) =>
        let '(node_ok, o2) := next_alloc o1 in
        let '(status, l') := list_addlast node_ok (ts_list st) cpy in
        if (status <? 0)%Z then
          do h' <- free h cpy;
          Ok ((-1)%Z, mk_tok_state (ts_list st) h' o2)
        else Ok (0%Z, mk_tok_state l' h o2)
    end
  else Ok (0%Z, st).

Definition passes_filter (c : Z) : bool :=
  match filterfn with
  | None => true
  | Some f => negb (f c =? 0)%Z
  end.

Definition transformed (c : Z) : Z :=
  match transformfn with
  | None => c
  | Some f => f c
  end.

(** One pass of the [for] body on a character [c <> 0]: the new
    [status], state and buffer. The scan for the next splitter in the
    overlong-token branch moves a local pointer only. *)
Definition tokenize_char (c : Z) (st : tok_state) (buf : list Z)
  : result (Z * tok_state * list Z) :=
  let is_delimiter := negb (delimitfn c =? 0)%Z in
  do '(status, st, buf) <-
    (if is_delimiter then
       do '(status, st') <- append_token_dup st buf;
       Ok (status, st', [])
     else Ok (0%Z, st, buf));
  if passes_filter c then
    let buf := buf ++ [char_of_int (transformed c)] in
    if is_delimiter then
      do '(status, st') <- append_token_dup st buf;
      Ok (status, st', [])
    else if (TOKEN_SIZE_MAX - 2 <=? List.length buf)%nat then Ok (status, st, [])
    else Ok (status, st, buf)
  else Ok (status, st, buf).

(** The [for (; status == 0; str++)] loop. [str] holds the characters
    in front of the terminator; a [0] inside it ends the string too. *)
Fixpoint tokenize_loop (str : list Z) (st : tok_state) (buf : list Z)
  : result (Z * tok_state) :=
  match str with
  | [] => append_token_dup st buf
  | c :: str' =>
      if (c =? 0)%Z then append_token_dup st buf
      else
        do '(status, st', buf') <- tokenize_char c st buf;
        if (status =? 0)%Z then tokenize_loop str' st' buf'
        else Ok (status, st')
  end.

(** The closing [while]: [free(list_poplast(list))] for every token this
    call appended. *)
Equations? revert_loop (status : Z) (list_len_before : nat)
    (l : list_t str_ptr) (h : gmap str_ptr token)
  : result (list_t str_ptr * gmap str_ptr token)
  by wf (list_length l - list_len_before)%nat lt :=
  revert_loop status list_len_before l h
    with inspect ((status <? 0)%Z && (list_len_before <? list_length l)%nat) := {
    | exist _ false _ := Ok (l, h);
    | exist _ true Hcond with inspect (list_poplast l) := {
        | exist _ (Ok (p, l')) Hpop with free h p := {
            | Ok h' := revert_loop status list_len_before l' h';
            | Abort f := Abort f };
        | exist _ (Abort f) _ := Abort f } }.
Proof.
  apply andb_true_iff in Hcond. destruct Hcond as [_ Hlt].
  apply Nat.ltb_lt in Hlt. unfold list_poplast, list_length in *.
  destruct (length l =? 0)%nat; [discriminate|].
  destruct (last _); [|discriminate].
  inversion Hpop; subst; simpl. lia.
Qed.

(** [tokenize_string]: the status, the list and the string heap. *)
Definition tokenize_string (str : list Z) (l : list_t str_ptr)
    (h : gmap str_ptr token) (o : alloc_oracle)
  : result (Z * list_t str_ptr * gmap str_ptr token) :=
  let list_len_before := list_length l in
  do '(status, st) <- tokenize_loop str (mk_tok_state l h o) [];
  do '(l', h') <- revert_loop status list_len_before (ts_list st) (ts_heap st);
  Ok (status, l', h').

(** ** During the scan the list and the heap only grow *)

(** [grown l h l' h']: from the list [l] and heap [h], tokens were
    appended one after the other, each a newly allocated string. *)
Inductive grown (l : list_t str_ptr) (h : gmap str_ptr token)
  : list_t str_ptr -> gmap str_ptr token -> Prop :=
| grown_refl : grown l h l h
| grown_step l' h' cpy content :
    grown l h l' h' -> h' !! cpy = None ->
    grown l h {| nodes := nodes l' ++ [cpy]; length := length l' + 1;
                 cmpfn := cmpfn l' |}
              (<[cpy := content]> h').

Lemma grown_trans l1 h1 l2 h2 l3 h3 :
  grown l1 h1 l2 h2 -> grown l2 h2 l3 h3 -> grown l1 h1 l3 h3.
Proof.
  intros H12 H23. induction H23 as [|l' h' cpy content H23 IH Hfresh]; [exact H12|].
  apply grown_step; assumption.
Qed.

Lemma grown_length l h l' h' : grown l h l' h' -> length l <= length l'.
Proof. induction 1; simpl; lia. Qed.

Lemma append_token_dup_grown st buf :
  exists status st',
    append_token_dup st buf = Ok (status, st') /\
    grown (ts_list st) (ts_heap st) (ts_list st') (ts_heap st').
Proof.
  unfold append_token_dup.
  destruct (min_token_len <=? _)%nat; [|eexists _, _; split; [reflexivity|constructor]].
  destruct (next_alloc (ts_alloc st)) as [[] o1]; cbn [strdup];
    [|eexists _, _; split; [reflexivity|constructor]].
  set (cpy := fresh (dom (ts_heap st))).
  assert (Hfresh : ts_heap st !! cpy = None) by (apply not_elem_of_dom, is_fresh).
  destruct (next_alloc o1) as [[] o2]; cbn [list_addlast Z.ltb Z.compare].
  - eexists _, _. split; [reflexivity|]. cbn [ts_list ts_heap].
    apply grown_step; [constructor|exact Hfresh].
  - unfold free. rewrite lookup_insert_eq. cbn [result_bind].
    rewrite delete_insert_id by exact Hfresh.
    eexists _, _. split; [reflexivity|]. constructor.
Qed.

Lemma tokenize_char_grown c st buf :
  exists status st' buf',
    tokenize_char c st buf = Ok (status, st', buf') /\
    grown (ts_list st) (ts_heap st) (ts_list st') (ts_heap st').
Proof.
  unfold tokenize_char.
  destruct (negb (delimitfn c =? 0)%Z).
  - destruct (append_token_dup_grown st buf) as (s1 & st1 & -> & Hg1).
    cbn [result_bind].
    destruct (passes_filter c); [|eexists _, _, _; split; [reflexivity|exact Hg1]].
    destruct (append_token_dup_grown st1 ([] ++ [char_of_int (transformed c)]))
      as (s2 & st2 & -> & Hg2).
    cbn [result_bind]. eexists _, _, _. split; [reflexivity|].
    eapply grown_trans; eassumption.
  - cbn [result_bind]. destruct (passes_filter c);
      [|eexists _, _, _; split; [reflexivity|constructor]].
    destruct (_ <=? _)%nat; eexists _, _, _; (split; [reflexivity|constructor]).
Qed.

Lemma tokenize_loop_grown str : forall st buf,
  exists status st',
    tokenize_loop str st buf = Ok (status, st') /\
    grown (ts_list st) (ts_heap st) (ts_list st') (ts_heap st').
Proof.
  induction str as [|c str IH]; intros st buf; cbn [tokenize_loop].
  - apply append_token_dup_grown.
  - destruct (c =? 0)%Z; [apply append_token_dup_grown|].
    destruct (tokenize_char_grown c st buf) as (s1 & st1 & buf1 & -> & Hg1).
    cbn [result_bind].
    destruct (s1 =? 0)%Z; [|eexists _, _; split; [reflexivity|exact Hg1]].
    destruct (IH st1 buf1) as (s2 & st2 & -> & Hg2).
    eexists _, _. split; [reflexivity|]. eapply grown_trans; eassumption.
Qed.

(** ** The closing loop undoes the growth *)

Lemma revert_loop_step status before l h :
  revert_loop status before l h =
  if ((status <? 0)%Z && (before <? list_length l)%nat)
  then match list_poplast l with
       | Ok (p, l') =>
           match free h p with
           | Ok h' => revert_loop status before l' h'
           | Abort f => Abort f
           end
       | Abort f => Abort f
       end
  else Ok (l, h).
Proof.
  funelim (revert_loop status before l h).
  all: try match goal with E : _ && _ = _ |- _ => rewrite E end.
  all: try match goal with E : list_poplast _ = _ |- _ => rewrite E end.
  all: try match goal with E : free _ _ = _ |- _ => rewrite E end.
  all: reflexivity.
Qed.

Lemma list_poplast_snoc (l : list_t str_ptr) (p : str_ptr) :
  list_poplast {| nodes := nodes l ++ [p]; length := length l + 1; cmpfn := cmpfn l |}
  = Ok (p, l).
Proof.
  unfold list_poplast; simpl.
  destruct (Nat.eqb_spec (length l + 1) 0); [lia|].
  rewrite last_snoc, removelast_last.
  replace (length l + 1 - 1) with (length l) by lia. destruct l; reflexivity.
Qed.

Lemma revert_loop_restores status l h l' h' :
  (status < 0)%Z -> grown l h l' h' ->
  revert_loop status (list_length l) l' h' = Ok (l, h).
Proof.
  intros Hneg Hg. induction Hg as [|l' h' cpy content Hg IH Hfresh].
  - rewrite revert_loop_step. rewrite Nat.ltb_irrefl, andb_false_r. reflexivity.
  - rewrite revert_loop_step. unfold list_length at 2; cbn [length].
    destruct (Z.ltb_spec status 0); [|lia].
    pose proof (grown_length _ _ _ _ Hg) as Hlen.
    destruct (Nat.ltb_spec (list_length l) (length l' + 1));
      [|unfold list_length in *; lia].
    cbn [andb]. rewrite list_poplast_snoc.
    unfold free. rewrite lookup_insert_eq, delete_insert_id by exact Hfresh.
    exact IH.
Qed.

End Defs.

(** [C10] When [tokenize_string] reports an error (a negative status),
    the list it was given is handed back exactly as it was before the
    call, and so is the string heap: every token appended by the failed
    call has been popped from the list and freed. The call itself always
    returns. *)
Theorem tokenize_string_error_restores_list
    (min_token_len : nat) (delimitfn : Z -> Z) (filterfn transformfn : option (Z -> Z))
    (str : list Z) (l : list_t str_ptr) (h : gmap str_ptr token) (o : alloc_oracle) :
  exists (status : Z) (l' : list_t str_ptr) (h' : gmap str_ptr token),
    tokenize_string min_token_len delimitfn filterfn transformfn str l h o
      = Ok (status, l', h') /\
    ((status < 0)%Z -> l' = l /\ h' = h).
Proof.
  unfold tokenize_string.
  destruct (tokenize_loop_grown min_token_len delimitfn filterfn transformfn
              str (mk_tok_state l h o) []) as (status & st & -> & Hg).
  cbn [result_bind ts_list ts_heap] in *.
  destruct (Z.ltb_spec status 0) as [Hneg|Hpos].
  - rewrite (revert_loop_restores status l h _ _ Hneg Hg). cbn [result_bind].
    eexists _, _, _. split; [reflexivity|]. auto.
  - rewrite revert_loop_step.
    destruct (Z.ltb_spec status 0); [lia|]. cbn [andb result_bind].
    eexists _, _, _. split; [reflexivity|]. lia.
Qed.

(** A failing run: ["ab cd"] split at spaces, where the third allocation
    (the [strdup] of ["cd"]) fails after ["ab"] was already appended at a
    new address. *)
Example tokenize_string_failure_run :
  let l0 := {| nodes := [5]; length := 1; cmpfn := fun _ _ => 0%Z |} in
  let h0 : gmap str_ptr token := {[ 5 := [120%Z] ]} in
  tokenize_string 1 (fun c => if (c =? 32)%Z then 1%Z else 0%Z)
                  (Some (fun c => if (c =? 32)%Z then 0%Z else 1%Z)) None
                  [97; 98; 32; 99; 100]%Z l0 h0 [true; true; false]
  = Ok ((-1)%Z, l0, h0).
Proof. vm_compute. reflexivity. Qed.

(** ** A run in which every allocation succeeds *)

Section Success.
Variable min_token_len : nat.
Variable delimitfn : Z -> Z.
Variable filterfn : option (Z -> Z).
Variable transformfn : option (Z -> Z).

Implicit Types (l : list_t str_ptr) (h : gmap str_ptr token) (o : alloc_oracle)
  (buf : list Z) (str : list Z) (st : tok_state).

Definition all_succeed o : Prop := Forall (fun ok => ok = true) o.

(** The list and heap after one successful [strdup] and [list_addlast]
    of the content [t]. *)
Definition push_token (lh : list_t str_ptr * gmap str_ptr token) (t : token)
  : list_t str_ptr * gmap str_ptr token :=
  let cpy := fresh (dom lh.2) in
  ({| nodes := nodes lh.1 ++ [cpy]; length := length lh.1 + 1; cmpfn := cmpfn lh.1 |},
   <[cpy := t]> lh.2).

Definition push_tokens (lh : list_t str_ptr * gmap str_ptr token) (ts : list token)
  : list_t str_ptr * gmap str_ptr token :=
  fold_left push_token ts lh.

(** The tokens made of the buffers handed to [append_token_dup]: those
    of at least [min_token_len] characters, each up to its first NUL. *)
Definition kept (bufs : list (list Z)) : list token :=
  map strdup_content (List.filter (fun b => (min_token_len <=? List.length b)%nat) bufs).

(** The buffers that one pass of the loop body hands to
    [append_token_dup], and the buffer it leaves. *)
Definition step (c : Z) buf : list (list Z) * list Z :=
  let ch := char_of_int (transformed transformfn c) in
  if negb (delimitfn c =? 0)%Z then
    if passes_filter filterfn c then ([buf; [ch]], []) else ([buf], [])
  else if passes_filter filterfn c then
    if (TOKEN_SIZE_MAX - 2 <=? List.length (buf ++ [ch]))%nat then ([], [])
    else ([], buf ++ [ch])
  else ([], buf).

(** The buffers handed to [append_token_dup] during the whole scan. *)
Fixpoint scan str buf : list (list Z) :=
  match str with
  | [] => [buf]
  | c :: str' =>
      if (c =? 0)%Z then [buf]
      else let '(out, buf') := step c buf in out ++ scan str' buf'
  end.

Lemma kept_app (a b : list (list Z)) : kept (a ++ b) = kept a ++ kept b.
Proof. unfold kept. rewrite List.filter_app, map_app. reflexivity. Qed.

Lemma push_tokens_app lh (a b : list token) :
  push_tokens lh (a ++ b) = push_tokens (push_tokens lh a) b.
Proof. unfold push_tokens. apply fold_left_app. Qed.

Lemma all_succeed_next o :
  all_succeed o -> exists o', next_alloc o = (true, o') /\ all_succeed o'.
Proof.
  intros Ho. destruct o as [|ok o]; simpl.
  - exists []. split; [reflexivity|constructor].
  - apply Forall_cons in Ho. destruct Ho as [-> Ho]. eauto.
Qed.

Lemma append_token_dup_ok st buf :
  all_succeed (ts_alloc st) ->
  exists st',
    append_token_dup min_token_len st buf = Ok (0%Z, st') /\
    all_succeed (ts_alloc st') /\
    (ts_list st', ts_heap st') = push_tokens (ts_list st, ts_heap st) (kept [buf]).
Proof.
  intros Ho. unfold append_token_dup, kept. cbn [List.filter].
  destruct (min_token_len <=? List.length buf)%nat.
  - destruct (all_succeed_next _ Ho) as (o1 & -> & Ho1).
    destruct (all_succeed_next _ Ho1) as (o2 & -> & Ho2).
    cbn [strdup list_addlast Z.ltb Z.compare].
    eexists. split; [reflexivity|]. split; [exact Ho2|reflexivity].
  - exists st. split; [reflexivity|]. split; [exact Ho|reflexivity].
Qed.

Lemma tokenize_char_ok (c : Z) st buf :
  all_succeed (ts_alloc st) ->
  exists st',
    tokenize_char min_token_len delimitfn filterfn transformfn c st buf
    = Ok (0%Z, st', (step c buf).2) /\
    all_succeed (ts_alloc st') /\
    (ts_list st', ts_heap st')
    = push_tokens (ts_list st, ts_heap st) (kept (step c buf).1).
Proof.
  intros Ho. unfold tokenize_char, step.
  destruct (negb (delimitfn c =? 0)%Z).
  - destruct (append_token_dup_ok st buf Ho) as (st1 & -> & Ho1 & H1).
    cbn [result_bind]. destruct (passes_filter filterfn c).
    + destruct (append_token_dup_ok st1 ([] ++ [char_of_int (transformed transformfn c)]) Ho1)
        as (st2 & -> & Ho2 & H2).
      cbn [result_bind]. exists st2. split; [reflexivity|]. split; [exact Ho2|].
      cbn [fst snd]. change [buf; [char_of_int (transformed transformfn c)]]
        with ([buf] ++ [[] ++ [char_of_int (transformed transformfn c)]]).
      rewrite kept_app, push_tokens_app, <- H1. exact H2.
    + exists st1. split; [reflexivity|]. split; [exact Ho1|exact H1].
  - cbn [result_bind]. destruct (passes_filter filterfn c).
    + destruct (_ <=? _)%nat; exists st; (split; [reflexivity|]);
        (split; [exact Ho|reflexivity]).
    + exists st. split; [reflexivity|]. split; [exact Ho|reflexivity].
Qed.

Lemma tokenize_loop_ok str : forall st buf,
  all_succeed (ts_alloc st) ->
  exists st',
    tokenize_loop min_token_len delimitfn filterfn transformfn str st buf = Ok (0%Z, st') /\
    (ts_list st', ts_heap st')
    = push_tokens (ts_list st, ts_heap st) (kept (scan str buf)).
Proof.
  induction str as [|c str IH]; intros st buf Ho; cbn [tokenize_loop scan].
  - destruct (append_token_dup_ok st buf Ho) as (st' & Hrun & _ & H'). eauto.
  - destruct (c =? 0)%Z.
    + destruct (append_token_dup_ok st buf Ho) as (st' & Hrun & _ & H'). eauto.
    + destruct (tokenize_char_ok c st buf Ho) as (st1 & -> & Ho1 & H1).
      cbn [result_bind Z.eqb].
      destruct (IH st1 (step c buf).2 Ho1) as (st2 & -> & H2).
      exists st2. split; [reflexivity|].
      destruct (step c buf) as [out buf']. cbn [fst snd] in *.
      rewrite kept_app, push_tokens_app, <- H1. exact H2.
Qed.

(** The shape of the list and heap after tokens were pushed. *)
Lemma push_tokens_shape (ts : list token) : forall l h l' h',
  push_tokens (l, h) ts = (l', h') ->
  exists ps : list str_ptr,
    nodes l' = nodes l ++ ps /\ length l' = length l + List.length ps /\
    cmpfn l' = cmpfn l /\
    NoDup ps /\ Forall (fun p => h !! p = None) ps /\
    Forall2 (fun p t => h' !! p = Some t) ps ts /\
    (forall p t, h !! p = Some t -> h' !! p = Some t).
Proof.
  induction ts as [|t ts IH]; intros l h l' h' Hpush.
  - injection Hpush as <- <-. exists []. rewrite app_nil_r, Nat.add_0_r.
    repeat split; auto using NoDup_nil_2.
  - unfold push_tokens in Hpush. cbn [fold_left] in Hpush.
    set (cpy := fresh (dom h)) in *.
    assert (Hfresh : h !! cpy = None) by (apply not_elem_of_dom, is_fresh).
    destruct (IH _ _ _ _ Hpush) as (ps & Hn & Hl & Hc & Hnd & Hnew & Hts & Hkeep).
    cbn [push_token fst snd nodes length cmpfn] in *. fold cpy in Hn, Hnew, Hkeep.
    assert (Hcpy : h' !! cpy = Some t) by (apply Hkeep, lookup_insert_eq).
    assert (Hnotin : ~ elem_of cpy ps).
    { intros Hin. rewrite Forall_forall in Hnew. specialize (Hnew cpy Hin).
      rewrite lookup_insert_eq in Hnew. discriminate. }
    exists (cpy :: ps). rewrite <- app_assoc in Hn. simpl in Hn.
    split; [exact Hn|]. split; [simpl; lia|]. split; [exact Hc|].
    split; [constructor; assumption|]. split; [|split].
    + constructor; [exact Hfresh|]. eapply Forall_impl; [exact Hnew|].
      intros p Hp. simpl in Hp. destruct (decide (p = cpy)) as [->|Hne].
      * rewrite lookup_insert_eq in Hp. discriminate.
      * rewrite lookup_insert_ne in Hp by congruence. exact Hp.
    + constructor; assumption.
    + intros p t0 Hp. apply Hkeep. rewrite lookup_insert_ne; [exact Hp|].
      intros <-. congruence.
Qed.

End Success.

(** [strdup] copies a prefix without NUL, and all of a buffer without
    NUL. *)
Lemma strdup_content_prefix (buf : list Z) :
  List.length (strdup_content buf) <= List.length buf /\
  Forall (fun ch => ch <> 0%Z /\ In ch buf) (strdup_content buf).
Proof.
  induction buf as [|c buf [IHl IHf]]; simpl; [split; [lia|constructor]|].
  destruct (Z.eqb_spec c 0) as [->|Hne]; simpl; [split; [lia|constructor]|].
  split; [lia|]. constructor; [auto|].
  eapply Forall_impl; [exact IHf|]. intros ch Hch. simpl in Hch. tauto.
Qed.

Lemma strdup_content_all (buf : list Z) :
  Forall (fun ch => ch <> 0%Z) buf -> strdup_content buf = buf.
Proof.
  induction 1 as [|c buf Hc _ IH]; simpl; [reflexivity|].
  destruct (Z.eqb_spec c 0); [contradiction|]. rewrite IH. reflexivity.
Qed.

(** ** What the scan hands over *)

Section Scan.
Variable min_token_len : nat.
Variable delimitfn : Z -> Z.
Variable filterfn : option (Z -> Z).
Variable transformfn : option (Z -> Z).

Implicit Types (buf : list Z) (str whole : list Z) (bufs : list (list Z)).

(** [ch] is what the scan stores for a character of [whole] that
    passes the filter. *)
Definition stored_from whole (ch : Z) : Prop :=
  exists c, In c whole /\ passes_filter filterfn c = true /\
            ch = char_of_int (transformed transformfn c).

(** A buffer that fits the token buffer, filled from [whole]. *)
Definition buffer_ok whole buf : Prop :=
  List.length buf <= TOKEN_SIZE_MAX - 3 /\ Forall (stored_from whole) buf.

Lemma step_bounds whole (c : Z) buf :
  In c whole -> buffer_ok whole buf ->
  Forall (buffer_ok whole) (step delimitfn filterfn transformfn c buf).1 /\
  buffer_ok whole (step delimitfn filterfn transformfn c buf).2.
Proof.
  intros Hc [Hlen Hbuf]. unfold step, buffer_ok, TOKEN_SIZE_MAX in *.
  assert (Hnil : List.length (@nil Z) <= 1024 - 3 /\ Forall (stored_from whole) [])
    by (split; [simpl; lia|constructor]).
  assert (Hch : passes_filter filterfn c = true ->
                stored_from whole (char_of_int (transformed transformfn c)))
    by (intros Hp; exists c; auto).
  destruct (negb (delimitfn c =? 0)%Z); destruct (passes_filter filterfn c) eqn:Hp;
    cbn [fst snd]; try (specialize (Hch eq_refl)).
  - split; [|exact Hnil]. constructor; [split; assumption|].
    constructor; [|constructor]. split; [simpl; lia|].
    constructor; [exact Hch|constructor].
  - split; [|exact Hnil]. constructor; [split; assumption|constructor].
  - destruct (Nat.leb_spec (1024 - 2) (List.length (buf ++ [char_of_int (transformed transformfn c)])))
      as [Hfull|Hroom]; cbn [fst snd]; (split; [constructor|]); [exact Hnil|].
    split; [lia|]. apply Forall_app. split; [exact Hbuf|].
    constructor; [exact Hch|constructor].
  - split; [constructor|]. split; assumption.
Qed.

Lemma scan_bounds whole str : forall buf,
  incl str whole -> buffer_ok whole buf ->
  Forall (buffer_ok whole) (scan delimitfn filterfn transformfn str buf).
Proof.
  induction str as [|c str IH]; intros buf Hincl Hbuf; cbn [scan].
  - constructor; [exact Hbuf|constructor].
  - destruct (c =? 0)%Z; [constructor; [exact Hbuf|constructor]|].
    destruct (step_bounds whole c buf) as [Hout Hnext];
      [apply Hincl; left; reflexivity|exact Hbuf|].
    destruct (step delimitfn filterfn transformfn c buf) as [out buf'].
    cbn [fst snd] in *. apply Forall_app. split; [exact Hout|].
    apply IH; [|exact Hnext]. intros x Hx. apply Hincl. right. exact Hx.
Qed.

Lemma kept_bounds whole bufs :
  Forall (buffer_ok whole) bufs ->
  Forall (fun t => List.length t <= TOKEN_SIZE_MAX - 3 /\
                   Forall (fun ch => ch <> 0%Z /\ stored_from whole ch) t)
         (kept min_token_len bufs).
Proof.
  unfold kept. induction 1 as [|b bufs [Hlen Hb] _ IH]; cbn [List.filter map]; [constructor|].
  destruct (min_token_len <=? List.length b)%nat; [|exact IH].
  cbn [map]. constructor; [|exact IH].
  destruct (strdup_content_prefix b) as [Hl Hf]. split; [lia|].
  eapply Forall_impl; [exact Hf|]. intros ch Hch. simpl in Hch.
  destruct Hch as [Hne Hin]. split; [exact Hne|].
  rewrite Forall_forall in Hb. apply Hb, list_elem_of_In. exact Hin.
Qed.

Lemma kept_min_length whole bufs :
  (forall c, In c whole -> char_of_int (transformed transformfn c) <> 0%Z) ->
  Forall (buffer_ok whole) bufs ->
  Forall (fun t => min_token_len <= List.length t) (kept min_token_len bufs).
Proof.
  intros Hnul. unfold kept.
  induction 1 as [|b bufs [Hlen Hb] _ IH]; cbn [List.filter map]; [constructor|].
  destruct (Nat.leb_spec min_token_len (List.length b)) as [Hmin|]; [|exact IH].
  cbn [map]. constructor; [|exact IH].
  rewrite strdup_content_all; [exact Hmin|].
  eapply Forall_impl; [exact Hb|]. intros ch Hch. simpl in Hch.
  destruct Hch as (c & Hc & _ & ->). apply Hnul. exact Hc.
Qed.

(** ** Nothing is lost from short words *)

(** No piece of [str] without a delimiter has [TOKEN_SIZE_MAX - 2]
    characters or more. *)
Definition words_fit str : Prop :=
  forall pre w post, str = pre ++ w ++ post ->
    Forall (fun c => delimitfn c = 0%Z) w -> List.length w < TOKEN_SIZE_MAX - 2.

Lemma words_fit_tail (c : Z) str : words_fit (c :: str) -> words_fit str.
Proof.
  intros H pre w post Hstr Hw. apply (H (c :: pre) w post); [|exact Hw].
  rewrite Hstr. reflexivity.
Qed.

Lemma scan_concat str : forall buf (run : nat),
  Forall (fun c => c <> 0%Z) str -> words_fit str ->
  (forall w post, str = w ++ post -> Forall (fun c => delimitfn c = 0%Z) w ->
                  run + List.length w < TOKEN_SIZE_MAX - 2) ->
  List.length buf <= run ->
  concat (scan delimitfn filterfn transformfn str buf)
  = buf ++ map (fun c => char_of_int (transformed transformfn c))
               (List.filter (passes_filter filterfn) str).
Proof.
  induction str as [|c str IH]; intros buf run Hnz Hfit Hrun Hbuf; cbn [scan].
  - simpl. rewrite app_nil_r. reflexivity.
  - apply Forall_cons in Hnz. destruct Hnz as [Hc Hnz].
    destruct (Z.eqb_spec c 0) as [|_]; [contradiction|].
    pose proof (words_fit_tail c str Hfit) as Hfit'.
    unfold step. cbn [List.filter].
    destruct (Z.eqb_spec (delimitfn c) 0) as [Hnd|Hd]; cbn [negb].
    + assert (Hrun' : forall w post, str = w ++ post ->
                Forall (fun c => delimitfn c = 0%Z) w ->
                S run + List.length w < TOKEN_SIZE_MAX - 2).
      { intros w post Hstr Hw.
        specialize (Hrun (c :: w) post ltac:(rewrite Hstr; reflexivity)
                         ltac:(constructor; assumption)).
        cbn [List.length] in Hrun. lia. }
      destruct (passes_filter filterfn c).
      * assert (Hone : run + 1 < TOKEN_SIZE_MAX - 2).
        { apply (Hrun [c] str eq_refl). repeat constructor. exact Hnd. }
        destruct (Nat.leb_spec (TOKEN_SIZE_MAX - 2)
                    (List.length (buf ++ [char_of_int (transformed transformfn c)])))
          as [Hfull|_].
        { rewrite length_app in Hfull. cbn [List.length] in *. lia. }
        cbn [app]. rewrite (IH _ (S run)); auto.
        -- rewrite <- app_assoc. reflexivity.
        -- rewrite length_app. cbn [List.length]. lia.
      * cbn [app]. apply (IH _ (S run)); auto.
    + assert (Hrun' : forall w post, str = w ++ post ->
                Forall (fun c => delimitfn c = 0%Z) w ->
                0 + List.length w < TOKEN_SIZE_MAX - 2).
      { intros w post Hstr Hw. apply (Hfit' [] w post); [exact Hstr|exact Hw]. }
      destruct (passes_filter filterfn c); cbn [app concat].
      * rewrite (IH [] 0) by (try assumption; simpl; lia). reflexivity.
      * rewrite (IH [] 0) by (try assumption; simpl; lia). reflexivity.
Qed.

Lemma scan_no_nul whole str : forall buf,
  (forall c, In c whole -> char_of_int (transformed transformfn c) <> 0%Z) ->
  Forall (buffer_ok whole) (scan delimitfn filterfn transformfn str buf) ->
  Forall (Forall (fun ch => ch <> 0%Z)) (scan delimitfn filterfn transformfn str buf).
Proof.
  intros buf Hnul Hok. eapply Forall_impl; [exact Hok|].
  intros b [_ Hb]. eapply Forall_impl; [exact Hb|].
  intros ch Hch. simpl in Hch. destruct Hch as (c & Hc & _ & ->). apply Hnul. exact Hc.
Qed.

Lemma kept_concat bufs :
  min_token_len <= 1 -> Forall (Forall (fun ch => ch <> 0%Z)) bufs ->
  concat (kept min_token_len bufs) = concat bufs.
Proof.
  intros Hmin. unfold kept.
  induction 1 as [|b bufs Hb _ IH]; cbn [List.filter map concat]; [reflexivity|].
  destruct (Nat.leb_spec min_token_len (List.length b)) as [_|Hshort].
  - cbn [map concat]. rewrite IH, strdup_content_all by exact Hb. reflexivity.
  - destruct b; [exact IH|simpl in Hshort; lia].
Qed.

End Scan.

Lemma tokenize_string_ok (min_token_len : nat) (delimitfn : Z -> Z)
    (filterfn transformfn : option (Z -> Z)) (str : list Z)
    (l : list_t str_ptr) (h : gmap str_ptr token) (o : alloc_oracle) :
  all_succeed o ->
  exists (l' : list_t str_ptr) (h' : gmap str_ptr token),
    tokenize_string min_token_len delimitfn filterfn transformfn str l h o
      = Ok (0%Z, l', h') /\
    (l', h') = push_tokens (l, h)
                 (kept min_token_len (scan delimitfn filterfn transformfn str [])).
Proof.
  intros Ho. unfold tokenize_string.
  destruct (tokenize_loop_ok min_token_len delimitfn filterfn transformfn str
              (mk_tok_state l h o) [] Ho) as (st' & -> & Hst).
  cbn [result_bind]. rewrite revert_loop_step. cbn [Z.ltb Z.compare andb result_bind].
  exists (ts_list st'), (ts_heap st'). split; [reflexivity|exact Hst].
Qed.

(** [X9] When no allocation fails, [tokenize_string] returns 0 and only
    appends: the list keeps its items in front of the new pointers, which
    are distinct strings that did not exist before, and every old string
    is untouched. A token is at most [TOKEN_SIZE_MAX - 3] characters long
    and consists of characters of the input that passed the filter, as
    transformed; when no transformed character is NUL, no token is shorter
    than [min_token_len]. *)
Theorem tokenize_string_appends_tokens (min_token_len : nat) (delimitfn : Z -> Z)
    (filterfn transformfn : option (Z -> Z)) (str : list Z)
    (l : list_t str_ptr) (h : gmap str_ptr token) (o : alloc_oracle) :
  all_succeed o ->
  exists (l' : list_t str_ptr) (h' : gmap str_ptr token)
         (ps : list str_ptr) (ts : list token),
    tokenize_string min_token_len delimitfn filterfn transformfn str l h o
      = Ok (0%Z, l', h') /\
    nodes l' = nodes l ++ ps /\
    list_length l' = list_length l + List.length ps /\
    cmpfn l' = cmpfn l /\
    NoDup ps /\ Forall (fun p => h !! p = None) ps /\
    Forall2 (fun p t => h' !! p = Some t) ps ts /\
    (forall p t, h !! p = Some t -> h' !! p = Some t) /\
    Forall (fun t => List.length t <= TOKEN_SIZE_MAX - 3 /\
                     Forall (fun ch => ch <> 0%Z /\ stored_from filterfn transformfn str ch) t)
           ts /\
    ((forall c, In c str -> char_of_int (transformed transformfn c) <> 0%Z) ->
     Forall (fun t => min_token_len <= List.length t) ts).
Proof.
  intros Ho.
  destruct (tokenize_string_ok min_token_len delimitfn filterfn transformfn str l h o Ho)
    as (l' & h' & Hrun & Hpush).
  destruct (push_tokens_shape _ l h l' h' (eq_sym Hpush))
    as (ps & Hn & Hl & Hc & Hnd & Hnew & Hts & Hkeep).
  assert (Hok : Forall (buffer_ok filterfn transformfn str)
                       (scan delimitfn filterfn transformfn str [])).
  { apply scan_bounds; [intros x Hx; exact Hx|].
    split; [unfold TOKEN_SIZE_MAX; simpl; lia|constructor]. }
  exists l', h', ps, (kept min_token_len (scan delimitfn filterfn transformfn str [])).
  split; [exact Hrun|]. split; [exact Hn|]. split; [exact Hl|].
  split; [exact Hc|]. split; [exact Hnd|]. split; [exact Hnew|]. split; [exact Hts|].
  split; [exact Hkeep|]. split.
  - apply kept_bounds. exact Hok.
  - intros Hnul. eapply kept_min_length; eassumption.
Qed.

(** Space as the only delimiter, and a filter that drops it. *)
Definition is_space_char (c : Z) : Z := if (c =? 32)%Z then 1%Z else 0%Z.
Definition is_not_space_char (c : Z) : Z := if (c =? 32)%Z then 0%Z else 1%Z.

(** The premise holds for a run without allocation failures: ["ab cd"]
    becomes the two tokens ["ab"] and ["cd"] behind the old item. *)
Lemma tokenize_string_appends_tokens_witness :
  exists (l' : list_t str_ptr) (h' : gmap str_ptr token) (p1 p2 : str_ptr),
    tokenize_string 1 is_space_char (Some is_not_space_char) None
                    [97; 98; 32; 99; 100]%Z
                    {| nodes := [5]; length := 1; cmpfn := fun _ _ => 0%Z |}
                    {[ 5 := [120%Z] ]} [true; true]
    = Ok (0%Z, l', h') /\
    nodes l' = [5; p1; p2] /\
    h' !! p1 = Some [97; 98]%Z /\ h' !! p2 = Some [99; 100]%Z /\
    h' !! 5 = Some [120%Z].
Proof.
  destruct (tokenize_string_appends_tokens 1 is_space_char (Some is_not_space_char) None
              [97; 98; 32; 99; 100]%Z
              {| nodes := [5]; length := 1; cmpfn := fun _ _ => 0%Z |}
              {[ 5 := [120%Z] ]} [true; true])
    as (l' & h' & ps & ts & Hrun & _).
  - repeat constructor.
  - vm_compute in Hrun. injection Hrun as <- <-.
    eexists _, _, _, _. split; [reflexivity|]. split; [reflexivity|].
    split; [reflexivity|]. split; reflexivity.
Defined.

(** [X10] When no allocation fails, no character of the input or of its
    transformation is NUL, [min_token_len] is at most 1 and no stretch
    of the input without a delimiter reaches [TOKEN_SIZE_MAX - 2]
    characters, the tokens that [tokenize_string] appends hold, one after
    the other, exactly the characters that pass the filter, transformed
    and in input order: none is dropped, repeated or moved. *)
Theorem tokenize_string_keeps_characters (min_token_len : nat) (delimitfn : Z -> Z)
    (filterfn transformfn : option (Z -> Z)) (str : list Z)
    (l : list_t str_ptr) (h : gmap str_ptr token) (o : alloc_oracle) :
  all_succeed o -> min_token_len <= 1 ->
  Forall (fun c => c <> 0%Z /\ char_of_int (transformed transformfn c) <> 0%Z) str ->
  words_fit delimitfn str ->
  exists (l' : list_t str_ptr) (h' : gmap str_ptr token)
         (ps : list str_ptr) (ts : list token),
    tokenize_string min_token_len delimitfn filterfn transformfn str l h o
      = Ok (0%Z, l', h') /\
    nodes l' = nodes l ++ ps /\
    Forall2 (fun p t => h' !! p = Some t) ps ts /\
    concat ts = map (fun c => char_of_int (transformed transformfn c))
                    (List.filter (passes_filter filterfn) str).
Proof.
  intros Ho Hmin Hstr Hfit.
  destruct (tokenize_string_ok min_token_len delimitfn filterfn transformfn str l h o Ho)
    as (l' & h' & Hrun & Hpush).
  destruct (push_tokens_shape _ l h l' h' (eq_sym Hpush))
    as (ps & Hn & _ & _ & _ & _ & Hts & _).
  exists l', h', ps, (kept min_token_len (scan delimitfn filterfn transformfn str [])).
  split; [exact Hrun|]. split; [exact Hn|]. split; [exact Hts|].
  apply Forall_and in Hstr. destruct Hstr as [Hnz Hnul].
  rewrite kept_concat; [|exact Hmin|].
  - apply (scan_concat delimitfn filterfn transformfn str [] 0); auto.
    intros w post Hw Hd. apply (Hfit [] w post); [exact Hw|exact Hd].
  - eapply (scan_no_nul _ _ _ str).
    + intros c Hc. rewrite Forall_forall in Hnul. apply Hnul, list_elem_of_In. exact Hc.
    + apply scan_bounds; [intros x Hx; exact Hx|].
      split; [unfold TOKEN_SIZE_MAX; simpl; lia|constructor].
Qed.

(** The premises hold for ["ab cd"] split at spaces that are filtered
    out: the tokens hold ["abcd"] between them. *)
Lemma tokenize_string_keeps_characters_witness :
  exists (l' : list_t str_ptr) (h' : gmap str_ptr token)
         (ps : list str_ptr) (ts : list token),
    tokenize_string 1 is_space_char (Some is_not_space_char) None
                    [97; 98; 32; 99; 100]%Z
                    {| nodes := []; length := 0; cmpfn := fun _ _ => 0%Z |} ∅ []
    = Ok (0%Z, l', h') /\
    nodes l' = ps /\ Forall2 (fun p t => h' !! p = Some t) ps ts /\
    concat ts = [97; 98; 99; 100]%Z.
Proof.
  destruct (tokenize_string_keeps_characters 1 is_space_char (Some is_not_space_char) None
              [97; 98; 32; 99; 100]%Z
              {| nodes := []; length := 0; cmpfn := fun _ _ => 0%Z |} ∅ [])
    as (l' & h' & ps & ts & Hrun & Hn & Hts & Hcat).
  - constructor.
  - lia.
  - repeat constructor; discriminate.
  - intros pre w post Hstr Hw.
    apply (f_equal (@List.length Z)) in Hstr. rewrite !length_app in Hstr.
    unfold TOKEN_SIZE_MAX. simpl in Hstr. lia.
  - exists l', h', ps, ts. split; [exact Hrun|]. split; [exact Hn|]. split; [exact Hts|].
    exact Hcat.
Defined.

(** ** [tokenize_file] *)

(** What the C library does with the stream: the value [fsize] returns
    (negative when it fails), the bytes of the stream from its position
    on, and the [errno] that [fread] leaves. *)
Record file_t : Type := mk_file {
  f_size : Z;
  f_bytes : list Z;
  f_errno : Z
}.

(** [malloc] of a character buffer: a new block, or NULL. [content] is
    what the block comes to hold. *)
Definition malloc (malloc_ok : bool) (h : gmap str_ptr token) (content : token)
  : option str_ptr * gmap str_ptr token :=
  if malloc_ok then
    let p := fresh (dom h) in (Some p, <[p := content]> h)
  else (None, h).

Section File.
Variable min_token_len : nat.
Variable delimitfn : Z -> Z.
Variable filterfn : option (Z -> Z).
Variable transformfn : option (Z -> Z).

(** [tokenize_file]: the status, the list and the heap. [fread] stores
    at most [file_size] bytes in the buffer; the terminator is written
    over the last byte read, or in front of the buffer when nothing was
    read. *)
Definition tokenize_file (f : file_t) (l : list_t str_ptr)
    (h : gmap str_ptr token) (o : alloc_oracle)
  : result (Z * list_t str_ptr * gmap str_ptr token) :=
  let maybe_file_size := f_size f in
  if (maybe_file_size <? 0)%Z then Ok ((-1)%Z, l, h)
  else
    let file_size := Z.to_nat maybe_file_size in
    if (file_size =? 0)%nat || (file_size <? min_token_len)%nat then Ok (0%Z, l, h)
    else
      let '(malloc_ok, o1) := next_alloc o in
      let read := take file_size (f_bytes f) in
      match malloc malloc_ok h read with
      | (None, _) => Ok ((-1)%Z, l, h)
      | (Some content, h1) =>
          if negb (f_errno f =? 0)%Z then
            do h2 <- free h1 content;
            Ok ((-2)%Z, l, h2)
          else
            let read_bytes := List.length read in
            if (read_bytes =? 0)%nat then Abort SEGFAULT
            else
              let str := removelast read in
              do '(rv, l', h') <-
                tokenize_string min_token_len delimitfn filterfn transformfn
                                str l (<[content := str]> h1) o1;
              do h'' <- free h' content;
              Ok (rv, l', h'')
      end.



Lemma free_fresh (h : gmap str_ptr token) (x y : token) :
  free (<[fresh (dom h) := x]> (<[fresh (dom h) := y]> h)) (fresh (dom h)) = Ok h.
Proof.
  unfold free. rewrite lookup_insert_eq, insert_insert_eq.
  rewrite delete_insert_id; [reflexivity|]. apply not_elem_of_dom, is_fresh.
Qed.

End File.



(** [X18] [tokenize_file] overwrites the last byte it read with the
    terminator: when nothing fails, the stream has as many bytes as
    [fsize] reports, none of them NUL before or after transformation,
    [min_token_len] is at most 1 and no stretch without a delimiter
    reaches [TOKEN_SIZE_MAX - 2] characters, the tokens it appends hold the
    filtered and transformed characters of all bytes but the last, in
    order. The last byte of the file reaches no token. *)
Theorem tokenize_file_drops_last_byte (min_token_len : nat) (delimitfn : Z -> Z)
    (filterfn transformfn : option (Z -> Z)) (f : file_t)
    (l : list_t str_ptr) (h : gmap str_ptr token) (o : alloc_oracle) :
  all_succeed o -> f_errno f = 0%Z ->
  f_bytes f <> [] -> f_size f = Z.of_nat (List.length (f_bytes f)) ->
  min_token_len <= 1 ->
  Forall (fun c => c <> 0%Z /\ char_of_int (transformed transformfn c) <> 0%Z)
         (removelast (f_bytes f)) ->
  words_fit delimitfn (removelast (f_bytes f)) ->
  exists (l' : list_t str_ptr) (h' : gmap str_ptr token)
         (ps : list str_ptr) (ts : list token),
    tokenize_file min_token_len delimitfn filterfn transformfn f l h o
      = Ok (0%Z, l', h') /\
    nodes l' = nodes l ++ ps /\
    Forall2 (fun p t => h' !! p = Some t) ps ts /\
    (forall p t, h !! p = Some t -> h' !! p = Some t) /\
    concat ts = map (fun c => char_of_int (transformed transformfn c))
                    (List.filter (passes_filter filterfn) (removelast (f_bytes f))).
Proof.
  intros Ho Herrno Hbytes Hsize Hmin Hstr Hfit. unfold tokenize_file. cbv zeta.
  assert (Hlen : Z.to_nat (f_size f) = List.length (f_bytes f)) by lia.
  assert (Hpos : 0 < List.length (f_bytes f)).
  { destruct (f_bytes f); [congruence|simpl; lia]. }
  destruct (Z.ltb_spec (f_size f) 0) as [|_]; [lia|].
  rewrite Hlen. destruct (Nat.eqb_spec (List.length (f_bytes f)) 0) as [|_]; [lia|].
  destruct (Nat.ltb_spec (List.length (f_bytes f)) min_token_len) as [|_]; [lia|].
  cbn [orb]. destruct (all_succeed_next o Ho) as (o1 & -> & Ho1). cbn [malloc].
  rewrite Herrno. cbn [Z.eqb negb]. rewrite firstn_all.
  destruct (Nat.eqb_spec (List.length (f_bytes f)) 0) as [|_]; [lia|].
  set (content := fresh (dom h)).
  assert (Hfresh : h !! content = None) by (apply not_elem_of_dom, is_fresh).
  match goal with
  | |- context [tokenize_string _ _ _ _ _ _ ?h0 _] => set (h1 := h0)
  end.
  destruct (tokenize_string_ok min_token_len delimitfn filterfn transformfn
              (removelast (f_bytes f)) l h1 o1 Ho1) as (l' & h' & -> & Hpush).
  destruct (push_tokens_shape _ l h1 l' h' (eq_sym Hpush))
    as (ps & Hn & _ & _ & _ & Hnew & Hts & Hkeep).
  cbn [result_bind].
  assert (Hcontent : h1 !! content = Some (removelast (f_bytes f)))
    by apply lookup_insert_eq.
  unfold free. rewrite (Hkeep _ _ Hcontent). cbn [result_bind].
  exists l', (delete content h'), ps,
    (kept min_token_len (scan delimitfn filterfn transformfn (removelast (f_bytes f)) [])).
  split; [reflexivity|]. split; [exact Hn|]. split; [|split].
  - clear - Hts Hnew Hcontent. induction Hts as [|p t ps ts Hp Hts IH]; constructor.
    + apply Forall_cons in Hnew. destruct Hnew as [Hpnew _]. simpl in Hpnew.
      rewrite lookup_delete_ne; [exact Hp|]. intros Heq. subst p.
      unfold lookup in Hpnew, Hcontent. congruence.
    + apply IH. apply Forall_cons in Hnew. tauto.
  - intros p t Hp.
    assert (Hne : content <> p) by (intros Heq; rewrite <- Heq, Hfresh in Hp; discriminate).
    rewrite lookup_delete_ne by exact Hne.
    apply Hkeep. unfold h1. rewrite !lookup_insert_ne by exact Hne. exact Hp.
  - apply Forall_and in Hstr. destruct Hstr as [Hnz Hnul].
    rewrite kept_concat; [|exact Hmin|].
    + apply (scan_concat delimitfn filterfn transformfn _ [] 0); auto.
      intros w post Hw Hd. apply (Hfit [] w post); [exact Hw|exact Hd].
    + eapply (scan_no_nul _ _ _ (removelast (f_bytes f))).
      * intros c Hc. rewrite Forall_forall in Hnul. apply Hnul, list_elem_of_In. exact Hc.
      * apply scan_bounds; [intros x Hx; exact Hx|].
        split; [unfold TOKEN_SIZE_MAX; simpl; lia|constructor].
Qed.

(** The premises hold for a file that holds ["ab cd"]: the tokens are
    ["ab"] and ["c"], the final [d] is lost. *)
Lemma tokenize_file_drops_last_byte_witness :
  exists (l' : list_t str_ptr) (h' : gmap str_ptr token)
         (ps : list str_ptr) (ts : list token),
    tokenize_file 1 is_space_char (Some is_not_space_char) None
                  {| f_size := 5; f_bytes := [97; 98; 32; 99; 100]%Z; f_errno := 0 |}
                  {| nodes := []; length := 0; cmpfn := fun _ _ => 0%Z |} ∅ []
    = Ok (0%Z, l', h') /\
    nodes l' = ps /\ Forall2 (fun p t => h' !! p = Some t) ps ts /\
    concat ts = [97; 98; 99]%Z.
Proof.
  destruct (tokenize_file_drops_last_byte 1 is_space_char (Some is_not_space_char) None
              {| f_size := 5; f_bytes := [97; 98; 32; 99; 100]%Z; f_errno := 0 |}
              {| nodes := []; length := 0; cmpfn := fun _ _ => 0%Z |} ∅ [])
    as (l' & h' & ps & ts & Hrun & Hn & Hts & _ & Hcat).
  - constructor.
  - reflexivity.
  - discriminate.
  - reflexivity.
  - lia.
  - repeat constructor; discriminate.
  - intros pre w post Hstr Hw.
    apply (f_equal (@List.length Z)) in Hstr. rewrite !length_app in Hstr.
    unfold TOKEN_SIZE_MAX. simpl in Hstr. lia.
  - exists l', h', ps, ts. split; [exact Hrun|]. split; [exact Hn|]. split; [exact Hts|].
    exact Hcat.
Defined.

End Tokenize.

(** * [hashmap.c] *)

Module HashMap.

Definition N_BUCKETS_INITIAL : nat := 16.

(** [calc_rehash_threshold]: 75% of the capacity, rounded down. The
    source computes it as [(size_t) ((double) capacity * 0.75)], which
    is this quotient for every capacity below [2^51]. *)
Definition calc_rehash_threshold (capacity : nat) : nat := (capacity * 3) / 4.

Section Defs.
Context {K V : Type}.

(** [entry_t] of [map.h]. *)
Record entry_t : Type := mk_entry {
  key : K;
  val : V
}.

(** [struct map]. A bucket is the chain of [mnode]s from its head along
    the [overflow] pointers, as the list of their entries. The hash is
    the 64-bit unsigned value as an integer. *)
Record map_t : Type := mk_map {
  cmpfn : cmp_fn K;
  hashfn : K -> Z;
  buckets : list (list entry_t);
  capacity : nat;
  length : nat;
  rehash_threshold : nat
}.

(** [hash % capacity]. *)
Definition bucket_index (hash : Z) (capacity : nat) : nat :=
  Z.to_nat (hash mod Z.of_nat capacity).

(** [map_create]: NULL when either allocation fails. *)
Definition map_create (malloc_ok calloc_ok : bool) (cmp : cmp_fn K) (hash : K -> Z)
  : option map_t :=
  if malloc_ok && calloc_ok then
    Some {| cmpfn := cmp; hashfn := hash;
            buckets := replicate N_BUCKETS_INITIAL [];
            capacity := N_BUCKETS_INITIAL;
            length := 0;
            rehash_threshold := calc_rehash_threshold N_BUCKETS_INITIAL |}
  else None.

Definition map_length (m : map_t) : nat := length m.

(** The inner [while (node)] loop of [map_resize] over one old chain:
    every node becomes the head of its new chain. *)
Fixpoint rehash_chain (hash : K -> Z) (new_capacity : nat) (chain : list entry_t)
    (new_buckets : list (list entry_t)) (n_i : nat)
  : result (list (list entry_t) * nat) :=
  match chain with
  | [] => Ok (new_buckets, n_i)
  | e :: next =>
      if (new_capacity =? 0)%nat then Abort SIGFPE
      else
        let i_new := bucket_index (hash (key e)) new_capacity in
        match new_buckets !! i_new with
        | None => Abort SEGFAULT
        | Some chain_new =>
            rehash_chain hash new_capacity next
              (<[i_new := e :: chain_new]> new_buckets) (n_i + 1)
        end
  end.

(** The outer [for] loop of [map_resize], with [remaining] buckets to go
    from index [i_old]. *)
Fixpoint rehash_buckets (hash : K -> Z) (new_capacity : nat)
    (old_buckets : list (list entry_t)) (i_old remaining : nat)
    (new_buckets : list (list entry_t)) (n_i : nat)
  : result (list (list entry_t) * nat) :=
  match remaining with
  | 0 => Ok (new_buckets, n_i)
  | S remaining' =>
      match old_buckets !! i_old with
      | None => Abort SEGFAULT
      | Some chain =>
          do '(new_buckets', n_i') <-
            rehash_chain hash new_capacity chain new_buckets n_i;
          rehash_buckets hash new_capacity old_buckets (S i_old) remaining'
                         new_buckets' n_i'
      end
  end.

(** [map_resize]; the [calloc] is taken to succeed. *)
Definition map_resize (m : map_t) (new_capacity : nat) : result map_t :=
  do '(new_buckets, n_i) <-
    rehash_buckets (hashfn m) new_capacity (buckets m) 0 (capacity m)
                   (replicate new_capacity []) 0;
  if (n_i =? length m)%nat then
    Ok {| cmpfn := cmpfn m; hashfn := hashfn m;
          buckets := new_buckets;
          capacity := new_capacity;
          length := length m;
          rehash_threshold := calc_rehash_threshold new_capacity |}
  else Abort PANIC.

(** The search loop of [map_insert] along a chain: the entry that was
    swapped out and the chain with [entry] in its node. *)
Fixpoint chain_replace (cmp : cmp_fn K) (k : K) (entry : entry_t)
    (chain : list entry_t) : option (entry_t * list entry_t) :=
  match chain with
  | [] => None
  | e :: overflow =>
      if (cmp k (key e) =? 0)%Z then Some (e, entry :: overflow)
      else match chain_replace cmp k entry overflow with
           | Some (old_entry, overflow') => Some (old_entry, e :: overflow')
           | None => None
           end
  end.

(** [map_insert]; the allocations are taken to succeed. The result is
    the returned entry pointer (NULL is [None]) and the map afterwards. *)
Definition map_insert (m : map_t) (k : K) (v : V) : result (option entry_t * map_t) :=
  let entry := {| key := k; val := v |} in
  if (capacity m =? 0)%nat then Abort SIGFPE
  else
    let bucket_i := bucket_index (hashfn m k) (capacity m) in
    match buckets m !! bucket_i with
    | None => Abort SEGFAULT
    | Some head =>
        match chain_replace (cmpfn m) k entry head with
        | Some (old_entry, chain) =>
            Ok (Some old_entry,
                {| cmpfn := cmpfn m; hashfn := hashfn m;
                   buckets := <[bucket_i := chain]> (buckets m);
                   capacity := capacity m; length := length m;
                   rehash_threshold := rehash_threshold m |})
        | None =>
            let m1 := {| cmpfn := cmpfn m; hashfn := hashfn m;
                         buckets := <[bucket_i := entry :: head]> (buckets m);
                         capacity := capacity m; length := length m + 1;
                         rehash_threshold := rehash_threshold m |} in
            match head with
            | _ :: _ =>
                if (rehash_threshold m1 <=? length m1)%nat then
                  do m2 <- map_resize m1 (capacity m1 * 2);
                  Ok (None, m2)
                else Ok (None, m1)
            | [] => Ok (None, m1)
            end
        end
    end.

(** [map_get]. *)
Definition map_get (m : map_t) (k : K) : result (option entry_t) :=
  if (capacity m =? 0)%nat then Abort SIGFPE
  else
    match buckets m !! bucket_index (hashfn m k) (capacity m) with
    | None => Abort SEGFAULT
    | Some chain => Ok (find (fun e => (cmpfn m (key e) k =? 0)%Z) chain)
    end.

(** All entries, bucket after bucket. *)
Definition entries (m : map_t) : list entry_t := concat (buckets m).

End Defs.
Arguments entry_t : clear implicits.
Arguments map_t : clear implicits.

(** ** What [map_insert] does to a well-formed map *)

Section Spec.
Context {K V : Type}.
Implicit Types (m : map_t K V) (e entry : entry_t K V) (chain : list (entry_t K V))
  (bs : list (list (entry_t K V))).

(** Every chain hangs in the bucket its keys hash to. *)
Definition buckets_placed (hash : K -> Z) (cap : nat) bs : Prop :=
  forall i chain e, bs !! i = Some chain -> In e chain ->
                    bucket_index (hash (key e)) cap = i.

(** The representation invariant of [struct map]. *)
Definition map_wf m : Prop :=
  (0 < capacity m)%nat /\
  List.length (buckets m) = capacity m /\
  length m = List.length (entries m) /\
  buckets_placed (hashfn m) (capacity m) (buckets m).

(** Keys that compare equal hash alike: what a caller owes the map. *)
Definition hash_respects_cmp (cmp : cmp_fn K) (hash : K -> Z) : Prop :=
  forall k1 k2, cmp k1 k2 = 0%Z -> hash k1 = hash k2.

Lemma bucket_index_lt (hash : Z) (cap : nat) :
  (0 < cap)%nat -> (bucket_index hash cap < cap)%nat.
Proof.
  intros Hcap. unfold bucket_index.
  pose proof (Z.mod_pos_bound hash (Z.of_nat cap) ltac:(lia)). lia.
Qed.

Lemma chain_replace_spec cmp k entry chain :
  match chain_replace cmp k entry chain with
  | Some (old, chain') =>
      exists l1 l2, chain = l1 ++ old :: l2 /\ chain' = l1 ++ entry :: l2 /\
                    cmp k (key old) = 0%Z
  | None => Forall (fun e => cmp k (key e) <> 0%Z) chain
  end.
Proof.
  induction chain as [|e overflow IH]; simpl; [constructor|].
  destruct (Z.eqb_spec (cmp k (key e)) 0) as [Heq|Hne].
  - exists [], overflow. auto.
  - destruct (chain_replace cmp k entry overflow) as [[old overflow']|].
    + destruct IH as (l1 & l2 & -> & -> & Hk). exists (e :: l1), l2. auto.
    + constructor; assumption.
Qed.

Lemma concat_insert bs i chain chain' :
  bs !! i = Some chain ->
  concat bs = concat (take i bs) ++ chain ++ concat (drop (S i) bs) /\
  concat (<[i := chain']> bs) = concat (take i bs) ++ chain' ++ concat (drop (S i) bs).
Proof.
  intros Hi. pose proof (lookup_lt_Some _ _ _ Hi) as Hlt.
  rewrite insert_take_drop by exact Hlt.
  rewrite <- (take_drop_middle bs i chain Hi) at 1.
  rewrite !concat_app. simpl. split; reflexivity.
Qed.

Lemma concat_insert_cons bs i chain e :
  bs !! i = Some chain ->
  Permutation (concat (<[i := e :: chain]> bs)) (e :: concat bs).
Proof.
  intros Hi. destruct (concat_insert bs i chain (e :: chain) Hi) as [-> ->].
  simpl. symmetry. apply Permutation_middle.
Qed.

Lemma buckets_placed_insert hash cap bs i chain' :
  buckets_placed hash cap bs ->
  (forall e, In e chain' -> bucket_index (hash (key e)) cap = i) ->
  buckets_placed hash cap (<[i := chain']> bs).
Proof.
  intros Hp Hc j chain e Hj He.
  destruct (decide (i = j)) as [->|Hne].
  - pose proof (lookup_lt_Some _ _ _ Hj) as Hlt. rewrite length_insert in Hlt.
    rewrite list_lookup_insert_eq in Hj by exact Hlt.
    injection Hj as <-. auto.
  - rewrite list_lookup_insert_ne in Hj by exact Hne. eapply Hp; eauto.
Qed.

Lemma rehash_chain_spec hash cap chain : forall bs n_i,
  (0 < cap)%nat -> List.length bs = cap -> buckets_placed hash cap bs ->
  exists bs', rehash_chain hash cap chain bs n_i = Ok (bs', n_i + List.length chain) /\
              List.length bs' = cap /\ buckets_placed hash cap bs' /\
              Permutation (concat bs') (chain ++ concat bs).
Proof.
  induction chain as [|e next IH]; intros bs n_i Hcap Hlen Hp.
  - exists bs. simpl. rewrite Nat.add_0_r. auto.
  - cbn [rehash_chain]. destruct (Nat.eqb_spec cap 0); [lia|].
    pose proof (bucket_index_lt (hash (key e)) cap Hcap) as Hlt.
    destruct (lookup_lt_is_Some_2 bs (bucket_index (hash (key e)) cap)
                ltac:(rewrite Hlen; exact Hlt)) as [chain_new Hnew].
    rewrite Hnew.
    destruct (IH (<[bucket_index (hash (key e)) cap := e :: chain_new]> bs) (n_i + 1) Hcap)
      as (bs' & Hrun & Hlen' & Hp' & Hperm).
    + rewrite length_insert. exact Hlen.
    + apply buckets_placed_insert; [exact Hp|].
      intros e' [<-|He']; [reflexivity|]. eapply Hp; eauto.
    + exists bs'. split; [rewrite Hrun; do 2 f_equal; simpl; lia|].
      split; [exact Hlen'|]. split; [exact Hp'|].
      rewrite Hperm, (concat_insert_cons bs _ chain_new e Hnew).
      simpl. symmetry. apply Permutation_middle.
Qed.

Lemma rehash_buckets_spec hash cap old remaining : forall i_old bs n_i,
  (0 < cap)%nat -> List.length bs = cap -> buckets_placed hash cap bs ->
  i_old + remaining = List.length old ->
  exists bs', rehash_buckets hash cap old i_old remaining bs n_i
              = Ok (bs', n_i + List.length (concat (drop i_old old))) /\
              List.length bs' = cap /\ buckets_placed hash cap bs' /\
              Permutation (concat bs') (concat (drop i_old old) ++ concat bs).
Proof.
  induction remaining as [|remaining IH]; intros i_old bs n_i Hcap Hlen Hp Hrange.
  - exists bs. simpl. rewrite drop_ge by lia. simpl. rewrite Nat.add_0_r. auto.
  - cbn [rehash_buckets].
    destruct (lookup_lt_is_Some_2 old i_old ltac:(lia)) as [chain Hchain].
    rewrite Hchain.
    destruct (rehash_chain_spec hash cap chain bs n_i Hcap Hlen Hp)
      as (bs1 & Hrun1 & Hlen1 & Hp1 & Hperm1).
    rewrite Hrun1. cbn [result_bind].
    destruct (IH (S i_old) bs1 (n_i + List.length chain) Hcap Hlen1 Hp1 ltac:(lia))
      as (bs2 & Hrun2 & Hlen2 & Hp2 & Hperm2).
    exists bs2. rewrite (drop_S old chain i_old Hchain). simpl.
    split; [rewrite Hrun2; do 2 f_equal; rewrite length_app; lia|].
    split; [exact Hlen2|]. split; [exact Hp2|].
    rewrite Hperm2, Hperm1. rewrite <- !app_assoc.
    rewrite (app_assoc _ chain), (Permutation_app_comm (concat _) chain).
    rewrite <- app_assoc. reflexivity.
Qed.

Lemma map_resize_spec m new_capacity :
  (0 < new_capacity)%nat ->
  List.length (buckets m) = capacity m -> length m = List.length (entries m) ->
  exists m', map_resize m new_capacity = Ok m' /\ map_wf m' /\
             cmpfn m' = cmpfn m /\ hashfn m' = hashfn m /\
             length m' = length m /\ Permutation (entries m') (entries m).
Proof.
  intros Hcap Hlen Hcount. unfold map_resize.
  destruct (rehash_buckets_spec (hashfn m) new_capacity (buckets m) (capacity m) 0
              (replicate new_capacity []) 0 Hcap)
    as (bs' & Hrun & Hlen' & Hp' & Hperm).
  - apply length_replicate.
  - intros i chain e Hi He. apply lookup_replicate in Hi. destruct Hi as [-> _].
    destruct He.
  - lia.
  - rewrite Hrun. cbn [result_bind]. rewrite drop_0 in *. simpl.
    assert (Hnil : concat (replicate new_capacity ([] : list (entry_t K V))) = []).
    { clear. induction new_capacity; simpl; auto. }
    rewrite Hnil, app_nil_r in Hperm.
    fold (entries m). rewrite <- Hcount, Nat.eqb_refl.
    eexists. split; [reflexivity|]. unfold map_wf, entries; simpl.
    repeat split; auto.
    rewrite Hcount. symmetry. apply Permutation_length. exact Hperm.
Qed.

Lemma map_insert_spec m k v :
  map_wf m -> hash_respects_cmp (cmpfn m) (hashfn m) ->
  exists r m',
    map_insert m k v = Ok (r, m') /\ map_wf m' /\
    cmpfn m' = cmpfn m /\ hashfn m' = hashfn m /\
    match r with
    | None =>
        Forall (fun e => cmpfn m k (key e) <> 0%Z) (entries m) /\
        length m' = length m + 1 /\
        Permutation (entries m') (mk_entry k v :: entries m)
    | Some old =>
        cmpfn m k (key old) = 0%Z /\ length m' = length m /\
        exists l1 l2, entries m = l1 ++ old :: l2 /\
                      entries m' = l1 ++ mk_entry k v :: l2
    end.
Proof.
  intros (Hcap & Hlen & Hcount & Hplaced) Hhash. unfold map_insert.
  destruct (Nat.eqb_spec (capacity m) 0); [lia|].
  set (bucket_i := bucket_index (hashfn m k) (capacity m)).
  pose proof (bucket_index_lt (hashfn m k) (capacity m) Hcap) as Hlt. fold bucket_i in Hlt.
  destruct (lookup_lt_is_Some_2 (buckets m) bucket_i ltac:(lia)) as [head Hhead].
  rewrite Hhead.
  pose proof (chain_replace_spec (cmpfn m) k (mk_entry k v) head) as Hrep.
  destruct (chain_replace (cmpfn m) k (mk_entry k v) head) as [[old chain]|].
  - destruct Hrep as (l1 & l2 & -> & -> & Hk).
    eexists _, _. split; [reflexivity|].
    destruct (concat_insert (buckets m) bucket_i _ (l1 ++ mk_entry k v :: l2) Hhead)
      as [Hc1 Hc2].
    split; [|split; [reflexivity|split; [reflexivity|]]].
    + unfold map_wf, entries; simpl. rewrite length_insert.
      repeat split; auto.
      * rewrite Hcount. unfold entries. rewrite Hc1, Hc2, !length_app. simpl. lia.
      * apply buckets_placed_insert; [exact Hplaced|].
        intros e He. apply in_app_or in He. destruct He as [He|[<-|He]].
        -- eapply Hplaced; [exact Hhead|]. apply in_or_app. auto.
        -- reflexivity.
        -- eapply Hplaced; [exact Hhead|]. apply in_or_app. right. right. exact He.
    + split; [exact Hk|]. split; [reflexivity|].
      exists (concat (take bucket_i (buckets m)) ++ l1),
             (l2 ++ concat (drop (S bucket_i) (buckets m))).
      unfold entries; simpl. rewrite Hc1, Hc2, <- !app_assoc. simpl. auto.
  - set (m1 := {| cmpfn := cmpfn m; hashfn := hashfn m;
                  buckets := <[bucket_i := mk_entry k v :: head]> (buckets m);
                  capacity := capacity m; length := length m + 1;
                  rehash_threshold := rehash_threshold m |}).
    destruct (concat_insert (buckets m) bucket_i head (mk_entry k v :: head) Hhead)
      as [Hc1 Hc2].
    assert (Hperm1 : Permutation (entries m1) (mk_entry k v :: entries m)).
    { unfold entries; simpl. apply concat_insert_cons. exact Hhead. }
    assert (Hwf1 : map_wf m1).
    { unfold map_wf; simpl. rewrite length_insert. repeat split; auto.
      - rewrite (Permutation_length Hperm1). simpl. lia.
      - apply buckets_placed_insert; [exact Hplaced|].
        intros e [<-|He]; [reflexivity|]. eapply Hplaced; eauto. }
    assert (Habsent : Forall (fun e => cmpfn m k (key e) <> 0%Z) (entries m)).
    { apply Forall_forall. intros e He Hk. apply list_elem_of_In in He.
      unfold entries in He. apply in_concat in He. destruct He as (chain & Hchain & He).
      apply list_elem_of_In, list_elem_of_lookup in Hchain. destruct Hchain as [i Hi].
      pose proof (Hplaced i chain e Hi He) as Hidx.
      rewrite <- (Hhash k (key e) Hk) in Hidx. fold bucket_i in Hidx. subst i.
      assert (chain = head) by congruence. subst chain.
      rewrite Forall_forall in Hrep. apply (Hrep e); [apply list_elem_of_In; exact He|exact Hk]. }
    assert (Hnone : forall m', map_wf m' -> cmpfn m' = cmpfn m -> hashfn m' = hashfn m ->
              length m' = length m + 1 ->
              Permutation (entries m') (mk_entry k v :: entries m) ->
              exists r m'',
                Ok (@None (entry_t K V), m') = Ok (r, m'') /\ map_wf m'' /\
                cmpfn m'' = cmpfn m /\ hashfn m'' = hashfn m /\
                match r with
                | None =>
                    Forall (fun e => cmpfn m k (key e) <> 0%Z) (entries m) /\
                    length m'' = length m + 1 /\
                    Permutation (entries m'') (mk_entry k v :: entries m)
                | Some old =>
                    cmpfn m k (key old) = 0%Z /\ length m'' = length m /\
                    exists l1 l2, entries m = l1 ++ old :: l2 /\
                                  entries m'' = l1 ++ mk_entry k v :: l2
                end).
    { intros m' H1 H2 H3 H4 H5. exists None, m'. auto 10. }
    destruct head as [|e0 overflow].
    + apply Hnone; auto.
    + destruct (rehash_threshold m1 <=? length m1)%nat.
      * destruct (map_resize_spec m1 (capacity m1 * 2)) as
          (m2 & Hrun & Hwf2 & Hcmp2 & Hhash2 & Hlen2 & Hperm2).
        -- simpl. lia.
        -- apply Hwf1.
        -- apply Hwf1.
        -- rewrite Hrun. cbn [result_bind].
           apply Hnone; auto. rewrite Hperm2. exact Hperm1.
      * apply Hnone; auto.
Qed.

(** [k] compares equal to the key of some entry of [m]. *)
Definition map_mem m (k : K) : Prop :=
  exists e, In e (entries m) /\ cmpfn m k (key e) = 0%Z.

Lemma map_create_wf (cmp : cmp_fn K) (hash : K -> Z) m :
  map_create true true cmp hash = Some m -> map_wf m.
Proof.
  unfold map_create. cbn [andb]. intros Hm. injection Hm as Hm. subst m.
  split; [unfold N_BUCKETS_INITIAL; simpl; lia|].
  split; [reflexivity|]. split; [reflexivity|].
  intros i chain e Hi He. cbn [buckets] in Hi.
  apply list_elem_of_lookup_2, list_elem_of_In in Hi.
  assert (Hnil : chain = []).
  { simpl in Hi. repeat (destruct Hi as [<-|Hi]; [reflexivity|]). destruct Hi. }
  subst chain. destruct He.
Qed.

End Spec.

(** ** Lookup, removal and iteration *)

Section More.
Context {K V : Type}.
Implicit Types (m : map_t K V) (e entry : entry_t K V) (chain : list (entry_t K V))
  (bs : list (list (entry_t K V))).

(** The search loop of [map_remove] along a chain: the entry of the
    first node whose key compares equal to [k], and the chain without
    that node. *)
Fixpoint chain_remove (cmp : cmp_fn K) (k : K) chain
  : option (entry_t K V * list (entry_t K V)) :=
  match chain with
  | [] => None
  | e :: overflow =>
      if (cmp (key e) k =? 0)%Z then Some (e, overflow)
      else match chain_remove cmp k overflow with
           | Some (found, overflow') => Some (found, e :: overflow')
           | None => None
           end
  end.

(** [map_remove]. A node is only found where [length] counts it, so the
    decrement does not pass zero. *)
Definition map_remove m (k : K) : result (option (entry_t K V) * map_t K V) :=
  if (capacity m =? 0)%nat then Abort SIGFPE
  else
    let bucket_i := bucket_index (hashfn m k) (capacity m) in
    match buckets m !! bucket_i with
    | None => Abort SEGFAULT
    | Some chain =>
        match chain_remove (cmpfn m) k chain with
        | None => Ok (None, m)
        | Some (entry, chain') =>
            Ok (Some entry,
                {| cmpfn := cmpfn m; hashfn := hashfn m;
                   buckets := <[bucket_i := chain']> (buckets m);
                   capacity := capacity m; length := length m - 1;
                   rehash_threshold := rehash_threshold m |})
        end
    end.

(** [struct map_iter]. [it_next] is the chain that starts at [next]. *)
Record map_iter_t : Type := mk_map_iter {
  it_buckets : list (list (entry_t K V));
  it_next : list (entry_t K V);
  i_curr_bucket : nat;
  n_remaining : nat
}.

(** [map_createiter]: NULL when [malloc] fails; reads [buckets[0]]. *)
Definition map_createiter (malloc_ok : bool) m : result (option map_iter_t) :=
  if malloc_ok then
    match buckets m !! 0 with
    | Some chain =>
        Ok (Some {| it_buckets := buckets m; it_next := chain;
                    i_curr_bucket := 0; n_remaining := length m |})
    | None => Abort SEGFAULT
    end
  else Ok None.

(** The conversion [(int) n] of a [size_t]: the low 32 bits, signed. *)
Definition int_of_size (n : nat) : Z :=
  ((Z.of_nat n + 2 ^ 31) mod 2 ^ 32 - 2 ^ 31)%Z.

(** [map_hasnext]: [(int) iter->n_remaining]. *)
Definition map_hasnext (it : map_iter_t) : Z := int_of_size (n_remaining it).

(** [while (curr == NULL) { i_curr_bucket += 1; curr = buckets[i_curr_bucket]; }]
    where [rest] holds the buckets behind index [i]. Past the last bucket
    the read leaves the array. *)
Fixpoint next_chain (rest : list (list (entry_t K V))) (i : nat)
  : result (nat * list (entry_t K V)) :=
  match rest with
  | [] => Abort SEGFAULT
  | chain :: rest' =>
      match chain with
      | [] => next_chain rest' (S i)
      | _ :: _ => Ok (S i, chain)
      end
  end.

(** [map_next]. *)
Definition map_next (it : map_iter_t) : result (option (entry_t K V) * map_iter_t) :=
  if (n_remaining it =? 0)%nat then Ok (None, it)
  else
    do '(i, curr) <-
      match it_next it with
      | [] => next_chain (drop (S (i_curr_bucket it)) (it_buckets it)) (i_curr_bucket it)
      | _ :: _ => Ok (i_curr_bucket it, it_next it)
      end;
    match curr with
    | [] => Abort SEGFAULT
    | e :: overflow =>
        Ok (Some e, {| it_buckets := it_buckets it; it_next := overflow;
                       i_curr_bucket := i; n_remaining := n_remaining it - 1 |})
    end.

(** The loop [while (map_hasnext(iter)) { entry = map_next(iter); ... }]:
    the pointers returned and the iterator left. *)
Fixpoint map_iterate (rounds : nat) (it : map_iter_t)
  : result (list (option (entry_t K V)) * map_iter_t) :=
  match rounds with
  | 0 => Abort TIMEOUT
  | S rounds' =>
      if (map_hasnext it =? 0)%Z then Ok ([], it)
      else
        do '(entry, it1) <- map_next it;
        do '(rest, it2) <- map_iterate rounds' it1;
        Ok (entry :: rest, it2)
  end.

(** No two entries of the map have keys that compare equal. *)
Definition map_keys_distinct m : Prop :=
  cmp_distinct (cmpfn m) (map key (entries m)).

End More.
Arguments map_iter_t : clear implicits.

Section MoreSpec.
Context {K V : Type}.
Implicit Types (m : map_t K V) (e entry : entry_t K V) (chain : list (entry_t K V))
  (bs : list (list (entry_t K V))).

Lemma in_entries m e :
  In e (entries m) <-> exists i chain, buckets m !! i = Some chain /\ In e chain.
Proof.
  unfold entries. rewrite in_concat. split.
  - intros (chain & Hc & He). apply list_elem_of_In, list_elem_of_lookup in Hc.
    destruct Hc as (i & Hi). eauto.
  - intros (i & chain & Hi & He). exists chain. split; [|exact He].
    apply list_elem_of_In. eapply list_elem_of_lookup_2. exact Hi.
Qed.

(** The bucket of a key exists in a well-formed map. *)
Lemma bucket_exists m (k : K) :
  map_wf m ->
  (capacity m =? 0)%nat = false /\
  exists chain, buckets m !! bucket_index (hashfn m k) (capacity m) = Some chain.
Proof.
  intros (Hcap & Hlen & _). split; [apply Nat.eqb_neq; lia|].
  apply lookup_lt_is_Some. rewrite Hlen. apply bucket_index_lt. exact Hcap.
Qed.

(** Entries whose key compares equal to [k] hang in the bucket of [k]. *)
Lemma equal_key_same_bucket m (k : K) e chain :
  map_wf m -> hash_respects_cmp (cmpfn m) (hashfn m) ->
  buckets m !! bucket_index (hashfn m k) (capacity m) = Some chain ->
  In e (entries m) -> cmpfn m (key e) k = 0%Z -> In e chain.
Proof.
  intros (_ & _ & _ & Hplaced) Hhash Hchain He Hek.
  apply in_entries in He. destruct He as (j & chain_j & Hj & He).
  pose proof (Hplaced j chain_j e Hj He) as Hidx.
  rewrite (Hhash _ _ Hek) in Hidx. rewrite Hidx in Hchain. congruence.
Qed.

Lemma map_get_spec m (k : K) :
  map_wf m -> hash_respects_cmp (cmpfn m) (hashfn m) ->
  exists r, map_get m k = Ok r /\
    match r with
    | Some e => In e (entries m) /\ cmpfn m (key e) k = 0%Z
    | None => Forall (fun e => cmpfn m (key e) k <> 0%Z) (entries m)
    end.
Proof.
  intros Hwf Hhash. unfold map_get.
  destruct (bucket_exists m k Hwf) as (-> & chain & Hchain). rewrite Hchain.
  eexists. split; [reflexivity|].
  destruct (find _ chain) as [e|] eqn:Hfind.
  - apply find_some in Hfind. destruct Hfind as [He Hek]. split.
    + apply in_entries. eauto.
    + apply Z.eqb_eq. exact Hek.
  - apply Forall_forall. intros e He Hek. apply list_elem_of_In in He.
    pose proof (equal_key_same_bucket m k e chain Hwf Hhash Hchain He Hek) as Hin.
    pose proof (find_none _ _ Hfind e Hin) as Hf. simpl in Hf.
    apply Z.eqb_neq in Hf. contradiction.
Qed.

Lemma chain_remove_spec (cmp : cmp_fn K) (k : K) chain :
  match chain_remove cmp k chain with
  | Some (found, chain') =>
      exists l1 l2, chain = l1 ++ found :: l2 /\ chain' = l1 ++ l2 /\
                    cmp (key found) k = 0%Z
  | None => Forall (fun e => cmp (key e) k <> 0%Z) chain
  end.
Proof.
  induction chain as [|e chain IH]; simpl; [constructor|].
  destruct (Z.eqb_spec (cmp (key e) k) 0) as [Heq|Hne].
  - exists [], chain. auto.
  - destruct (chain_remove cmp k chain) as [[found chain']|].
    + destruct IH as (l1 & l2 & -> & -> & Hf). exists (e :: l1), l2. auto.
    + constructor; assumption.
Qed.

Section Invariants.
Context (m : map_t K V).
Hypothesis Hwf : map_wf m.
Hypothesis Hhash : hash_respects_cmp (cmpfn m) (hashfn m).
Hypothesis Hord : TotalOrderCmp (cmpfn m).
Hypothesis Hdistinct : map_keys_distinct m.

Lemma map_insert_distinct (k : K) (v : V) r m' :
  map_insert m k v = Ok (r, m') -> map_keys_distinct m'.
Proof.
  intros Hrun.
  destruct (map_insert_spec m k v Hwf Hhash) as (r0 & m0 & Hrun0 & _ & Hc & _ & Hcase).
  rewrite Hrun in Hrun0. injection Hrun0 as <- <-.
  unfold map_keys_distinct in *. rewrite Hc. destruct r as [old|].
  - destruct Hcase as (Hk & _ & l1 & l2 & Hm & ->).
    rewrite Hm in Hdistinct. rewrite map_app in *. simpl in *.
    exact (cmp_distinct_replace (cmpfn m) _ _ k (key old) Hk Hdistinct).
  - destruct Hcase as (Hnone & _ & Hperm).
    apply (cmp_distinct_perm (cmpfn m) (map key (mk_entry k v :: entries m))).
    + apply Permutation_map, Permutation_sym. exact Hperm.
    + simpl. constructor; [exact Hdistinct|].
      apply Forall_map. eapply Forall_impl; [exact Hnone|]. intros e He. exact He.
Qed.

Lemma map_insert_get_same (k : K) (v : V) r m' :
  map_insert m k v = Ok (r, m') -> map_get m' k = Ok (Some (mk_entry k v)).
Proof.
  intros Hrun.
  pose proof (map_insert_distinct k v r m' Hrun) as Hd'.
  destruct (map_insert_spec m k v Hwf Hhash) as (r0 & m0 & Hrun0 & Hwf' & Hc & Hh & Hcase).
  rewrite Hrun in Hrun0. injection Hrun0 as <- <-.
  assert (Hhash' : hash_respects_cmp (cmpfn m') (hashfn m')) by (rewrite Hc, Hh; exact Hhash).
  assert (Hnew : In (mk_entry k v) (entries m')).
  { destruct r as [old|].
    - destruct Hcase as (_ & _ & l1 & l2 & _ & ->). apply in_elt.
    - destruct Hcase as (_ & _ & Hperm).
      eapply Permutation_in; [apply Permutation_sym; exact Hperm|left; reflexivity]. }
  destruct (map_get_spec m' k Hwf' Hhash') as (g & -> & Hg). f_equal.
  destruct g as [e|].
  - destruct Hg as [He Hek]. f_equal.
    apply (cmp_distinct_unique (cmpfn m) key (entries m')); auto.
    + rewrite <- Hc. exact Hd'.
    + rewrite <- Hc. exact Hek.
  - exfalso. rewrite Forall_forall in Hg.
    apply (Hg (mk_entry k v)); [apply list_elem_of_In; exact Hnew|].
    simpl. rewrite Hc. apply (cmp_eqv_refl (cmpfn m)).
Qed.

(** An entry of the map before the insertion that is not the one
    swapped out is an entry afterwards, and an entry afterwards is the
    new one or an old one. *)
Lemma map_insert_entries (k : K) (v : V) r m' :
  map_insert m k v = Ok (r, m') ->
  (forall e, In e (entries m') -> e = mk_entry k v \/ In e (entries m)) /\
  (forall e, In e (entries m) -> cmpfn m k (key e) <> 0%Z -> In e (entries m')).
Proof.
  intros Hrun.
  destruct (map_insert_spec m k v Hwf Hhash) as (r0 & m0 & Hrun0 & _ & _ & _ & Hcase).
  rewrite Hrun in Hrun0. injection Hrun0 as <- <-.
  destruct r as [old|].
  - destruct Hcase as (Hk & _ & l1 & l2 & -> & ->). split.
    + intros e He. apply in_app_or in He. destruct He as [He|[<-|He]]; auto.
      * right. apply in_or_app. auto.
      * right. apply in_or_app. right. right. exact He.
    + intros e He Hne. apply in_app_or in He. apply in_or_app.
      destruct He as [He|[<-|He]]; [auto|contradiction|right; right; exact He].
  - destruct Hcase as (_ & _ & Hperm). split.
    + intros e He. apply (Permutation_in _ Hperm) in He. destruct He; auto.
    + intros e He _. apply (Permutation_in _ (Permutation_sym Hperm)). right. exact He.
Qed.

Lemma map_insert_get_other (k k' : K) (v : V) r m' :
  map_insert m k v = Ok (r, m') -> cmpfn m k' k <> 0%Z ->
  map_get m' k' = map_get m k'.
Proof.
  intros Hrun Hne.
  pose proof (map_insert_distinct k v r m' Hrun) as Hd'.
  destruct (map_insert_entries k v r m' Hrun) as [Hback Hfwd].
  destruct (map_insert_spec m k v Hwf Hhash) as (r0 & m0 & Hrun0 & Hwf' & Hc & Hh & _).
  rewrite Hrun in Hrun0. injection Hrun0 as <- <-.
  assert (Hhash' : hash_respects_cmp (cmpfn m') (hashfn m')) by (rewrite Hc, Hh; exact Hhash).
  destruct (map_get_spec m' k' Hwf' Hhash') as (g' & -> & Hg').
  destruct (map_get_spec m k' Hwf Hhash) as (g & -> & Hg). f_equal.
  rewrite Hc in Hg'.
  assert (Hold : forall e, In e (entries m') -> cmpfn m (key e) k' = 0%Z -> In e (entries m)).
  { intros e He Hek. destruct (Hback e He) as [->|Hin]; [|exact Hin].
    exfalso. apply Hne. apply (cmp_eqv_sym (cmpfn m)). exact Hek. }
  assert (Hkeep : forall e, In e (entries m) -> cmpfn m (key e) k' = 0%Z -> In e (entries m')).
  { intros e He Hek. apply Hfwd; [exact He|]. intros Hke. apply Hne.
    apply (cmp_eqv_sym (cmpfn m)). apply (cmp_eqv_trans (cmpfn m) k (key e) k'); assumption. }
  destruct g' as [e'|], g as [e|].
  - destruct Hg' as [He' Hek'], Hg as [He Hek]. f_equal.
    apply (cmp_distinct_unique (cmpfn m) key (entries m)); auto.
    apply (cmp_eqv_trans (cmpfn m) _ k'); [exact Hek'|].
    apply (cmp_eqv_sym (cmpfn m)). exact Hek.
  - exfalso. destruct Hg' as [He' Hek']. rewrite Forall_forall in Hg.
    apply (Hg e'); [apply list_elem_of_In; auto|exact Hek'].
  - exfalso. destruct Hg as [He Hek]. rewrite Forall_forall in Hg'.
    apply (Hg' e); [apply list_elem_of_In; auto|exact Hek].
  - reflexivity.
Qed.

Lemma map_remove_spec (k : K) :
  exists r m',
    map_remove m k = Ok (r, m') /\ map_wf m' /\ map_keys_distinct m' /\
    cmpfn m' = cmpfn m /\ hashfn m' = hashfn m /\
    Forall (fun e => cmpfn m (key e) k <> 0%Z) (entries m') /\
    match r with
    | None => m' = m
    | Some e =>
        cmpfn m (key e) k = 0%Z /\ length m' + 1 = length m /\
        exists l1 l2, entries m = l1 ++ e :: l2 /\ entries m' = l1 ++ l2
    end.
Proof.
  unfold map_remove.
  destruct (bucket_exists m k Hwf) as (-> & chain & Hchain). rewrite Hchain.
  pose proof (chain_remove_spec (cmpfn m) k chain) as Hspec.
  destruct (chain_remove (cmpfn m) k chain) as [[found chain']|].
  - destruct Hspec as (c1 & c2 & -> & -> & Hf).
    destruct (concat_insert (buckets m) _ _ (c1 ++ c2) Hchain) as [Hold Hnew].
    set (i := bucket_index (hashfn m k) (capacity m)) in *.
    set (L1 := concat (take i (buckets m)) ++ c1).
    set (L2 := c2 ++ concat (drop (S i) (buckets m))).
    assert (Hm : entries m = L1 ++ found :: L2).
    { unfold entries, L1, L2. rewrite Hold, <- !app_assoc. reflexivity. }
    assert (Hm' : concat (<[i := c1 ++ c2]> (buckets m)) = L1 ++ L2).
    { unfold L1, L2. rewrite Hnew, <- !app_assoc. reflexivity. }
    destruct Hwf as (Hcap & Hlen & Hn & Hplaced).
    unfold map_keys_distinct in Hdistinct. rewrite Hm, map_app in Hdistinct.
    simpl in Hdistinct.
    destruct (cmp_distinct_remove (cmpfn m) _ _ _ Hdistinct) as [Hd' Hothers].
    rewrite <- map_app in Hd', Hothers.
    eexists _, _. split; [reflexivity|]. split; [|split; [|split; [|split; [|split]]]].
    + split; [exact Hcap|]. cbn [capacity buckets length hashfn entries].
      split; [rewrite length_insert; exact Hlen|]. split.
      * unfold entries. cbn [buckets]. rewrite Hm'.
        rewrite Hn, Hm, !length_app. simpl. lia.
      * apply buckets_placed_insert; [exact Hplaced|].
        intros e He. apply (Hplaced i (c1 ++ found :: c2) e Hchain).
        apply in_app_or in He. apply in_or_app. simpl. tauto.
    + unfold map_keys_distinct, entries. cbn [buckets cmpfn]. rewrite Hm'. exact Hd'.
    + reflexivity.
    + reflexivity.
    + unfold entries. cbn [buckets]. rewrite Hm'.
      rewrite Forall_map in Hothers. eapply Forall_impl; [exact Hothers|].
      intros e He Hek. apply He. simpl.
      apply (cmp_eqv_trans (cmpfn m) _ k); [exact Hf|].
      apply (cmp_eqv_sym (cmpfn m)). exact Hek.
    + split; [exact Hf|]. cbn [length]. split.
      * rewrite Hn, Hm, length_app. simpl. lia.
      * exists L1, L2. split; [exact Hm|]. unfold entries. cbn [buckets]. exact Hm'.
  - eexists _, _. split; [reflexivity|].
    split; [exact Hwf|]. split; [exact Hdistinct|].
    split; [reflexivity|]. split; [reflexivity|]. split; [|reflexivity].
    apply Forall_forall. intros e He Hek. apply list_elem_of_In in He.
    pose proof (equal_key_same_bucket m k e chain Hwf Hhash Hchain He Hek) as Hin.
    rewrite Forall_forall in Hspec. apply (Hspec e); [apply list_elem_of_In; exact Hin|].
    exact Hek.
Qed.

End Invariants.

(** ** The iterator *)

Lemma int_of_size_zero (n : nat) :
  (Z.of_nat n < 2 ^ 32)%Z -> int_of_size n = 0%Z <-> n = 0.
Proof.
  intros Hn. unfold int_of_size. split; [|intros ->; reflexivity].
  intros H0.
  assert (Hmod : ((Z.of_nat n + 2 ^ 31) mod 2 ^ 32 = 2 ^ 31)%Z) by lia.
  destruct (Z_lt_ge_dec (Z.of_nat n) (2 ^ 31)) as [Hlo|Hhi].
  - rewrite Z.mod_small in Hmod by lia. lia.
  - replace (Z.of_nat n + 2 ^ 31)%Z with (Z.of_nat n - 2 ^ 31 + 1 * 2 ^ 32)%Z in Hmod by lia.
    rewrite Z.mod_add in Hmod by lia. rewrite Z.mod_small in Hmod by lia. lia.
Qed.

Lemma drop_cons_tail {B : Type} (l : list B) (n : nat) (x : B) (r : list B) :
  drop n l = x :: r -> drop (S n) l = r.
Proof.
  intros H. replace (S n) with (n + 1) by lia.
  rewrite <- drop_drop, H. reflexivity.
Qed.

(** The search for the next chain finds the first entry that is left. *)
Lemma next_chain_spec rest : forall bs i,
  drop (S i) bs = rest -> concat rest <> [] ->
  exists i' e overflow,
    next_chain rest i = Ok (i', e :: overflow) /\
    concat rest = e :: overflow ++ concat (drop (S i') bs).
Proof.
  induction rest as [|chain rest IH]; intros bs i Hdrop Hne; [simpl in Hne; congruence|].
  pose proof (drop_cons_tail _ _ _ _ Hdrop) as Htail.
  destruct chain as [|e overflow]; cbn [next_chain].
  - apply (IH bs (S i) Htail). exact Hne.
  - exists (S i), e, overflow. split; [reflexivity|].
    simpl. rewrite Htail. reflexivity.
Qed.

Lemma map_iterate_rest (rem : list (entry_t K V)) : forall (it : map_iter_t K V) rounds,
  it_next it ++ concat (drop (S (i_curr_bucket it)) (it_buckets it)) = rem ->
  n_remaining it = List.length rem ->
  (Z.of_nat (List.length rem) < 2 ^ 32)%Z -> List.length rem < rounds ->
  exists it_end,
    map_iterate rounds it = Ok (map Some rem, it_end) /\ n_remaining it_end = 0.
Proof.
  induction rem as [|e rem IH]; intros [bs next i n] rounds Hrem Hn Hbound Hr;
    cbn [it_next it_buckets i_curr_bucket n_remaining] in Hrem, Hn; subst n;
    (destruct rounds as [|rounds]; [simpl in Hr; lia|]);
    cbn [map_iterate]; unfold map_hasnext; cbn [n_remaining].
  - eexists. split; reflexivity.
  - destruct (Z.eqb_spec (int_of_size (List.length (e :: rem))) 0) as [H0|_].
    { apply int_of_size_zero in H0; [discriminate|exact Hbound]. }
    unfold map_next. cbn [n_remaining List.length Nat.eqb it_next i_curr_bucket it_buckets].
    assert (Hstep : exists i' overflow,
               match next with
               | [] => next_chain (drop (S i) bs) i
               | _ :: _ => Ok (i, next)
               end = Ok (i', e :: overflow) /\
               overflow ++ concat (drop (S i') bs) = rem).
    { destruct next as [|e0 overflow].
      - simpl in Hrem.
        destruct (next_chain_spec (drop (S i) bs) bs i eq_refl) as (i' & e' & ov & Hrun & Hcat).
        { rewrite Hrem. discriminate. }
        rewrite Hrem in Hcat. injection Hcat as He Htl. subst e'.
        exists i', ov. split; [exact Hrun|symmetry; exact Htl].
      - simpl in Hrem. injection Hrem as He Htl. subst e0.
        exists i, overflow. split; [reflexivity|exact Htl]. }
    destruct Hstep as (i' & overflow & -> & Htail). cbn [result_bind].
    destruct (IH {| it_buckets := bs; it_next := overflow; i_curr_bucket := i';
                    n_remaining := S (List.length rem) - 1 |} rounds)
      as (it_end & Hrun & Hend).
    + exact Htail.
    + simpl. lia.
    + simpl in Hbound. lia.
    + simpl in Hr. lia.
    + rewrite Hrun. cbn [result_bind]. eexists. split; [reflexivity|exact Hend].
Qed.

End MoreSpec.

(** [X5] In a well-formed map without equal keys, whose hash function
    gives equal keys the same hash, [map_get] of a key returns the one
    entry whose key compares equal to it, and NULL when no entry has such
    a key. It searches one bucket only and never fails. *)
Theorem map_get_finds_the_entry {K V : Type} (m : map_t K V) (k : K) :
  map_wf m -> hash_respects_cmp (cmpfn m) (hashfn m) ->
  TotalOrderCmp (cmpfn m) -> map_keys_distinct m ->
  (forall e, In e (entries m) -> cmpfn m (key e) k = 0%Z -> map_get m k = Ok (Some e)) /\
  (Forall (fun e => cmpfn m (key e) k <> 0%Z) (entries m) -> map_get m k = Ok None) /\
  exists r, map_get m k = Ok r.
Proof.
  intros Hwf Hhash Hord Hd.
  destruct (map_get_spec m k Hwf Hhash) as (r & Hrun & Hr).
  rewrite Hrun. split; [|split; [|eauto]].
  - intros e He Hek. do 2 f_equal. destruct r as [e0|].
    + destruct Hr as [He0 He0k]. f_equal.
      apply (cmp_distinct_unique (cmpfn m) key (entries m)); auto.
      apply (cmp_eqv_trans (cmpfn m) _ k); [exact He0k|].
      apply (cmp_eqv_sym (cmpfn m)). exact Hek.
    + exfalso. rewrite Forall_forall in Hr.
      apply (Hr e); [apply list_elem_of_In; exact He|exact Hek].
  - intros Hnone. destruct r as [e0|]; [|reflexivity].
    exfalso. destruct Hr as [He0 He0k]. rewrite Forall_forall in Hnone.
    apply (Hnone e0); [apply list_elem_of_In; exact He0|exact He0k].
Qed.

(** A map of integers with the keys 7 and 23 in one bucket. *)
Definition colliding_map : map_t Z Z :=
  {| cmpfn := Z.sub; hashfn := fun k => k;
     buckets := <[7 := [mk_entry 23%Z 2%Z; mk_entry 7%Z 1%Z]]> (replicate 16 []);
     capacity := 16; length := 2; rehash_threshold := 12 |}.

Lemma colliding_map_wf : map_wf colliding_map.
Proof.
  split; [simpl; lia|]. split; [reflexivity|]. split; [reflexivity|].
  intros i chain e Hi He. cbn [colliding_map buckets hashfn capacity] in *.
  do 16 (destruct i as [|i];
         [injection Hi as <-; simpl in He; intuition (subst; reflexivity)|]).
  discriminate.
Qed.

Lemma colliding_map_hash : hash_respects_cmp (cmpfn colliding_map) (hashfn colliding_map).
Proof. intros k1 k2. simpl. lia. Qed.

Lemma colliding_map_distinct : map_keys_distinct colliding_map.
Proof. repeat constructor; unfold cmp_eqv; simpl; lia. Qed.

(** The premises hold for the example: the key 7 is found behind the
    key 23 in its bucket, and the key 39 of the same bucket is missing. *)
Lemma map_get_finds_the_entry_witness :
  map_get colliding_map 7%Z = Ok (Some (mk_entry 7%Z 1%Z)) /\
  map_get colliding_map 39%Z = Ok None.
Proof.
  split.
  - apply (map_get_finds_the_entry colliding_map 7%Z colliding_map_wf colliding_map_hash
             Z_sub_total_order colliding_map_distinct).
    + simpl. auto.
    + reflexivity.
  - apply (map_get_finds_the_entry colliding_map 39%Z colliding_map_wf colliding_map_hash
             Z_sub_total_order colliding_map_distinct).
    repeat constructor; simpl; lia.
Defined.

(** [X6] After [map_insert] of a key and a value, [map_get] of that key
    returns the entry with exactly that key and value, also when the
    insertion replaced an entry or rehashed the map; [map_get] of every
    key that does not compare equal returns what it returned before; and
    the map is still well-formed without equal keys. *)
Theorem map_insert_then_get {K V : Type} (m : map_t K V) (k : K) (v : V) :
  map_wf m -> hash_respects_cmp (cmpfn m) (hashfn m) ->
  TotalOrderCmp (cmpfn m) -> map_keys_distinct m ->
  exists r m',
    map_insert m k v = Ok (r, m') /\
    map_wf m' /\ map_keys_distinct m' /\
    map_get m' k = Ok (Some (mk_entry k v)) /\
    forall k', cmpfn m k' k <> 0%Z -> map_get m' k' = map_get m k'.
Proof.
  intros Hwf Hhash Hord Hd.
  destruct (map_insert_spec m k v Hwf Hhash) as (r & m' & Hrun & Hwf' & _).
  exists r, m'. split; [exact Hrun|]. split; [exact Hwf'|].
  split; [exact (map_insert_distinct m Hwf Hhash Hord Hd k v r m' Hrun)|].
  split; [exact (map_insert_get_same m Hwf Hhash Hord Hd k v r m' Hrun)|].
  intros k' Hne. exact (map_insert_get_other m Hwf Hhash Hord Hd k k' v r m' Hrun Hne).
Qed.

(** The premises hold for the example: a third key in the crowded bucket
    is found after its insertion, and the key 23 is found as before. *)
Lemma map_insert_then_get_witness :
  exists r m',
    map_insert colliding_map 39%Z 3%Z = Ok (r, m') /\
    map_get m' 39%Z = Ok (Some (mk_entry 39%Z 3%Z)) /\
    map_get m' 23%Z = Ok (Some (mk_entry 23%Z 2%Z)).
Proof.
  destruct (map_insert_then_get colliding_map 39%Z 3%Z colliding_map_wf colliding_map_hash
              Z_sub_total_order colliding_map_distinct)
    as (r & m' & Hrun & _ & _ & Hsame & Hother).
  exists r, m'. split; [exact Hrun|]. split; [exact Hsame|].
  rewrite (Hother 23%Z); [reflexivity|simpl; lia].
Defined.

(** [X7] [map_remove] of a key unlinks the one entry whose key compares
    equal and returns it, lowering [map_length] by one and keeping every
    other entry in place; for a key that is not in the map it returns
    NULL and changes nothing. Either way [map_get] of that key returns
    NULL afterwards and the map stays well-formed. *)
Theorem map_remove_then_get {K V : Type} (m : map_t K V) (k : K) :
  map_wf m -> hash_respects_cmp (cmpfn m) (hashfn m) ->
  TotalOrderCmp (cmpfn m) -> map_keys_distinct m ->
  exists r m',
    map_remove m k = Ok (r, m') /\
    map_wf m' /\ map_keys_distinct m' /\
    map_get m' k = Ok None /\
    match r with
    | None => m' = m
    | Some e =>
        map_get m k = Ok (Some e) /\ cmpfn m (key e) k = 0%Z /\
        map_length m' + 1 = map_length m /\
        exists l1 l2, entries m = l1 ++ e :: l2 /\ entries m' = l1 ++ l2
    end.
Proof.
  intros Hwf Hhash Hord Hd.
  destruct (map_remove_spec m Hwf Hhash Hord Hd k)
    as (r & m' & Hrun & Hwf' & Hd' & Hc & Hh & Hgone & Hcase).
  exists r, m'. split; [exact Hrun|]. split; [exact Hwf'|]. split; [exact Hd'|].
  assert (Hhash' : hash_respects_cmp (cmpfn m') (hashfn m')) by (rewrite Hc, Hh; exact Hhash).
  split.
  - destruct (map_get_spec m' k Hwf' Hhash') as (g & -> & Hg).
    destruct g as [e0|]; [|reflexivity].
    exfalso. destruct Hg as [He0 He0k]. rewrite Forall_forall in Hgone.
    apply (Hgone e0); [apply list_elem_of_In; exact He0|]. rewrite <- Hc. exact He0k.
  - destruct r as [e|]; [|exact Hcase].
    destruct Hcase as (Hek & Hlen & l1 & l2 & Hm & Hm').
    split; [|split; [exact Hek|split; [exact Hlen|eauto]]].
    destruct (map_get_spec m k Hwf Hhash) as (g & -> & Hg).
    assert (He : In e (entries m)) by (rewrite Hm; apply in_elt).
    destruct g as [e0|].
    + destruct Hg as [He0 He0k]. do 2 f_equal.
      apply (cmp_distinct_unique (cmpfn m) key (entries m)); auto.
      apply (cmp_eqv_trans (cmpfn m) _ k); [exact He0k|].
      apply (cmp_eqv_sym (cmpfn m)). exact Hek.
    + exfalso. rewrite Forall_forall in Hg.
      apply (Hg e); [apply list_elem_of_In; exact He|exact Hek].
Qed.

(** The premises hold for the example: removing the key 7 from behind
    the key 23 leaves one entry. *)
Lemma map_remove_then_get_witness :
  exists m',
    map_remove colliding_map 7%Z = Ok (Some (mk_entry 7%Z 1%Z), m') /\
    map_length m' = 1 /\ entries m' = [mk_entry 23%Z 2%Z] /\
    map_get m' 7%Z = Ok None.
Proof.
  destruct (map_remove_then_get colliding_map 7%Z colliding_map_wf colliding_map_hash
              Z_sub_total_order colliding_map_distinct)
    as (r & m' & Hrun & _ & _ & Hget & _).
  vm_compute in Hrun. injection Hrun as <- <-.
  eexists. split; [reflexivity|]. split; [reflexivity|]. split; [reflexivity|exact Hget].
Defined.

(** [X8] An iteration with [map_hasnext] and [map_next] from a new
    iterator over a well-formed map of fewer than [2^32] entries returns
    every entry exactly once, bucket after bucket, and ends with
    [map_hasnext] at 0 and [map_next] returning NULL. *)
Theorem map_iteration_visits_every_entry {K V : Type} (m : map_t K V) (rounds : nat) :
  map_wf m -> (Z.of_nat (map_length m) < 2 ^ 32)%Z -> map_length m < rounds ->
  exists it0 it_end : map_iter_t K V,
    map_createiter true m = Ok (Some it0) /\
    map_iterate rounds it0 = Ok (map Some (entries m), it_end) /\
    map_hasnext it_end = 0%Z /\
    map_next it_end = Ok (None, it_end).
Proof.
  intros (Hcap & Hlen & Hn & _) Hbound Hr. unfold map_length in *.
  unfold map_createiter.
  destruct (buckets m) as [|chain bs] eqn:Hbs; [simpl in Hlen; lia|].
  cbn [lookup list_lookup].
  destruct (map_iterate_rest (entries m)
              {| it_buckets := chain :: bs; it_next := chain;
                 i_curr_bucket := 0; n_remaining := length m |} rounds)
    as (it_end & Hrun & Hend).
  - unfold entries. rewrite Hbs. reflexivity.
  - exact Hn.
  - rewrite <- Hn. exact Hbound.
  - rewrite <- Hn. exact Hr.
  - eexists _, it_end. split; [reflexivity|]. split; [exact Hrun|].
    unfold map_hasnext, map_next. rewrite Hend. split; reflexivity.
Qed.

(** The premises hold for the example: both entries of the crowded
    bucket come out, the head of the chain first. *)
Lemma map_iteration_visits_every_entry_witness :
  exists it0 it_end : map_iter_t Z Z,
    map_createiter true colliding_map = Ok (Some it0) /\
    map_iterate 3 it0
    = Ok ([Some (mk_entry 23%Z 2%Z); Some (mk_entry 7%Z 1%Z)], it_end).
Proof.
  destruct (map_iteration_visits_every_entry colliding_map 3 colliding_map_wf)
    as (it0 & it_end & Hcreate & Hrun & _).
  - simpl. lia.
  - simpl. lia.
  - exists it0, it_end. split; [exact Hcreate|exact Hrun].
Defined.

End HashMap.

(** * [rbtreeset.c] *)

Module RBSet.

Inductive tnode_color_t : Type := RED | BLACK.

Inductive side : Type := Left | Right.

Section Defs.
Context {A : Type}.

(** [struct tnode]. [NIL] is the sentinel, a black leaf. The [parent]
    pointer of a node is its position in the tree; while [set_insert]
    walks and rebalances, it is the [path] kept beside the node. *)
Inductive tnode : Type :=
| NIL
| Node (color : tnode_color_t) (left : tnode) (elem : A) (right : tnode).

Definition color_of (n : tnode) : tnode_color_t :=
  match n with
  | NIL => BLACK
  | Node c _ _ _ => c
  end.

Definition is_red (n : tnode) : bool :=
  match color_of n with RED => true | BLACK => false end.

(** Writing the [color] field of a node ([NIL] is already black, and is
    only ever written with black). *)
Definition set_color (c : tnode_color_t) (n : tnode) : tnode :=
  match n with
  | NIL => NIL
  | Node _ l e r => Node c l e r
  end.

(** The address of a comparison function, and the function found there. *)
Definition fn_ptr : Type := nat.
Variable code : fn_ptr -> cmp_fn A.

(** [struct set]. *)
Record set_t : Type := mk_set {
  root : tnode;
  cmpfn : fn_ptr;
  length : nat
}.

Definition set_length (s : set_t) : nat := length s.

(** The elements in left-to-right order. *)
Fixpoint inorder (t : tnode) : list A :=
  match t with
  | NIL => []
  | Node _ l e r => inorder l ++ e :: inorder r
  end.

(** ** Ancestors of the current node

    An ancestor as seen from the child the walk came from: on which
    [side] of it that child hangs, its colour and element, and its other
    subtree. A [path] lists the ancestors from the parent up to the
    root. *)
Record frame : Type := mk_frame {
  f_side : side;
  f_color : tnode_color_t;
  f_elem : A;
  f_sibling : tnode
}.

Definition path : Type := list frame.

(** The ancestor [f] with [child] hung back in its place. *)
Definition plug1 (f : frame) (child : tnode) : tnode :=
  match f_side f with
  | Left => Node (f_color f) child (f_elem f) (f_sibling f)
  | Right => Node (f_color f) (f_sibling f) (f_elem f) child
  end.

(** The whole tree around [child]. *)
Fixpoint plug (child : tnode) (p : path) : tnode :=
  match p with
  | [] => child
  | f :: up => plug (plug1 f child) up
  end.

(** ** Rotations

    [rotate_left] and [rotate_right] on the subtree rooted at [u]; the
    re-linking of [u->parent] is the re-plugging of the result. A
    rotation whose pivot [v] is [NIL] would write through the sentinel's
    NULL links. *)
Definition rotate_left (u : tnode) : result tnode :=
  match u with
  | Node cu a x (Node cv b y c) => Ok (Node cv (Node cu a x b) y c)
  | _ => Abort SEGFAULT
  end.

Definition rotate_right (u : tnode) : result tnode :=
  match u with
  | Node cu (Node cv a x b) y c => Ok (Node cv a x (Node cu b y c))
  | _ => Abort SEGFAULT
  end.

(** ** Insertion *)

(** The [while] loop of [post_insert_balance] at [curr] below the
    ancestors [p]; the result is the whole tree. When the red parent is
    the root, the grandparent is the sentinel, whose [left] is NULL: the
    read of the uncle's colour faults. *)
Fixpoint balance_loop (curr : tnode) (p : path) : result tnode :=
  match p with
  | [] => Ok curr
  | par :: up =>
      match f_color par with
      | BLACK => Ok (plug curr p)
      | RED =>
          match up with
          | [] => Abort SEGFAULT
          | gp :: up' =>
              let unc := f_sibling gp in
              match color_of unc with
              | RED =>
                  (* case 1: red uncle - recolor and move up the tree *)
                  let par' := plug1 (mk_frame (f_side par) BLACK (f_elem par)
                                              (f_sibling par)) curr in
                  let gp' := plug1 (mk_frame (f_side gp) RED (f_elem gp)
                                             (set_color BLACK unc)) par' in
                  balance_loop gp' up'
              | BLACK =>
                  (* case 2 & 3: black uncle - rotation needed *)
                  do top <-
                    match f_side gp, f_side par with
                    | Left, Right =>
                        (* case 2a: Left-Right, then case 3a *)
                        do par1 <- rotate_left (plug1 par curr);
                        rotate_right (plug1 gp par1)
                    | Left, Left =>
                        (* case 3a: Left-Left *)
                        rotate_right (plug1 gp (plug1 par curr))
                    | Right, Left =>
                        (* case 2b: Right-Left, then case 3b *)
                        do par1 <- rotate_right (plug1 par curr);
                        rotate_left (plug1 gp par1)
                    | Right, Right =>
                        (* case 3b: Right-Right *)
                        rotate_left (plug1 gp (plug1 par curr))
                    end;
                  (* fix colors after rotation: [par] is on top, [gp] is
                     the child away from the side [par] was on *)
                  match top with
                  | Node _ l e r =>
                      let top' :=
                        match f_side gp with
                        | Left => Node BLACK l e (set_color RED r)
                        | Right => Node BLACK (set_color RED l) e r
                        end in
                      Ok (plug top' up')
                  | NIL => Abort SEGFAULT
                  end
              end
          end
      end
  end.

(** [post_insert_balance]: the loop, then the root is painted black. *)
Definition post_insert_balance (added_node : tnode) (p : path) : result tnode :=
  do t <- balance_loop added_node p;
  Ok (set_color BLACK t).

(** The outcome of the search loop of [set_insert]. *)
Inductive descent : Type :=
| Replaced (replaced : A) (t : tnode)   (* an equal element was swapped out *)
| Attach (p : path).                    (* the free place below the ancestors [p] *)

(** The [while (1)] loop of [set_insert]. The source stops at the node
    whose child on the side of [cmp] is [NIL]; that node is the head of
    the returned path, with the side recorded in its frame. *)
Fixpoint insert_descend (cmp : cmp_fn A) (elem : A) (curr : tnode) (p : path)
  : descent :=
  match curr with
  | NIL => Attach p
  | Node c l e r =>
      let d := cmp elem e in
      if (d >? 0)%Z then insert_descend cmp elem r (mk_frame Right c e l :: p)
      else if (d <? 0)%Z then insert_descend cmp elem l (mk_frame Left c e r :: p)
      else Replaced e (plug (Node c l elem r) p)
  end.

(** [rec_validate_rbtree]; the result is the value left in
    [*path_black_count]. *)
Fixpoint rec_validate_rbtree (node : tnode) (black_count path_black_count : Z)
  : result Z :=
  match node with
  | NIL =>
      let pbc := if (path_black_count =? -1)%Z then black_count
                 else path_black_count in
      if (black_count =? pbc)%Z then Ok pbc else Abort PANIC
  | Node c l _ r =>
      do black_count <-
        match c with
        | RED => if is_red l || is_red r then Abort PANIC else Ok black_count
        | BLACK => Ok (black_count + 1)%Z
        end;
      do pbc <- rec_validate_rbtree l black_count path_black_count;
      rec_validate_rbtree r black_count pbc
  end.

Definition validate_rbtree (s : set_t) : result unit :=
  match root s with
  | NIL => Ok tt
  | Node RED _ _ _ => Abort PANIC
  | Node BLACK _ _ _ =>
      do _ <- rec_validate_rbtree (root s) 0 (-1);
      Ok tt
  end.

(** [set_insert]; node allocation is taken to succeed. The result is the
    returned pointer (NULL is [None]) and the set afterwards. *)
Definition set_insert (s : set_t) (elem : A) : result (option A * set_t) :=
  match root s with
  | NIL =>
      Ok (None, {| root := Node BLACK NIL elem NIL;
                   cmpfn := cmpfn s; length := length s + 1 |})
  | Node _ _ _ _ =>
      match insert_descend (code (cmpfn s)) elem (root s) [] with
      | Replaced replaced t =>
          Ok (Some replaced, {| root := t; cmpfn := cmpfn s; length := length s |})
      | Attach p =>
          do t <- post_insert_balance (Node RED NIL elem NIL) p;
          let s' := {| root := t; cmpfn := cmpfn s; length := length s + 1 |} in
          do _ <- validate_rbtree s';
          Ok (None, s')
      end
  end.

(** ** Search *)

Fixpoint node_search (cmp : cmp_fn A) (curr : tnode) (elem : A) : tnode :=
  match curr with
  | NIL => NIL
  | Node _ l e r =>
      let direction := cmp elem e in
      if (direction >? 0)%Z then node_search cmp r elem
      else if (direction <? 0)%Z then node_search cmp l elem
      else curr
  end.

(** [set_get]: the sentinel's [elem] is NULL. *)
Definition set_get (s : set_t) (elem : A) : option A :=
  match node_search (code (cmpfn s)) (root s) elem with
  | NIL => None
  | Node _ _ e _ => Some e
  end.

(** ** Sets as heap objects

    [set_union], [set_intersection] and [set_difference] receive and
    return pointers and compare them, so the sets live in a heap of
    [struct set] objects indexed by address. The nodes of a set belong
    to that set alone ([set_copy] allocates new ones), so a heap cell
    holds the tree itself. *)
Definition loc : Type := nat.













End Defs.
Arguments tnode A : clear implicits.
Arguments set_t A : clear implicits.
Arguments frame A : clear implicits.
Arguments path A : clear implicits.
Arguments descent A : clear implicits.

(** ** Rebalancing keeps the left-to-right order *)

Section Order.
Context {A : Type}.
Implicit Types (t curr u : tnode A) (f : frame A) (p : path A).

(** What lies to the left and to the right of the hole of a path. *)
Definition lefts1 f : list A :=
  match f_side f with
  | Left => []
  | Right => inorder (f_sibling f) ++ [f_elem f]
  end.

Definition rights1 f : list A :=
  match f_side f with
  | Left => f_elem f :: inorder (f_sibling f)
  | Right => []
  end.

Fixpoint lefts p : list A :=
  match p with
  | [] => []
  | f :: up => lefts up ++ lefts1 f
  end.

Fixpoint rights p : list A :=
  match p with
  | [] => []
  | f :: up => rights1 f ++ rights up
  end.

Lemma inorder_plug1 f t : inorder (plug1 f t) = lefts1 f ++ inorder t ++ rights1 f.
Proof.
  unfold plug1, lefts1, rights1. destruct (f_side f); simpl.
  - reflexivity.
  - rewrite app_nil_r, <- app_assoc. reflexivity.
Qed.

Lemma inorder_plug t p : inorder (plug t p) = lefts p ++ inorder t ++ rights p.
Proof.
  revert t. induction p as [|f up IH]; intros t; simpl.
  - rewrite app_nil_r. reflexivity.
  - rewrite IH, inorder_plug1, <- !app_assoc. reflexivity.
Qed.

Lemma inorder_set_color c t : inorder (set_color c t) = inorder t.
Proof. destruct t; reflexivity. Qed.

Lemma rotate_left_inorder u t : rotate_left u = Ok t -> inorder t = inorder u.
Proof.
  destruct u as [|cu a x [|cv b y c]]; simpl; try discriminate.
  intros [= <-]. simpl. rewrite <- app_assoc. reflexivity.
Qed.

Lemma rotate_right_inorder u t : rotate_right u = Ok t -> inorder t = inorder u.
Proof.
  destruct u as [|cu [|cv a x b] y c]; simpl; try discriminate.
  intros [= <-]. simpl. rewrite <- app_assoc. reflexivity.
Qed.

Lemma inorder_plug_congr t t' p :
  inorder t = inorder t' -> inorder (plug t p) = inorder (plug t' p).
Proof. intros H. rewrite !inorder_plug, H. reflexivity. Qed.

Lemma inorder_plug1_congr t t' f :
  inorder t = inorder t' -> inorder (plug1 f t) = inorder (plug1 f t').
Proof. intros H. rewrite !inorder_plug1, H. reflexivity. Qed.

(** Induction on paths two ancestors at a time, as the loop climbs. *)
Lemma path_ind2 (P : path A -> Prop) :
  P [] -> (forall f, P [f]) -> (forall f g up, P up -> P (f :: g :: up)) ->
  forall p, P p.
Proof.
  intros H0 H1 H2. fix IH 1. intros [|f [|g up]].
  - exact H0.
  - apply H1.
  - apply H2, IH.
Qed.

Lemma balance_loop_inorder p : forall curr t,
  balance_loop curr p = Ok t -> inorder t = inorder (plug curr p).
Proof.
  induction p as [|par|par gp up IH] using path_ind2; intros curr t Hb.
  - simpl in Hb. injection Hb as <-. reflexivity.
  - simpl in Hb. destruct (f_color par); [discriminate|].
    injection Hb as <-. reflexivity.
  - cbn [balance_loop] in Hb. destruct (f_color par) eqn:Hpar.
    2: { injection Hb as <-. reflexivity. }
    destruct (color_of (f_sibling gp)) eqn:Hunc.
    + apply IH in Hb. rewrite Hb. cbn [plug]. apply inorder_plug_congr.
      rewrite !inorder_plug1. unfold lefts1, rights1; simpl.
      rewrite inorder_set_color. reflexivity.
    + destruct (match f_side gp with Left => _ | Right => _ end) as [top|] eqn:Htop;
        [|discriminate].
      cbn [result_bind] in Hb.
      assert (Hin : inorder top = inorder (plug1 gp (plug1 par curr))).
      { destruct (f_side gp) eqn:Hgs, (f_side par) eqn:Hps.
        - apply rotate_right_inorder in Htop. exact Htop.
        - destruct (rotate_left (plug1 par curr)) as [par1|] eqn:Hr1; [|discriminate].
          cbn [result_bind] in Htop.
          apply rotate_right_inorder in Htop. apply rotate_left_inorder in Hr1.
          rewrite Htop. apply inorder_plug1_congr. exact Hr1.
        - destruct (rotate_right (plug1 par curr)) as [par1|] eqn:Hr1; [|discriminate].
          cbn [result_bind] in Htop.
          apply rotate_left_inorder in Htop. apply rotate_right_inorder in Hr1.
          rewrite Htop. apply inorder_plug1_congr. exact Hr1.
        - apply rotate_left_inorder in Htop. exact Htop. }
      destruct top as [|ct l e r]; [discriminate|].
      injection Hb as <-. cbn [plug]. apply inorder_plug_congr.
      rewrite <- Hin. destruct (f_side gp); simpl; rewrite inorder_set_color; reflexivity.
Qed.

End Order.

(** ** The red-black invariant *)

Section Balance.
Context {A : Type}.
Implicit Types (t curr u l r : tnode A) (f g : frame A) (p up : path A).

(** [rb_tree t n]: no red node of [t] has a red child, and every path
    from the root of [t] to a [NIL] passes through [n] black nodes. These
    are properties 3 and 4 checked by [rec_validate_rbtree]. *)
Inductive rb_tree : tnode A -> nat -> Prop :=
| rb_nil : rb_tree NIL 0
| rb_red l e r n :
    rb_tree l n -> rb_tree r n -> color_of l = BLACK -> color_of r = BLACK ->
    rb_tree (Node RED l e r) n
| rb_black l e r n :
    rb_tree l n -> rb_tree r n -> rb_tree (Node BLACK l e r) (S n).

(** The ancestors of a hole that takes a subtree of black height [n]. *)
Inductive path_rb : path A -> nat -> Prop :=
| path_rb_nil n : path_rb [] n
| path_rb_black f up n :
    f_color f = BLACK -> rb_tree (f_sibling f) n -> path_rb up (S n) ->
    path_rb (f :: up) n
| path_rb_red f g up n :
    f_color f = RED -> rb_tree (f_sibling f) n -> color_of (f_sibling f) = BLACK ->
    f_color g = BLACK -> path_rb (g :: up) n ->
    path_rb (f :: g :: up) n.

(** The subtree in the hole must be black below a red parent, and black
    at the root. *)
Definition hole_black p t : Prop :=
  match p with
  | [] => color_of t = BLACK
  | f :: _ => f_color f = RED -> color_of t = BLACK
  end.

Lemma plug_rb p : forall t n,
  path_rb p n -> rb_tree t n -> hole_black p t ->
  exists m, rb_tree (plug t p) m /\ color_of (plug t p) = BLACK.
Proof.
  intros t n Hp. revert t. induction Hp as [n|f up n Hc Hs Hup IH|f g up n Hc Hs Hsc Hg Hup IH];
    intros t Ht Hh.
  - exists n. split; assumption.
  - cbn [plug]. apply IH.
    + destruct f as [[] c e sib]; simpl in *; subst; constructor; assumption.
    + destruct up as [|g up']; destruct f as [[] c e sib]; simpl in *; subst;
        try reflexivity; intros _; reflexivity.
  - cbn [plug]. specialize (Hh Hc). apply (IH (plug1 f t)).
    + destruct f as [[] c e sib]; simpl in *; subst;
        constructor; assumption.
    + simpl. intros Hred. congruence.
Qed.

(** The walk down from a black root keeps the ancestors consistent. *)
Lemma insert_descend_rb cmp elem curr : forall p n,
  rb_tree curr n -> path_rb p n -> hole_black p curr ->
  match insert_descend cmp elem curr p with
  | Attach p' => path_rb p' 0
  | Replaced _ t' => exists m, rb_tree t' m /\ color_of t' = BLACK
  end.
Proof.
  induction curr as [|c l IHl e r IHr]; intros p n Ht Hp Hh.
  - simpl. inversion Ht; subst. exact Hp.
  - cbn [insert_descend].
    assert (Hstep : forall sd child other k,
               rb_tree child k -> rb_tree other k ->
               (c = RED -> n = k /\ color_of child = BLACK /\ color_of other = BLACK) ->
               (c = BLACK -> n = S k) ->
               path_rb (mk_frame sd c e other :: p) k /\
               hole_black (mk_frame sd c e other :: p) child).
    { intros sd child other k Hchild Hother Hred Hblack. destruct c.
      - destruct (Hred eq_refl) as (-> & Hcc & Hoc). split; [|intros _; exact Hcc].
        destruct p as [|g up]; simpl in Hh; [discriminate|].
        destruct (f_color g) eqn:Hg; [specialize (Hh eq_refl); discriminate|].
        apply path_rb_red; auto.
      - rewrite (Hblack eq_refl) in Hp. split; [|intros [=]].
        apply path_rb_black; auto. }
    destruct (cmp elem e >? 0)%Z; [|destruct (cmp elem e <? 0)%Z].
    + inversion Ht; subst.
      * destruct (Hstep Right r l n) as [H1 H2]; auto; [intros [=]|]. eapply IHr; eauto.
      * destruct (Hstep Right r l n0) as [H1 H2]; auto; [intros [=]|]. eapply IHr; eauto.
    + inversion Ht; subst.
      * destruct (Hstep Left l r n) as [H1 H2]; auto; [intros [=]|]. eapply IHl; eauto.
      * destruct (Hstep Left l r n0) as [H1 H2]; auto; [intros [=]|]. eapply IHl; eauto.
    + apply (plug_rb p _ n);
        [ exact Hp | inversion Ht; subst; constructor; assumption | destruct p; exact Hh ].
Qed.

Lemma balance_loop_rb p : forall l e r n,
  path_rb p n -> rb_tree (Node RED l e r) n ->
  exists t m, balance_loop (Node RED l e r) p = Ok t /\
              rb_tree (set_color BLACK t) m.
Proof.
  induction p as [|par|par gp up IH] using path_ind2; intros l e r n Hp Hc.
  - exists (Node RED l e r), (S n). split; [reflexivity|].
    inversion Hc; subst. simpl. constructor; assumption.
  - inversion Hp as [|? ? ? Hpar Hsib Hup|]; subst.
    destruct (plug_rb [par] (Node RED l e r) n Hp Hc) as (m & Hm & Hcol).
    { simpl. congruence. }
    exists (plug (Node RED l e r) [par]), m. simpl. rewrite Hpar. split; [reflexivity|].
    simpl in Hm, Hcol. destruct (plug1 par _); simpl in *; [assumption|].
    subst. assumption.
  - inversion Hp as [|? ? ? Hpar Hsib Hup|? ? ? ? Hpar Hsib Hsibc Hgp Hup]; subst.
    + destruct (plug_rb (par :: gp :: up) (Node RED l e r) n Hp Hc) as (m & Hm & Hcol).
      { simpl. congruence. }
      exists (plug (Node RED l e r) (par :: gp :: up)), m.
      cbn [balance_loop]. rewrite Hpar. split; [reflexivity|].
      destruct (plug _ _); simpl in *; [assumption|]. subst. assumption.
    + cbn [balance_loop]. rewrite Hpar.
      inversion Hup as [|? ? ? _ Hunc Hup'|? ? ? ? Hred]; subst; [|congruence].
      inversion Hc as [|? ? ? ? Hl Hr Hlc Hrc|]; subst.
      destruct par as [ps pc pe psib], gp as [gs gc ge unc]; simpl in *; subst.
      destruct (color_of unc) eqn:Hucol.
      * (* red uncle *)
        destruct unc as [|uc ul ue ur]; [discriminate|]. simpl in Hucol; subst uc.
        inversion Hunc; subst.
        destruct ps, gs; simpl;
          (eapply IH; [exact Hup'|]);
          constructor; try reflexivity; constructor; assumption.
      * (* black uncle *)
        destruct ps, gs; simpl.
        all: match goal with
             | Hu : path_rb ?u ?k |- exists t m, Ok (plug ?top ?u) = Ok t /\ _ =>
                 destruct (plug_rb u top k Hu) as (m & Hm & Hcol);
                 [ repeat (constructor; try assumption)
                 | destruct u; simpl; try reflexivity; intros _; reflexivity
                 | exists (plug top u), m; split; [reflexivity|];
                   destruct (plug top u); simpl in *; [assumption|]; subst; assumption ]
             end.
Qed.

Lemma rec_validate_rbtree_ok t n : rb_tree t n ->
  forall black_count path_black_count : Z,
    (0 <= black_count)%Z ->
    path_black_count = (-1)%Z \/ path_black_count = (black_count + Z.of_nat n)%Z ->
    rec_validate_rbtree t black_count path_black_count
    = Ok (black_count + Z.of_nat n)%Z.
Proof.
  induction 1 as [|l e r n Hl IHl Hr IHr Hlc Hrc|l e r n Hl IHl Hr IHr];
    intros bc pbc Hbc Hpbc.
  - simpl. rewrite Z.add_0_r.
    destruct (Z.eqb_spec pbc (-1)).
    + rewrite Z.eqb_refl. reflexivity.
    + destruct Hpbc as [? | ->]; [contradiction|].
      rewrite Z.add_0_r, Z.eqb_refl. reflexivity.
  - cbn [rec_validate_rbtree]. unfold is_red. rewrite Hlc, Hrc. simpl.
    rewrite (IHl bc pbc Hbc Hpbc). simpl. apply IHr; auto.
  - cbn [rec_validate_rbtree result_bind].
    rewrite (IHl (bc + 1)%Z pbc) by lia. simpl.
    rewrite (IHr (bc + 1)%Z) by lia. f_equal. lia.
Qed.

End Balance.

(** ** What [set_insert] does to a well-formed set *)

Section InsertSpec.
Context {A : Type} (code : fn_ptr -> cmp_fn A).
Implicit Types (t curr : tnode A) (p : path A) (s : set_t A).

Definition elements s : list A := inorder (root s).

(** The shape invariant: the one [validate_rbtree] asserts. *)
Definition set_balanced s : Prop :=
  color_of (root s) = BLACK /\ exists n, rb_tree (root s) n.

(** The content invariant: strictly ascending elements, counted by
    [length]. *)
Definition set_ordered s : Prop :=
  StronglySorted (cmp_lt (code (cmpfn s))) (elements s) /\
  length s = List.length (elements s).

Definition set_wf s : Prop := set_balanced s /\ set_ordered s.

(** [x] compares equal to some element of [s]. *)
Definition set_mem s (x : A) : Prop :=
  exists y, In y (elements s) /\ cmp_eqv (code (cmpfn s)) x y.

Lemma set_insert_balanced s x :
  set_balanced s ->
  exists r s', set_insert code s x = Ok (r, s') /\ set_balanced s' /\
               cmpfn s' = cmpfn s.
Proof.
  intros [Hroot [n Hrb]]. unfold set_insert.
  destruct (root s) as [|c l e r] eqn:Hr.
  - eexists _, _. split; [reflexivity|]. split; [|reflexivity].
    split; [reflexivity|]. exists 1. repeat constructor.
  - pose proof (insert_descend_rb (code (cmpfn s)) x (Node c l e r) [] n Hrb
                  (path_rb_nil n) Hroot) as Hd.
    destruct (insert_descend _ x (Node c l e r) []) as [y t'|p'].
    + destruct Hd as (m & Hm & Hcol).
      eexists _, _. split; [reflexivity|]. split; [|reflexivity].
      split; [exact Hcol|]. exists m. exact Hm.
    + destruct (balance_loop_rb p' NIL x NIL 0 Hd) as (t & m & Hb & Hm).
      { repeat constructor. }
      unfold post_insert_balance. rewrite Hb. cbn [result_bind].
      assert (Hv : validate_rbtree
                     {| root := set_color BLACK t; cmpfn := cmpfn s;
                        length := length s + 1 |} = Ok tt).
      { unfold validate_rbtree. cbn [root]. destruct t as [|ct tl te tr]; [reflexivity|].
        cbn [set_color] in *.
        rewrite (rec_validate_rbtree_ok _ _ Hm 0 (-1)) by (lia || auto). reflexivity. }
      rewrite Hv. cbn [result_bind].
      eexists _, _. split; [reflexivity|]. split; [|reflexivity].
      split; [destruct t; reflexivity|]. exists m. exact Hm.
Qed.

Section Ordered.
Context (cmp : cmp_fn A) {Hord : TotalOrderCmp cmp}.

(** Everything left of the hole is below [x], everything right above. *)
Definition in_range (x : A) p : Prop :=
  Forall (fun a => cmp_lt cmp a x) (lefts p) /\ Forall (cmp_lt cmp x) (rights p).

Lemma sorted_node_inv c (l : tnode A) e (r : tnode A) :
  StronglySorted (cmp_lt cmp) (inorder (Node c l e r)) ->
  StronglySorted (cmp_lt cmp) (inorder l) /\
  StronglySorted (cmp_lt cmp) (inorder r) /\
  Forall (fun a => cmp_lt cmp a e) (inorder l) /\
  Forall (cmp_lt cmp e) (inorder r).
Proof.
  simpl. intros H. apply StronglySorted_app_iff in H. destruct H as (Hl & Her & Hle).
  apply StronglySorted_inv in Her. destruct Her as [Hr He].
  repeat split; try assumption.
  eapply Forall_impl; [exact Hle|]. intros a Ha.
  apply Forall_cons in Ha. tauto.
Qed.

Lemma insert_descend_spec x curr : forall p,
  StronglySorted (cmp_lt cmp) (inorder curr) -> in_range x p ->
  match insert_descend cmp x curr p with
  | Attach p' =>
      lefts p' ++ rights p' = lefts p ++ inorder curr ++ rights p /\
      in_range x p' /\
      Forall (fun y => ~ cmp_eqv cmp x y) (inorder curr)
  | Replaced y t' =>
      cmp_eqv cmp x y /\
      exists l1 l2, inorder curr = l1 ++ y :: l2 /\
                    inorder t' = lefts p ++ (l1 ++ x :: l2) ++ rights p
  end.
Proof.
  induction curr as [|c l IHl e r IHr]; intros p Hs [HL HR].
  - simpl. repeat split; auto.
  - destruct (sorted_node_inv _ _ _ _ Hs) as (Hsl & Hsr & Hle & Her).
    cbn [insert_descend].
    destruct (Z.gtb_spec (cmp x e) 0) as [Hgt|Hngt];
      [|destruct (Z.ltb_spec (cmp x e) 0) as [Hlt|Hnlt]].
    + assert (Hex : cmp_lt cmp e x) by (apply cmp_gt_lt; [assumption|lia]).
      pose proof (Forall_lt_trans_l cmp _ _ _ Hle Hex) as Hlx.
      assert (Hrange : in_range x (mk_frame Right c e l :: p)).
      { split; simpl; [|exact HR]. unfold lefts1; simpl.
        rewrite !Forall_app. repeat split; auto. }
      specialize (IHr (mk_frame Right c e l :: p) Hsr Hrange).
      destruct (insert_descend cmp x r _) as [y t'|p'].
      * destruct IHr as (Hxy & l1 & l2 & Hr & Ht').
        split; [exact Hxy|]. exists (inorder l ++ e :: l1), l2. simpl.
        rewrite Hr, Ht'. simpl. unfold lefts1, rights1; simpl.
        rewrite <- !app_assoc. simpl. split; reflexivity.
      * destruct IHr as (Hio & Hrange' & Hne).
        split; [|split; [exact Hrange'|]].
        -- rewrite Hio. simpl. unfold lefts1, rights1; simpl.
           rewrite <- !app_assoc. reflexivity.
        -- simpl. rewrite Forall_app, Forall_cons. repeat split; [| |exact Hne].
           ++ apply Forall_below_not_eqv; assumption.
           ++ intros He. apply cmp_eqv_sym in He; [|assumption].
              exact (cmp_lt_irrefl_eqv cmp e x Hex He).
    + pose proof (Forall_lt_trans_r cmp _ _ _ Hlt Her) as Hxr.
      assert (Hrange : in_range x (mk_frame Left c e r :: p)).
      { split; simpl; [rewrite app_nil_r; exact HL|]. unfold rights1; simpl.
        constructor; [exact Hlt|]. rewrite Forall_app. split; auto. }
      specialize (IHl (mk_frame Left c e r :: p) Hsl Hrange).
      destruct (insert_descend cmp x l _) as [y t'|p'].
      * destruct IHl as (Hxy & l1 & l2 & Hl & Ht').
        split; [exact Hxy|]. exists l1, (l2 ++ e :: inorder r). simpl.
        rewrite Hl, Ht'. simpl. unfold lefts1, rights1; simpl.
        rewrite app_nil_r, <- !app_assoc. simpl. rewrite <- !app_assoc.
        split; reflexivity.
      * destruct IHl as (Hio & Hrange' & Hne).
        split; [|split; [exact Hrange'|]].
        -- rewrite Hio. simpl. unfold lefts1, rights1; simpl.
           rewrite app_nil_r, <- !app_assoc. reflexivity.
        -- simpl. rewrite Forall_app, Forall_cons. repeat split; [exact Hne| |].
           ++ intros He. exact (cmp_lt_irrefl_eqv cmp x e Hlt He).
           ++ apply Forall_above_not_eqv; assumption.
    + assert (Hxe : cmp_eqv cmp x e) by (unfold cmp_eqv; lia).
      split; [exact Hxe|]. exists (inorder l), (inorder r).
      split; [reflexivity|]. rewrite inorder_plug. reflexivity.
Qed.

Lemma node_search_spec x t :
  StronglySorted (cmp_lt cmp) (inorder t) ->
  match node_search cmp t x with
  | NIL => Forall (fun y => ~ cmp_eqv cmp x y) (inorder t)
  | Node _ _ e _ => In e (inorder t) /\ cmp_eqv cmp x e
  end.
Proof.
  induction t as [|c l IHl e r IHr]; intros Hs; [constructor|].
  destruct (sorted_node_inv _ _ _ _ Hs) as (Hsl & Hsr & Hle & Her).
  cbn [node_search].
  destruct (Z.gtb_spec (cmp x e) 0) as [Hgt|Hngt];
    [|destruct (Z.ltb_spec (cmp x e) 0) as [Hlt|Hnlt]].
  - assert (Hex : cmp_lt cmp e x) by (apply cmp_gt_lt; [assumption|lia]).
    pose proof (Forall_lt_trans_l cmp _ _ _ Hle Hex) as Hlx.
    specialize (IHr Hsr). destruct (node_search cmp r x) as [|c' l' e' r'].
    + simpl. rewrite Forall_app, Forall_cons. repeat split; [| |exact IHr].
      * apply Forall_below_not_eqv; assumption.
      * intros He. apply cmp_eqv_sym in He; [|assumption].
        exact (cmp_lt_irrefl_eqv cmp e x Hex He).
    + destruct IHr as [Hin He]. split; [|exact He].
      simpl. apply in_or_app. right. right. exact Hin.
  - pose proof (Forall_lt_trans_r cmp _ _ _ Hlt Her) as Hxr.
    specialize (IHl Hsl). destruct (node_search cmp l x) as [|c' l' e' r'].
    + simpl. rewrite Forall_app, Forall_cons. repeat split; [exact IHl| |].
      * intros He. exact (cmp_lt_irrefl_eqv cmp x e Hlt He).
      * apply Forall_above_not_eqv; assumption.
    + destruct IHl as [Hin He]. split; [|exact He].
      simpl. apply in_or_app. left. exact Hin.
  - split; [simpl; apply in_or_app; right; left; reflexivity|].
    unfold cmp_eqv. lia.
Qed.

End Ordered.

Lemma set_insert_spec s x :
  TotalOrderCmp (code (cmpfn s)) -> set_wf s ->
  exists r s',
    set_insert code s x = Ok (r, s') /\ set_wf s' /\ cmpfn s' = cmpfn s /\
    match r with
    | None =>
        Forall (fun y => ~ cmp_eqv (code (cmpfn s)) x y) (elements s) /\
        length s' = length s + 1 /\
        exists l1 l2, elements s = l1 ++ l2 /\ elements s' = l1 ++ x :: l2
    | Some y =>
        cmp_eqv (code (cmpfn s)) x y /\ length s' = length s /\
        exists l1 l2, elements s = l1 ++ y :: l2 /\ elements s' = l1 ++ x :: l2
    end.
Proof.
  intros Hord [Hbal [Hsorted Hlen]].
  destruct (set_insert_balanced s x Hbal) as (r & s' & Hrun & Hbal' & Hcmp).
  exists r, s'. split; [exact Hrun|].
  unfold set_insert in Hrun. unfold elements in *.
  destruct (root s) as [|c l e rt] eqn:Hroot.
  - injection Hrun as <- <-. simpl in Hlen.
    split; [split; [exact Hbal'|split; cbn; [repeat constructor|lia]]|].
    split; [reflexivity|]. split; [constructor|]. split; [reflexivity|].
    exists [], []. split; reflexivity.
  - pose proof (insert_descend_spec (code (cmpfn s)) x (Node c l e rt) [] Hsorted) as Hd.
    destruct (insert_descend _ x (Node c l e rt) []) as [y t'|p'].
    + injection Hrun as <- <-.
      destruct Hd as (Hxy & l1 & l2 & Hio & Hio'); [split; constructor|].
      cbn [lefts rights app] in Hio'. rewrite app_nil_r in Hio'. rewrite Hio in *.
      split; [split; [exact Hbal'|split; unfold elements; cbn [root cmpfn length]]|].
      * rewrite Hio'. eapply sorted_replace_eqv; eassumption.
      * rewrite Hio', Hlen, !length_app. reflexivity.
      * split; [reflexivity|]. split; [exact Hxy|]. split; [reflexivity|].
        exists l1, l2. split; [reflexivity|exact Hio'].
    + destruct Hd as (Hio & [HL HR] & Hne); [split; constructor|].
      cbn [lefts rights app] in Hio. rewrite app_nil_r in Hio.
      unfold post_insert_balance in Hrun.
      destruct (balance_loop _ p') as [t|] eqn:Hb; [|discriminate].
      cbn [result_bind] in Hrun.
      destruct (validate_rbtree _); [|discriminate].
      injection Hrun as <- <-.
      apply balance_loop_inorder in Hb. rewrite inorder_plug in Hb. simpl in Hb.
      rewrite <- Hio in *.
      split; [split; [exact Hbal'|split; unfold elements; cbn [root cmpfn length]]|].
      * rewrite inorder_set_color, Hb. apply sorted_insert_middle; assumption.
      * rewrite inorder_set_color, Hb, Hlen, !length_app. simpl. lia.
      * split; [reflexivity|]. split; [exact Hne|]. split; [reflexivity|].
        exists (lefts p'), (rights p'). split; [reflexivity|].
        unfold elements. cbn [root]. rewrite inorder_set_color. exact Hb.
Qed.

(** After an insertion the set holds [x] and what it held before, up to
    equality under the comparison function. *)
Lemma set_insert_mem s x r s' :
  TotalOrderCmp (code (cmpfn s)) -> set_wf s ->
  set_insert code s x = Ok (r, s') ->
  forall z, set_mem s' z <-> set_mem s z \/ cmp_eqv (code (cmpfn s)) z x.
Proof.
  intros Hord Hwf Hrun z.
  destruct (set_insert_spec s x Hord Hwf) as (r0 & s0 & Hrun0 & Hwf' & Hcmp & Hcase).
  rewrite Hrun in Hrun0. injection Hrun0 as <- <-.
  unfold set_mem. rewrite Hcmp.
  destruct r as [y|].
  - destruct Hcase as (Hxy & _ & l1 & l2 & -> & ->). split.
    + intros (w & Hw & Hzw). apply in_app_or in Hw. destruct Hw as [Hw|[<-|Hw]].
      * left. exists w. split; [apply in_or_app; auto|exact Hzw].
      * right. exact Hzw.
      * left. exists w. split; [apply in_or_app; right; right; exact Hw|exact Hzw].
    + intros [(w & Hw & Hzw)|Hzx].
      * apply in_app_or in Hw. destruct Hw as [Hw|[<-|Hw]].
        -- exists w. split; [apply in_or_app; auto|exact Hzw].
        -- exists x. split; [apply in_or_app; right; left; reflexivity|].
           eapply cmp_eqv_trans; [exact Hord|exact Hzw|].
           apply cmp_eqv_sym; assumption.
        -- exists w. split; [apply in_or_app; right; right; exact Hw|exact Hzw].
      * exists x. split; [apply in_or_app; right; left; reflexivity|exact Hzx].
  - destruct Hcase as (_ & _ & l1 & l2 & -> & ->). split.
    + intros (w & Hw & Hzw). apply in_app_or in Hw. destruct Hw as [Hw|[<-|Hw]].
      * left. exists w. split; [apply in_or_app; auto|exact Hzw].
      * right. exact Hzw.
      * left. exists w. split; [apply in_or_app; auto|exact Hzw].
    + intros [(w & Hw & Hzw)|Hzx].
      * apply in_app_or in Hw. destruct Hw as [Hw|Hw];
          exists w; (split; [apply in_or_app; simpl; auto|exact Hzw]).
      * exists x. split; [apply in_or_app; right; left; reflexivity|exact Hzx].
Qed.

(** The elements after an insertion are [x] and elements from before. *)
Lemma set_insert_elements s x r s' :
  TotalOrderCmp (code (cmpfn s)) -> set_wf s ->
  set_insert code s x = Ok (r, s') ->
  forall y, In y (elements s') -> y = x \/ In y (elements s).
Proof.
  intros Hord Hwf Hrun y.
  destruct (set_insert_spec s x Hord Hwf) as (r0 & s0 & Hrun0 & Hwf' & Hcmp & Hcase).
  rewrite Hrun in Hrun0. injection Hrun0 as <- <-.
  destruct r as [w|].
  - destruct Hcase as (_ & _ & l1 & l2 & -> & ->).
    rewrite !in_app_iff. simpl. intuition auto.
  - destruct Hcase as (_ & _ & l1 & l2 & -> & ->).
    rewrite !in_app_iff. simpl. intuition auto.
Qed.

(** [set_get] finds the element that compares equal, if there is one. *)
Lemma set_get_spec s x :
  TotalOrderCmp (code (cmpfn s)) -> set_wf s ->
  match set_get code s x with
  | Some y => In y (elements s) /\ cmp_eqv (code (cmpfn s)) x y
  | None => ~ set_mem s x
  end.
Proof.
  intros Hord [_ [Hsorted _]]. unfold set_get.
  pose proof (node_search_spec (code (cmpfn s)) x (root s) Hsorted) as Hn.
  destruct (node_search _ (root s) x) as [|c l e r]; [|exact Hn].
  intros (y & Hy & Hxy). rewrite Forall_forall in Hn.
  apply (Hn y); [apply list_elem_of_In; exact Hy|exact Hxy].
Qed.


End InsertSpec.

(** ** Union, intersection and difference *)

Section SetAlgebra.
Context {A : Type} (code : fn_ptr -> cmp_fn A).
Implicit Types (t : tnode A) (s sa sb sc : set_t A) (h : gmap loc (set_t A)).


















Section Operands.
Context (h : gmap loc (set_t A)) (a b : loc) (sa sb : set_t A).
Hypothesis Ha : h !! a = Some sa.
Hypothesis Hb : h !! b = Some sb.
Hypothesis Hwfa : set_wf code sa.
Hypothesis Hwfb : set_wf code sb.
Hypothesis Hcmp : cmpfn sa = cmpfn sb.
Hypothesis Hord : TotalOrderCmp (code (cmpfn sa)).

Lemma set_mem_same_cmp z : set_mem code sb z <->
  exists y, In y (elements sb) /\ cmp_eqv (code (cmpfn sa)) z y.
Proof. unfold set_mem. rewrite Hcmp. reflexivity. Qed.





End Operands.



End SetAlgebra.


(** Two sets of integers, {1, 2} at address 1 and {2, 3} at address 2. *)
Definition example_set_a : set_t Z :=
  {| root := Node BLACK NIL 1%Z (Node RED NIL 2%Z NIL); cmpfn := 0; length := 2 |}.



Lemma example_set_a_wf : set_wf Z_code example_set_a.
Proof.
  split; [split; [reflexivity|exists 1; repeat constructor]|].
  split; [|reflexivity]. unfold elements; simpl. repeat constructor.
Qed.



(** ** Iteration

    [next_node_inorder] is a Morris traversal: it threads the tree
    through the free [right] pointers of its nodes and removes the
    threads again. Such a memory is no tree, so the iterator runs on
    node cells in a memory indexed by address. *)

Section Iteration.
Context {A : Type}.

(** The address of the sentinel. *)
Definition NIL_addr : loc := 0.

(** A [struct tnode] in memory. *)
Record tnode_cell : Type := mk_cell {
  c_color : tnode_color_t;
  c_elem : A;
  c_parent : loc;
  c_left : loc;
  c_right : loc
}.

Definition set_right (c : tnode_cell) (r : loc) : tnode_cell :=
  {| c_color := c_color c; c_elem := c_elem c; c_parent := c_parent c;
     c_left := c_left c; c_right := r |}.

(** Reading a node through a pointer. *)
Definition load (mem : gmap loc tnode_cell) (p : loc) : result tnode_cell :=
  match mem !! p with
  | Some c => Ok c
  | None => Abort SEGFAULT
  end.

(** [struct set_iter]. *)
Record set_iter_t : Type := mk_iter {
  iter_set : loc;
  head : loc
}.

(** The search for the in-order predecessor:
    [while (pre->right != NIL && pre->right != next) pre = pre->right]. *)
Fixpoint find_pre (fuel : nat) (mem : gmap loc tnode_cell) (next pre : loc)
  : result loc :=
  match fuel with
  | 0 => Abort TIMEOUT
  | S fuel' =>
      do c <- load mem pre;
      if (c_right c =? NIL_addr)%nat || (c_right c =? next)%nat then Ok pre
      else find_pre fuel' mem next (c_right c)
  end.

(** [next_node_inorder] from the node [next]: the node returned, the
    new [iter->head], and the memory. When the loop is not entered the
    head stays what it was, which is [NIL]. *)
Fixpoint next_node_inorder (fuel : nat) (mem : gmap loc tnode_cell) (next : loc)
  : result (loc * loc * gmap loc tnode_cell) :=
  match fuel with
  | 0 => Abort TIMEOUT
  | S fuel' =>
      if (next =? NIL_addr)%nat then Ok (NIL_addr, next, mem)
      else
        do c <- load mem next;
        if (c_left c =? NIL_addr)%nat then
          (* no left subtree, visit current node and move right *)
          Ok (next, c_right c, mem)
        else
          do pre <- find_pre fuel mem next (c_left c);
          do pc <- load mem pre;
          if (c_right pc =? NIL_addr)%nat then
            (* create temporary link to return after left subtree traversal *)
            next_node_inorder fuel' (<[pre := set_right pc next]> mem) (c_left c)
          else
            (* restore tree structure, visit current node, move right *)
            let mem' := <[pre := set_right pc NIL_addr]> mem in
            do c' <- load mem' next;
            Ok (next, c_right c', mem')
  end.


Definition set_hasnext (iter : set_iter_t) : Z :=
  if (head iter =? NIL_addr)%nat then 0%Z else 1%Z.

(** [set_next]: the element of the node found; the sentinel's is NULL. *)
Definition set_next (fuel : nat) (mem : gmap loc tnode_cell) (iter : set_iter_t)
  : result (option A * set_iter_t * gmap loc tnode_cell) :=
  do '(curr, head', mem') <- next_node_inorder fuel mem (head iter);
  let iter' := {| iter_set := iter_set iter; head := head' |} in
  if (curr =? NIL_addr)%nat then Ok (None, iter', mem')
  else
    do c <- load mem' curr;
    Ok (Some (c_elem c), iter', mem').

(** A complete iteration, as the callers write it:
    [while (set_hasnext(iter)) { elem = set_next(iter); ... }].
    [calls] bounds the number of rounds, [fuel] the loops of one call. *)
Fixpoint iterate (calls fuel : nat) (mem : gmap loc tnode_cell) (iter : set_iter_t)
  : result (list (option A) * gmap loc tnode_cell) :=
  match calls with
  | 0 => Abort TIMEOUT
  | S calls' =>
      if (set_hasnext iter =? 0)%Z then Ok ([], mem)
      else
        do '(elem, iter', mem') <- set_next fuel mem iter;
        do '(rest, mem'') <- iterate calls' fuel mem' iter';
        Ok (elem :: rest, mem'')
  end.

(** ** A tree in memory

    A tree whose nodes carry their addresses. *)
Inductive ptree : Type :=
| PNil
| PNode (addr : loc) (color : tnode_color_t) (l : ptree) (elem : A) (r : ptree).


(** The pointer to a subtree; [k] stands where the subtree is empty. *)
Definition ptr (pt : ptree) (k : loc) : loc :=
  match pt with
  | PNil => k
  | PNode a _ _ _ _ => a
  end.

Fixpoint addrs (pt : ptree) : list loc :=
  match pt with
  | PNil => []
  | PNode a _ l _ r => addrs l ++ a :: addrs r
  end.

Fixpoint pinorder (pt : ptree) : list A :=
  match pt with
  | PNil => []
  | PNode _ _ l e r => pinorder l ++ e :: pinorder r
  end.

(** The last node in order. *)
Fixpoint rightmost (pt : ptree) (k : loc) : loc :=
  match pt with
  | PNil => k
  | PNode a _ _ _ r => rightmost r a
  end.

(** [mem] holds the nodes of [pt], where the [right] pointer of the last
    node is [k]: [NIL] in a tree at rest, the successor in a subtree
    that is threaded. *)
Fixpoint agrees (mem : gmap loc tnode_cell) (pt : ptree) (k : loc) : Prop :=
  match pt with
  | PNil => True
  | PNode a c l e r =>
      (exists parent, mem !! a = Some (mk_cell c e parent (ptr l NIL_addr) (ptr r k))) /\
      agrees mem l NIL_addr /\ agrees mem r k
  end.

(** The nodes lie at distinct addresses, none at the sentinel's. *)
Definition ptree_wf (pt : ptree) : Prop :=
  NoDup (addrs pt) /\ ~ elem_of NIL_addr (addrs pt).

Definition psize (pt : ptree) : nat := List.length (addrs pt).

(** ** The traversal visits the nodes in order and restores the memory *)

Implicit Types (pt l r : ptree) (mem : gmap loc tnode_cell) (k next : loc).


Lemma ptree_wf_node a c l e r :
  ptree_wf (PNode a c l e r) ->
  ptree_wf l /\ ptree_wf r /\ a <> NIL_addr /\
  ~ elem_of a (addrs l) /\ ~ elem_of a (addrs r) /\
  (forall x, elem_of x (addrs l) -> ~ elem_of x (addrs r)).
Proof.
  unfold ptree_wf. simpl. intros [Hnd Hnil].
  apply NoDup_app in Hnd. destruct Hnd as (Hl & Hlr & Hr).
  apply NoDup_cons in Hr. destruct Hr as [Har Hr].
  rewrite not_elem_of_app, not_elem_of_cons in Hnil.
  destruct Hnil as (Hnl & Hna & Hnr).
  repeat split; auto.
  - intros Hal. apply (Hlr a Hal). left.
  - intros x Hx Hxr. apply (Hlr x Hx). right. exact Hxr.
Qed.

Lemma ptr_in pt k : pt <> PNil -> elem_of (ptr pt k) (addrs pt).
Proof.
  destruct pt as [|a c l e r]; [congruence|]. intros _. simpl.
  apply elem_of_app. right. left.
Qed.

Lemma ptr_nonempty pt k k' : pt <> PNil -> ptr pt k = ptr pt k'.
Proof. destruct pt; [congruence|reflexivity]. Qed.

Lemma rightmost_nonempty pt k k' : pt <> PNil -> rightmost pt k = rightmost pt k'.
Proof. destruct pt; [congruence|reflexivity]. Qed.

Lemma rightmost_in pt k : pt <> PNil -> elem_of (rightmost pt k) (addrs pt).
Proof.
  revert k. induction pt as [|a c l IHl e r IHr]; intros k Hne; [congruence|].
  simpl. apply elem_of_app. right.
  destruct r as [|a' c' l' e' r']; [left|].
  right. apply IHr. discriminate.
Qed.

Lemma load_node mem a c l e r k :
  agrees mem (PNode a c l e r) k ->
  exists parent, load mem a = Ok (mk_cell c e parent (ptr l NIL_addr) (ptr r k)).
Proof. intros [[parent Hm] _]. exists parent. unfold load. rewrite Hm. reflexivity. Qed.

(** A write outside a subtree does not change it. *)
Lemma agrees_frame mem pt k x cell :
  agrees mem pt k -> ~ elem_of x (addrs pt) -> agrees (<[x := cell]> mem) pt k.
Proof.
  revert k. induction pt as [|a c l IHl e r IHr]; intros k Hag Hx; [exact I|].
  simpl in Hx. rewrite not_elem_of_app, not_elem_of_cons in Hx.
  destruct Hx as (Hxl & Hxa & Hxr). destruct Hag as ([parent Hm] & Hl & Hr).
  split; [|split; auto].
  exists parent. rewrite lookup_insert_ne by congruence. exact Hm.
Qed.

(** The last node of a subtree holds [k] in its [right] field. *)
Lemma rightmost_cell mem pt k k0 :
  pt <> PNil -> agrees mem pt k ->
  exists cell, mem !! rightmost pt k0 = Some cell /\ c_right cell = k.
Proof.
  revert k0. induction pt as [|a c l IHl e r IHr]; intros k0 Hne Hag; [congruence|].
  destruct Hag as ([parent Hm] & Hl & Hr). simpl.
  destruct r as [|a' c' l' e' r'].
  - simpl. eexists. split; [exact Hm|reflexivity].
  - apply IHr; [discriminate|exact Hr].
Qed.

(** Writing the [right] field of the last node re-targets the subtree. *)
Lemma agrees_rethread mem pt k k' k0 cell :
  pt <> PNil -> ptree_wf pt -> agrees mem pt k ->
  mem !! rightmost pt k0 = Some cell ->
  agrees (<[rightmost pt k0 := set_right cell k']> mem) pt k'.
Proof.
  revert k0. induction pt as [|a c l IHl e r IHr]; intros k0 Hne Hwf Hag Hcell;
    [congruence|].
  destruct (ptree_wf_node _ _ _ _ _ Hwf) as (Hwl & Hwr & Ha & Hal & Har & Hlr).
  destruct Hag as ([parent Hm] & Hl & Hr). simpl in Hcell |- *.
  destruct r as [|a' c' l' e' r'].
  - simpl in *. rewrite Hm in Hcell. injection Hcell as <-.
    split; [exists parent; rewrite lookup_insert_eq; reflexivity|].
    split; [apply agrees_frame; assumption|exact I].
  - assert (Hin : elem_of (rightmost (PNode a' c' l' e' r') a)
                          (addrs (PNode a' c' l' e' r'))) by (apply rightmost_in; discriminate).
    split; [|split].
    + exists parent. rewrite lookup_insert_ne; [exact Hm|]. intros Heq.
      apply Har. rewrite <- Heq. exact Hin.
    + apply agrees_frame; [exact Hl|]. intros Hx. exact (Hlr _ Hx Hin).
    + apply IHr; auto; discriminate.
Qed.

Lemma find_pre_rightmost pt : forall mem next k0 fuel,
  pt <> PNil -> agrees mem pt k0 -> k0 = NIL_addr \/ k0 = next ->
  ~ elem_of next (addrs pt) -> ~ elem_of NIL_addr (addrs pt) ->
  psize pt <= fuel ->
  find_pre fuel mem next (ptr pt k0) = Ok (rightmost pt k0).
Proof.
  induction pt as [|a c l IHl e r IHr]; intros mem next k0 fuel Hne Hag Hk0 Hnext Hnil Hfuel;
    [congruence|].
  unfold psize in *. simpl in Hfuel, Hnext, Hnil. rewrite length_app in Hfuel. simpl in Hfuel.
  rewrite not_elem_of_app, not_elem_of_cons in Hnext, Hnil.
  destruct fuel as [|fuel]; [lia|].
  destruct (load_node _ _ _ _ _ _ _ Hag) as [parent Hload].
  cbn [find_pre ptr]. rewrite Hload. cbn [result_bind c_right].
  destruct Hag as (_ & _ & Hr).
  destruct r as [|a' c' l' e' r'].
  - cbn [ptr rightmost]. destruct Hk0 as [-> | ->].
    + rewrite Nat.eqb_refl. reflexivity.
    + rewrite Nat.eqb_refl, orb_true_r. reflexivity.
  - cbn [ptr]. simpl in Hnext, Hnil.
    rewrite not_elem_of_app, not_elem_of_cons in Hnext, Hnil.
    destruct (Nat.eqb_spec a' NIL_addr); [exfalso; intuition congruence|].
    destruct (Nat.eqb_spec a' next); [exfalso; intuition congruence|].
    cbn [orb].
    apply (IHr mem next k0 fuel); auto; try discriminate.
    + simpl. rewrite not_elem_of_app, not_elem_of_cons. tauto.
    + simpl. rewrite not_elem_of_app, not_elem_of_cons. tauto.
    + simpl in *. rewrite length_app in *. simpl in *. lia.
Qed.

(** More fuel does not change a result. *)
Lemma find_pre_mono fuel : forall fuel' mem next pre p,
  find_pre fuel mem next pre = Ok p -> fuel <= fuel' ->
  find_pre fuel' mem next pre = Ok p.
Proof.
  induction fuel as [|fuel IH]; intros fuel' mem next pre p Hrun Hle; [discriminate|].
  destruct fuel' as [|fuel']; [lia|]. cbn [find_pre] in *.
  destruct (load mem pre) as [c|]; [|discriminate]. cbn [result_bind] in *.
  destruct (_ || _); [exact Hrun|]. apply IH; [exact Hrun|lia].
Qed.

Lemma next_node_inorder_mono fuel : forall fuel' mem next res,
  next_node_inorder fuel mem next = Ok res -> fuel <= fuel' ->
  next_node_inorder fuel' mem next = Ok res.
Proof.
  induction fuel as [|fuel IH]; intros fuel' mem next res Hrun Hle; [discriminate|].
  destruct fuel' as [|fuel']; [lia|]. cbn [next_node_inorder] in *.
  destruct (next =? NIL_addr)%nat; [exact Hrun|].
  destruct (load mem next) as [c|]; [|discriminate]. cbn [result_bind] in *.
  destruct (c_left c =? NIL_addr)%nat; [exact Hrun|].
  destruct (find_pre (S fuel) mem next (c_left c)) as [pre|] eqn:Hpre; [|discriminate].
  rewrite (find_pre_mono _ (S fuel') _ _ _ _ Hpre) by lia.
  cbn [result_bind] in *.
  destruct (load mem pre) as [pc|]; [|discriminate]. cbn [result_bind] in *.
  destruct (c_right pc =? NIL_addr)%nat; [|exact Hrun].
  apply IH; [exact Hrun|lia].
Qed.

(** With enough fuel a call on a non-empty subtree returns. *)
Lemma next_node_inorder_ok pt : forall mem k fuel,
  pt <> PNil -> ptree_wf pt -> agrees mem pt k -> psize pt < fuel ->
  exists res, next_node_inorder fuel mem (ptr pt k) = Ok res.
Proof.
  induction pt as [|a c l IHl e r IHr]; intros mem k fuel Hne Hwf Hag Hfuel; [congruence|].
  destruct (ptree_wf_node _ _ _ _ _ Hwf) as (Hwl & Hwr & Ha & Hal & Har & Hlr).
  unfold psize in Hfuel. simpl in Hfuel. rewrite length_app in Hfuel. simpl in Hfuel.
  destruct fuel as [|fuel]; [lia|].
  destruct (load_node _ _ _ _ _ _ _ Hag) as [parent Hload].
  cbn [next_node_inorder ptr].
  destruct (Nat.eqb_spec a NIL_addr); [contradiction|].
  rewrite Hload. cbn [result_bind c_left c_right].
  destruct l as [|al cl ll el rl]; [simpl; eauto|].
  set (l := PNode al cl ll el rl) in *.
  assert (Hlne : l <> PNil) by discriminate.
  destruct Hag as (_ & Hagl & _).
  assert (Hal' : ptr l NIL_addr <> NIL_addr).
  { intros Heq. apply (proj2 Hwl). rewrite <- Heq. apply ptr_in. exact Hlne. }
  destruct (Nat.eqb_spec (ptr l NIL_addr) NIL_addr); [contradiction|].
  rewrite (find_pre_rightmost l mem a NIL_addr (S fuel)); auto;
    [|apply Hwl|unfold psize; lia].
  cbn [result_bind].
  destruct (rightmost_cell mem l NIL_addr NIL_addr Hlne Hagl) as (pc & Hpc & Hright).
  unfold load at 1. rewrite Hpc. cbn [result_bind]. rewrite Hright, Nat.eqb_refl.
  rewrite (ptr_nonempty l NIL_addr a Hlne).
  apply IHl; auto.
  - apply (agrees_rethread mem l NIL_addr a NIL_addr pc); auto.
  - unfold psize. lia.
Qed.

(** The elements [l] put in front of what a continued iteration yields. *)
Definition prefix (xs : list (option A))
    (run : result (list (option A) * gmap loc tnode_cell))
  : result (list (option A) * gmap loc tnode_cell) :=
  do '(rest, mem) <- run;
  Ok (xs ++ rest, mem).

Lemma prefix_nil run : prefix [] run = run.
Proof. destruct run as [[rest mem]|f]; reflexivity. Qed.

Lemma prefix_app (xs ys : list (option A)) run :
  prefix xs (prefix ys run) = prefix (xs ++ ys) run.
Proof. destruct run as [[rest mem]|f]; simpl; [rewrite app_assoc|]; reflexivity. Qed.

Lemma iterate_visit (calls fuel : nat) mem mem' (s a head' : loc) (e : A) :
  a <> NIL_addr ->
  next_node_inorder fuel mem a = Ok (a, head', mem') ->
  (exists cell, mem' !! a = Some cell /\ c_elem cell = e) ->
  iterate (S calls) fuel mem (mk_iter s a) =
  prefix [Some e] (iterate calls fuel mem' (mk_iter s head')).
Proof.
  intros Ha Hcall (cell & Hcell & He).
  cbn [iterate]. unfold set_hasnext, set_next. cbn [head iter_set].
  destruct (Nat.eqb_spec a NIL_addr); [contradiction|]. cbn [Z.eqb].
  rewrite Hcall. cbn [result_bind].
  destruct (Nat.eqb_spec a NIL_addr); [contradiction|].
  unfold load. rewrite Hcell. cbn [result_bind]. rewrite He.
  destruct (iterate calls fuel mem' _) as [[rest m]|f]; reflexivity.
Qed.

Lemma set_right_restore (pc : tnode_cell) (a : loc) :
  c_right pc = NIL_addr -> set_right (set_right pc a) NIL_addr = pc.
Proof. destruct pc; simpl; intros ->; reflexivity. Qed.

(** The traversal of a subtree: from its root the iteration yields its
    elements in order and then continues at [k] in the memory it
    started with. *)
Lemma iterate_traverse pt : forall mem k calls fuel (s : loc),
  ptree_wf pt -> agrees mem pt k -> psize pt < fuel ->
  iterate (calls + psize pt) fuel mem (mk_iter s (ptr pt k)) =
  prefix (map Some (pinorder pt)) (iterate calls fuel mem (mk_iter s k)).
Proof.
  induction pt as [|a c l IHl e r IHr]; intros mem k calls fuel s Hwf Hag Hfuel.
  - unfold psize. simpl. rewrite Nat.add_0_r, prefix_nil. reflexivity.
  - destruct (ptree_wf_node _ _ _ _ _ Hwf) as (Hwl & Hwr & Ha & Hal & Har & Hlr).
    assert (Hsize : psize (PNode a c l e r) = psize l + S (psize r)).
    { unfold psize. simpl. rewrite length_app. reflexivity. }
    rewrite Hsize in *.
    destruct (load_node _ _ _ _ _ _ _ Hag) as [parent Hload].
    pose proof Hag as ([parent' Hcell] & Hagl & Hagr).
    destruct fuel as [|fuel]; [lia|].
    cbn [ptr pinorder]. rewrite map_app. cbn [map].
    rewrite <- prefix_app.
    assert (Hroot : forall mem0 head0,
              next_node_inorder (S fuel) mem0 a = Ok (a, head0, mem) ->
              head0 = ptr r k ->
              iterate (calls + S (psize r)) (S fuel) mem0 (mk_iter s a) =
              prefix (Some e :: map Some (pinorder r))
                     (iterate calls (S fuel) mem (mk_iter s k))).
    { intros mem0 head0 Hcall ->.
      rewrite Nat.add_succ_r.
      rewrite (iterate_visit _ _ mem0 mem s a (ptr r k) e Ha Hcall)
        by (eexists; split; [exact Hcell|reflexivity]).
      rewrite (IHr mem k calls (S fuel) s Hwr Hagr) by lia.
      rewrite prefix_app. reflexivity. }
    destruct l as [|al cl ll el rl].
    + (* no left subtree, visit current node and move right *)
      unfold psize at 1. cbn [addrs List.length Nat.add pinorder map].
      rewrite prefix_nil. apply (Hroot mem (ptr r k)); [|reflexivity].
      cbn [next_node_inorder]. destruct (Nat.eqb_spec a NIL_addr); [contradiction|].
      rewrite Hload. reflexivity.
    + set (l := PNode al cl ll el rl) in *.
      assert (Hlne : l <> PNil) by discriminate.
      assert (Hal' : ptr l NIL_addr <> NIL_addr).
      { intros Heq. apply (proj2 Hwl). rewrite <- Heq. apply ptr_in. exact Hlne. }
      destruct (rightmost_cell mem l NIL_addr NIL_addr Hlne Hagl) as (pc & Hpc & Hright).
      set (pre := rightmost l NIL_addr) in *.
      set (mem1 := <[pre := set_right pc a]> mem).
      assert (Hpre_in : elem_of pre (addrs l)) by (apply rightmost_in; exact Hlne).
      assert (Hpre_a : pre <> a) by (intros ->; contradiction).
      assert (Hag1 : agrees mem1 l a)
        by (apply (agrees_rethread mem l NIL_addr a NIL_addr pc); auto).
      (* the first call threads the predecessor and goes on in the left subtree *)
      assert (Hfirst : next_node_inorder (S fuel) mem a
                       = next_node_inorder fuel mem1 (ptr l a)).
      { cbn [next_node_inorder]. destruct (Nat.eqb_spec a NIL_addr); [contradiction|].
        rewrite Hload. cbn [result_bind c_left c_right].
        destruct (Nat.eqb_spec (ptr l NIL_addr) NIL_addr); [contradiction|].
        rewrite (find_pre_rightmost l mem a NIL_addr (S fuel)); auto;
          [|apply Hwl|lia].
        cbn [result_bind]. fold pre. unfold load at 1. rewrite Hpc.
        cbn [result_bind]. rewrite Hright, Nat.eqb_refl.
        rewrite (ptr_nonempty l NIL_addr a Hlne). reflexivity. }
      destruct (next_node_inorder_ok l mem1 a fuel Hlne Hwl Hag1 ltac:(lia))
        as [res Hres].
      assert (Hcalls : calls + (psize l + S (psize r))
                       = S (calls + S (psize r) + (psize l - 1) )).
      { assert (0 < psize l) by (unfold psize; subst l; simpl;
                                 rewrite length_app; simpl; lia). lia. }
      assert (HstepA : iterate (calls + (psize l + S (psize r))) (S fuel) mem (mk_iter s a)
                       = iterate (calls + S (psize r) + psize l) (S fuel) mem1
                                 (mk_iter s (ptr l a))).
      { assert (Hcalls' : calls + S (psize r) + psize l
                          = S (calls + S (psize r) + (psize l - 1))) by lia.
        rewrite Hcalls, Hcalls'. cbn [iterate]. unfold set_hasnext, set_next.
        cbn [head iter_set].
        destruct (Nat.eqb_spec a NIL_addr); [contradiction|].
        destruct (Nat.eqb_spec (ptr l a) NIL_addr) as [Heq|_].
        { exfalso. apply Hal'. rewrite (ptr_nonempty l NIL_addr a Hlne). exact Heq. }
        rewrite Hfirst, Hres.
        rewrite (next_node_inorder_mono fuel (S fuel) _ _ _ Hres) by lia.
        reflexivity. }
      rewrite HstepA.
      rewrite (IHl mem1 a (calls + S (psize r)) (S fuel) s Hwl Hag1) by lia.
      f_equal.
      (* back at the root: the thread is found and removed *)
      apply (Hroot mem1 (ptr r k)); [|reflexivity].
      assert (Hload1 : load mem1 a = Ok (mk_cell c e parent (ptr l NIL_addr) (ptr r k))).
      { unfold load, mem1. rewrite lookup_insert_ne by exact Hpre_a.
        unfold load in Hload. exact Hload. }
      assert (Hrestore : <[pre := set_right (set_right pc a) NIL_addr]> mem1 = mem).
      { unfold mem1. rewrite insert_insert_eq, set_right_restore by exact Hright.
        apply insert_id. exact Hpc. }
      cbn [next_node_inorder]. destruct (Nat.eqb_spec a NIL_addr); [contradiction|].
      rewrite Hload1. cbn [result_bind c_left c_right].
      destruct (Nat.eqb_spec (ptr l NIL_addr) NIL_addr); [contradiction|].
      rewrite (ptr_nonempty l NIL_addr a Hlne).
      rewrite (find_pre_rightmost l mem1 a a (S fuel)); auto; [|apply Hwl|lia].
      cbn [result_bind]. rewrite (rightmost_nonempty l a NIL_addr Hlne). fold pre.
      unfold load at 1. unfold mem1 at 1. rewrite lookup_insert_eq.
      cbn [result_bind set_right c_right].
      destruct (Nat.eqb_spec a NIL_addr); [contradiction|].
      change {| c_color := c_color pc; c_elem := c_elem pc; c_parent := c_parent pc;
                c_left := c_left pc; c_right := a |} with (set_right pc a) in *.
      rewrite Hrestore. rewrite Hload. reflexivity.
Qed.

(** A complete iteration over a tree at rest yields its elements in
    order and leaves the memory as it found it. *)
Lemma iterate_complete pt mem (s : loc) (calls fuel : nat) :
  ptree_wf pt -> agrees mem pt NIL_addr ->
  psize pt < calls -> psize pt < fuel ->
  iterate calls fuel mem (mk_iter s (ptr pt NIL_addr))
  = Ok (map Some (pinorder pt), mem).
Proof.
  intros Hwf Hag Hcalls Hfuel.
  replace calls with (S (calls - psize pt - 1) + psize pt) by lia.
  rewrite iterate_traverse by assumption.
  cbn [iterate]. unfold set_hasnext. simpl. rewrite app_nil_r. reflexivity.
Qed.

End Iteration.
Arguments tnode_cell A : clear implicits.
Arguments ptree A : clear implicits.

(** ** A memory image for every tree *)

Section Layout.
Context {A : Type}.
Implicit Types (t : tnode A) (pt : ptree A) (mem : gmap loc (tnode_cell A)).

(** The nodes of [t] at consecutive addresses from [base], in order. *)
Fixpoint layout t (base : loc) : ptree A :=
  match t with
  | NIL => PNil
  | Node c l e r =>
      let a := base + List.length (inorder l) in
      PNode a c (layout l base) e (layout r (S a))
  end.

(** The memory that holds the nodes of [pt] below [parent], with [k] in
    the [right] field of the last node. *)
Fixpoint image pt (parent k : loc) : gmap loc (tnode_cell A) :=
  match pt with
  | PNil => ∅
  | PNode a c l e r =>
      <[a := mk_cell c e parent (ptr l NIL_addr) (ptr r k)]>
        (image l a NIL_addr ∪ image r a k)
  end.


Lemma addrs_layout t base : addrs (layout t base) = seq base (List.length (inorder t)).
Proof.
  revert base. induction t as [|c l IHl e r IHr]; intros base; simpl; [reflexivity|].
  rewrite IHl, IHr, length_app. simpl.
  rewrite seq_app. simpl. reflexivity.
Qed.

Lemma layout_wf t base : 0 < base -> ptree_wf (layout t base).
Proof.
  intros Hbase. unfold ptree_wf. rewrite addrs_layout. split.
  - apply NoDup_ListNoDup, seq_NoDup.
  - rewrite list_elem_of_In, in_seq. unfold NIL_addr. lia.
Qed.

Lemma image_outside pt parent k x :
  ~ elem_of x (addrs pt) -> image pt parent k !! x = None.
Proof.
  revert parent k. induction pt as [|a c l IHl e r IHr]; intros parent k Hx; simpl.
  - apply lookup_empty.
  - simpl in Hx. rewrite not_elem_of_app, not_elem_of_cons in Hx.
    destruct Hx as (Hl & Ha & Hr).
    rewrite lookup_insert_ne by congruence.
    apply lookup_union_None. auto.
Qed.

Lemma agrees_union_l mem mem' pt k : agrees mem pt k -> agrees (mem ∪ mem') pt k.
Proof.
  revert k. induction pt as [|a c l IHl e r IHr]; intros k Hag; [exact I|].
  destruct Hag as ([parent Hm] & Hl & Hr). split; [|split; auto].
  exists parent. apply lookup_union_Some_l. exact Hm.
Qed.

Lemma agrees_union_r mem mem' pt k :
  (forall x, elem_of x (addrs pt) -> mem !! x = None) ->
  agrees mem' pt k -> agrees (mem ∪ mem') pt k.
Proof.
  revert k. induction pt as [|a c l IHl e r IHr]; intros k Hout Hag; [exact I|].
  destruct Hag as ([parent Hm] & Hl & Hr).
  assert (Houtl : forall x, elem_of x (addrs l) -> mem !! x = None).
  { intros x Hx. apply Hout. simpl. apply elem_of_app. left. exact Hx. }
  assert (Houtr : forall x, elem_of x (addrs r) -> mem !! x = None).
  { intros x Hx. apply Hout. simpl. apply elem_of_app. right. right. exact Hx. }
  split; [|split; auto].
  exists parent. rewrite lookup_union_r; [exact Hm|].
  apply Hout. simpl. apply elem_of_app. right. left.
Qed.

Lemma image_agrees pt parent k : ptree_wf pt -> agrees (image pt parent k) pt k.
Proof.
  revert parent k. induction pt as [|a c l IHl e r IHr]; intros parent k Hwf; [exact I|].
  destruct (ptree_wf_node _ _ _ _ _ Hwf) as (Hwl & Hwr & Ha & Hal & Har & Hlr).
  simpl. split; [|split].
  - exists parent. apply lookup_insert_eq.
  - apply agrees_frame; [|exact Hal]. apply agrees_union_l, IHl. exact Hwl.
  - apply agrees_frame; [|exact Har]. apply agrees_union_r; [|apply IHr; exact Hwr].
    intros x Hx. apply image_outside. intros Hxl. exact (Hlr x Hxl Hx).
Qed.

End Layout.

(** ** Sequences of insertions *)

Section Sequences.
Context {A : Type} (code : fn_ptr -> cmp_fn A).
Implicit Types (s : set_t A) (xs seen : list A).






End Sequences.



(** ** Lookup after insertion *)

Section Lookup.
Context {A : Type} (code : fn_ptr -> cmp_fn A).
Implicit Types (t : tnode A) (s : set_t A).

Lemma set_get_unique s (x y : A) :
  TotalOrderCmp (code (cmpfn s)) -> set_wf code s ->
  In y (elements s) -> cmp_eqv (code (cmpfn s)) x y -> set_get code s x = Some y.
Proof.
  intros Hord Hwf Hy Hxy.
  pose proof (set_get_spec code s x Hord Hwf) as Hget.
  destruct (set_get code s x) as [y'|].
  - destruct Hget as [Hy' Hxy']. f_equal.
    apply (sorted_eqv_unique (code (cmpfn s)) (elements s)); auto.
    + apply Hwf.
    + apply (cmp_eqv_trans _ y' x y); [apply cmp_eqv_sym; assumption|assumption].
  - exfalso. apply Hget. exists y. auto.
Qed.

Lemma set_insert_get_same s (x : A) r s' :
  TotalOrderCmp (code (cmpfn s)) -> set_wf code s ->
  set_insert code s x = Ok (r, s') -> set_get code s' x = Some x.
Proof.
  intros Hord Hwf Hrun.
  destruct (set_insert_spec code s x Hord Hwf) as (r0 & s0 & Hrun0 & Hwf' & Hc & Hcase).
  rewrite Hrun in Hrun0. injection Hrun0 as <- <-.
  assert (Hord' : TotalOrderCmp (code (cmpfn s'))) by (rewrite Hc; exact Hord).
  apply set_get_unique; auto.
  - destruct r as [y|].
    + destruct Hcase as (_ & _ & l1 & l2 & _ & ->). apply in_elt.
    + destruct Hcase as (_ & _ & l1 & l2 & _ & ->). apply in_elt.
  - apply (cmp_eqv_refl (code (cmpfn s'))).
Qed.

Lemma set_insert_get_other s (x z : A) r s' :
  TotalOrderCmp (code (cmpfn s)) -> set_wf code s ->
  set_insert code s x = Ok (r, s') -> ~ cmp_eqv (code (cmpfn s)) z x ->
  set_get code s' z = set_get code s z.
Proof.
  intros Hord Hwf Hrun Hne.
  destruct (set_insert_spec code s x Hord Hwf) as (r0 & s0 & Hrun0 & Hwf' & Hc & _).
  rewrite Hrun in Hrun0. injection Hrun0 as <- <-.
  assert (Hord' : TotalOrderCmp (code (cmpfn s'))) by (rewrite Hc; exact Hord).
  pose proof (set_insert_mem code s x r s' Hord Hwf Hrun z) as Hmem.
  pose proof (set_insert_elements code s x r s' Hord Hwf Hrun) as Hel.
  pose proof (set_get_spec code s' z Hord' Hwf') as Hget'.
  destruct (set_get code s' z) as [y'|].
  - destruct Hget' as [Hy' Hzy']. rewrite Hc in Hzy'. symmetry.
    apply set_get_unique; auto.
    destruct (Hel y' Hy') as [->|Hin]; [contradiction|exact Hin].
  - pose proof (set_get_spec code s z Hord Hwf) as Hget.
    destruct (set_get code s z) as [y|]; [|reflexivity].
    exfalso. apply Hget', Hmem. left. exists y. exact Hget.
Qed.

End Lookup.

(** [X11] After [set_insert] of an element, [set_get] of it returns that
    very element, whether it was added or took the place of an equal
    one, and [set_get] of anything that does not compare equal to it
    returns what it returned before. *)
Theorem set_insert_then_get {A : Type} (code : fn_ptr -> cmp_fn A)
    (s : set_t A) (x : A) :
  TotalOrderCmp (code (cmpfn s)) -> set_wf code s ->
  exists r s',
    set_insert code s x = Ok (r, s') /\
    set_get code s' x = Some x /\
    forall z, ~ cmp_eqv (code (cmpfn s)) z x -> set_get code s' z = set_get code s z.
Proof.
  intros Hord Hwf.
  destruct (set_insert_spec code s x Hord Hwf) as (r & s' & Hrun & _).
  exists r, s'. split; [exact Hrun|]. split.
  - exact (set_insert_get_same code s x r s' Hord Hwf Hrun).
  - intros z Hz. exact (set_insert_get_other code s x z r s' Hord Hwf Hrun Hz).
Qed.

(** The premises hold for the example set {1, 2}: after the insertion of
    3 it is found, and 1 is found as before. *)
Lemma set_insert_then_get_witness :
  exists r s',
    set_insert Z_code example_set_a 3%Z = Ok (r, s') /\
    set_get Z_code s' 3%Z = Some 3%Z /\
    set_get Z_code s' 1%Z = Some 1%Z.
Proof.
  destruct (set_insert_then_get Z_code example_set_a 3%Z Z_sub_total_order example_set_a_wf)
    as (r & s' & Hrun & Hsame & Hother).
  exists r, s'. split; [exact Hrun|]. split; [exact Hsame|].
  rewrite (Hother 1%Z); [reflexivity|]. intros H. vm_compute in H. discriminate.
Defined.

(** ** The depth of the tree *)

Section Depth.
Context {A : Type}.
Implicit Types (t l r : tnode A).

(** The number of nodes on the longest way from [t] down to a leaf. *)
Fixpoint height t : nat :=
  match t with
  | NIL => 0
  | Node _ l _ r => S (Nat.max (height l) (height r))
  end.

(** The number of calls of the comparison function that [node_search]
    makes: one for each pass of its loop. *)
Fixpoint node_search_calls (cmp : cmp_fn A) (curr : tnode A) (elem : A) : nat :=
  match curr with
  | NIL => 0
  | Node _ l e r =>
      let direction := cmp elem e in
      S (if (direction >? 0)%Z then node_search_calls cmp r elem
         else if (direction <? 0)%Z then node_search_calls cmp l elem
         else 0)
  end.

Lemma node_search_calls_height (cmp : cmp_fn A) t (elem : A) :
  node_search_calls cmp t elem <= height t.
Proof.
  induction t as [|c l IHl e r IHr]; simpl; [lia|].
  destruct (cmp elem e >? 0)%Z; [lia|]. destruct (cmp elem e <? 0)%Z; lia.
Qed.

Lemma rb_tree_height t n :
  rb_tree t n ->
  height t <= 2 * n + (if is_red t then 1 else 0) /\
  2 ^ n <= S (List.length (inorder t)).
Proof.
  induction 1 as [|l e r n Hl [IHl1 IHl2] Hr [IHr1 IHr2] Hcl Hcr
                  |l e r n Hl [IHl1 IHl2] Hr [IHr1 IHr2]].
  - simpl. lia.
  - unfold is_red in *. rewrite Hcl in IHl1. rewrite Hcr in IHr1.
    cbn [height inorder color_of]. rewrite length_app. cbn [List.length]. lia.
  - cbn [height inorder color_of is_red]. rewrite length_app. cbn [List.length].
    unfold is_red. cbn [color_of]. rewrite Nat.pow_succ_r'.
    destruct (is_red l), (is_red r); lia.
Qed.

End Depth.

(** [X12] A well-formed set of [n] elements is a tree of depth at most
    [2 * log2 (n + 1)], so [set_get] finds or misses any element with at
    most that many calls of the comparison function. *)
Theorem set_get_logarithmic {A : Type} (code : fn_ptr -> cmp_fn A)
    (s : set_t A) (x : A) :
  set_wf code s ->
  height (root s) <= 2 * Nat.log2 (set_length s + 1) /\
  node_search_calls (code (cmpfn s)) (root s) x <= 2 * Nat.log2 (set_length s + 1).
Proof.
  intros [[Hblack [n Hrb]] [_ Hlen]].
  assert (Hh : height (root s) <= 2 * Nat.log2 (set_length s + 1)).
  { destruct (rb_tree_height (root s) n Hrb) as [Hh Hsize].
    unfold is_red in Hh. rewrite Hblack in Hh.
    unfold set_length, elements in *. rewrite Hlen, Nat.add_1_r.
    apply Nat.log2_le_pow2 in Hsize; lia. }
  split; [exact Hh|].
  pose proof (node_search_calls_height (code (cmpfn s)) (root s) x). lia.
Qed.

(** The premise holds for the example set {1, 2}: its depth is 2. *)
Lemma set_get_logarithmic_witness :
  height (root example_set_a) <= 2 /\
  node_search_calls (Z_code (cmpfn example_set_a)) (root example_set_a) 2%Z <= 2.
Proof.
  exact (set_get_logarithmic Z_code example_set_a 2%Z example_set_a_wf).
Defined.

(** ** An iteration that is given up *)

Section Abandon.
Context {A : Type}.
Implicit Types (mem : gmap loc (tnode_cell A)) (iter : set_iter_t) (pt : ptree A).

(** [set_destroyiter]: the loop
    [while (set_hasnext(iter)) next_node_inorder(iter);] that finishes
    the traversal before the iterator is freed. The result is the
    memory. *)
Fixpoint set_destroyiter (rounds fuel : nat) mem iter
  : result (gmap loc (tnode_cell A)) :=
  match rounds with
  | 0 => Abort TIMEOUT
  | S rounds' =>
      if (set_hasnext iter =? 0)%Z then Ok mem
      else
        do '(_, head', mem') <- next_node_inorder fuel mem (head iter);
        set_destroyiter rounds' fuel mem' {| iter_set := iter_set iter; head := head' |}
  end.

(** [n] calls of [set_next], one after the other, whatever they return. *)
Fixpoint set_next_n (n fuel : nat) mem iter
  : result (list (option A) * set_iter_t * gmap loc (tnode_cell A)) :=
  match n with
  | 0 => Ok ([], iter, mem)
  | S n' =>
      do '(elem, iter', mem') <- set_next fuel mem iter;
      do '(rest, iter'', mem'') <- set_next_n n' fuel mem' iter';
      Ok (elem :: rest, iter'', mem'')
  end.

Lemma set_destroyiter_mono rounds : forall rounds' fuel mem iter m,
  set_destroyiter rounds fuel mem iter = Ok m -> rounds <= rounds' ->
  set_destroyiter rounds' fuel mem iter = Ok m.
Proof.
  induction rounds as [|rounds IH]; intros rounds' fuel mem iter m Hrun Hle;
    [discriminate|].
  destruct rounds' as [|rounds']; [lia|]. cbn [set_destroyiter] in *.
  destruct (set_hasnext iter =? 0)%Z; [exact Hrun|].
  destruct (next_node_inorder fuel mem (head iter)) as [[[curr head'] mem']|];
    [|discriminate].
  cbn [result_bind] in *. apply IH; [exact Hrun|lia].
Qed.

(** Finishing the traversal leaves the memory a full iteration leaves. *)
Lemma set_destroyiter_iterate calls : forall fuel mem iter xs m,
  iterate calls fuel mem iter = Ok (xs, m) ->
  set_destroyiter calls fuel mem iter = Ok m.
Proof.
  induction calls as [|calls IH]; intros fuel mem iter xs m Hrun; [discriminate|].
  cbn [iterate set_destroyiter] in *.
  destruct (set_hasnext iter =? 0)%Z; [injection Hrun as _ <-; reflexivity|].
  unfold set_next in Hrun.
  destruct (next_node_inorder fuel mem (head iter)) as [[[curr head'] mem']|];
    [|discriminate].
  cbn [result_bind] in *.
  destruct (curr =? NIL_addr)%nat.
  - cbn [result_bind] in Hrun.
    destruct (iterate calls fuel mem' _) as [[rest m']|] eqn:Hrest; [|discriminate].
    injection Hrun as _ <-. eapply IH. exact Hrest.
  - destruct (load mem' curr) as [c|]; [|discriminate]. cbn [result_bind] in Hrun.
    destruct (iterate calls fuel mem' _) as [[rest m']|] eqn:Hrest; [|discriminate].
    injection Hrun as _ <-. eapply IH. exact Hrest.
Qed.

(** The first [n] calls of [set_next] return the first [n] results of
    the full iteration, then NULL, and what is left of the iteration can
    still be made from the state they leave. *)
Lemma set_next_n_iterate n : forall calls fuel mem iter xs m,
  iterate calls fuel mem iter = Ok (xs, m) -> 0 < fuel ->
  exists iter' mem' calls',
    set_next_n n fuel mem iter
    = Ok (take n xs ++ replicate (n - List.length xs) None, iter', mem') /\
    calls' <= calls /\
    iterate calls' fuel mem' iter' = Ok (drop n xs, m).
Proof.
  induction n as [|n IH]; intros calls fuel mem iter xs m Hrun Hfuel.
  - exists iter, mem, calls. split; [reflexivity|]. split; [lia|].
    rewrite drop_0. exact Hrun.
  - destruct calls as [|calls]; [discriminate|].
    pose proof Hrun as Hrun0. cbn [iterate] in Hrun.
    destruct (Z.eqb_spec (set_hasnext iter) 0) as [Hend|Hmore].
    + injection Hrun as <- <-.
      assert (Hhead : head iter = NIL_addr).
      { unfold set_hasnext in Hend.
        destruct (Nat.eqb_spec (head iter) NIL_addr); [assumption|discriminate]. }
      assert (Hnext : set_next fuel mem iter = Ok (None, iter, mem)).
      { unfold set_next. rewrite Hhead. destruct fuel as [|fuel]; [lia|].
        cbn [next_node_inorder Nat.eqb NIL_addr result_bind].
        destruct iter as [s hd]. simpl in Hhead. subst hd. reflexivity. }
      destruct (IH (S calls) fuel mem iter [] mem Hrun0 Hfuel)
        as (iter' & mem' & calls' & Hn & Hle & Hrest).
      exists iter', mem', calls'. cbn [set_next_n]. rewrite Hnext. cbn [result_bind].
      rewrite Hn. cbn [result_bind]. rewrite drop_nil in *.
      split; [|split; [exact Hle|exact Hrest]].
      rewrite !take_nil. cbn [List.length app]. rewrite !Nat.sub_0_r. reflexivity.
    + destruct (set_next fuel mem iter) as [[[elem iter1] mem1]|] eqn:Hnext;
        [|discriminate].
      cbn [result_bind] in Hrun.
      destruct (iterate calls fuel mem1 iter1) as [[rest m1]|] eqn:Hrest; [|discriminate].
      cbn [result_bind] in Hrun. injection Hrun as <- <-.
      destruct (IH calls fuel mem1 iter1 rest m1 Hrest Hfuel)
        as (iter' & mem' & calls' & Hn & Hle & Hrest').
      exists iter', mem', calls'. cbn [set_next_n]. rewrite Hnext. cbn [result_bind].
      rewrite Hn. cbn [result_bind]. split; [reflexivity|]. split; [lia|exact Hrest'].
Qed.

End Abandon.

(** [X13] An iteration over a set can be given up at any point: after
    any number of calls of [set_next] on a new iterator, which return
    the elements in ascending order and then NULL, [set_destroyiter]
    finishes the traversal and leaves every node of the tree as it was
    before the iteration. *)
Theorem set_destroyiter_restores_tree {A : Type} (pt : ptree A)
    (mem : gmap loc (tnode_cell A)) (set_addr : loc) (n rounds fuel : nat) :
  ptree_wf pt -> agrees mem pt NIL_addr ->
  psize pt < rounds -> psize pt < fuel ->
  exists (iter' : set_iter_t) (mem' : gmap loc (tnode_cell A)),
    set_next_n n fuel mem {| iter_set := set_addr; head := ptr pt NIL_addr |}
    = Ok (take n (map Some (pinorder pt)) ++ replicate (n - psize pt) None, iter', mem') /\
    set_destroyiter rounds fuel mem' iter' = Ok mem.
Proof.
  intros Hwf Hag Hrounds Hfuel.
  pose proof (iterate_complete pt mem set_addr rounds fuel Hwf Hag Hrounds Hfuel) as Hall.
  destruct (set_next_n_iterate n rounds fuel mem _ _ mem Hall ltac:(lia))
    as (iter' & mem' & calls' & Hn & Hle & Hrest).
  assert (Hsize : List.length (map Some (pinorder pt)) = psize pt).
  { rewrite length_map. unfold psize. clear.
    induction pt as [|a c l IHl e r IHr]; simpl; [reflexivity|].
    rewrite !length_app. simpl. congruence. }
  rewrite Hsize in Hn. exists iter', mem'. split; [exact Hn|].
  apply (set_destroyiter_mono calls'); [|exact Hle].
  eapply set_destroyiter_iterate. exact Hrest.
Qed.

(** The premises hold for the image of the example set {1, 2} at the
    addresses 1 and 2: after one call of [set_next], which returns 1,
    the iterator is destroyed and the memory is the image again. *)
Lemma set_destroyiter_restores_tree_witness :
  let pt := layout (root example_set_a) 1 in
  let mem := image pt NIL_addr NIL_addr in
  exists (iter' : set_iter_t) (mem' : gmap loc (tnode_cell Z)),
    set_next_n 1 3 mem {| iter_set := 9; head := ptr pt NIL_addr |}
    = Ok ([Some 1%Z], iter', mem') /\
    set_destroyiter 3 3 mem' iter' = Ok mem.
Proof.
  intros pt mem.
  destruct (set_destroyiter_restores_tree pt mem 9 1 3 3) as (iter' & mem' & Hn & Hd).
  - apply layout_wf. lia.
  - apply image_agrees, layout_wf. lia.
  - vm_compute. lia.
  - vm_compute. lia.
  - exists iter', mem'. split; [exact Hn|exact Hd].
Defined.

(** ** The sizes of union, intersection and difference *)




(** ** The runtime validation checks the balance invariant *)

Section Validation.
Context {A : Type}.
Implicit Types (t l r : tnode A) (s : set_t A).

Lemma rec_validate_rbtree_sound t : forall black_count path_black_count p : Z,
  (0 <= black_count)%Z ->
  rec_validate_rbtree t black_count path_black_count = Ok p ->
  exists n : nat,
    rb_tree t n /\ p = (black_count + Z.of_nat n)%Z /\
    (path_black_count = (-1)%Z \/ path_black_count = p).
Proof.
  induction t as [|c l IHl e r IHr]; intros bc pbc p Hbc Hrun; cbn [rec_validate_rbtree] in Hrun.
  - exists 0. split; [constructor|].
    destruct (Z.eqb_spec pbc (-1)) as [->|Hset].
    + rewrite Z.eqb_refl in Hrun. injection Hrun as <-. split; [lia|auto].
    + destruct (Z.eqb_spec bc pbc) as [->|]; [|discriminate].
      injection Hrun as <-. split; [lia|auto].
  - destruct c.
    + destruct (is_red l || is_red r) eqn:Hred; [discriminate|].
      apply orb_false_iff in Hred. destruct Hred as [Hl Hr].
      cbn [result_bind] in Hrun.
      destruct (rec_validate_rbtree l bc pbc) as [p1|] eqn:H1; [|discriminate].
      cbn [result_bind] in Hrun.
      destruct (IHl bc pbc p1 Hbc H1) as (n1 & Hrb1 & -> & Hp1).
      destruct (IHr bc _ p Hbc Hrun) as (n2 & Hrb2 & -> & Hp2).
      assert (n1 = n2) by lia. subst n2.
      exists n1. split; [|split; [reflexivity|]].
      * unfold is_red in Hl, Hr. constructor; auto.
        -- destruct (color_of l); [discriminate|reflexivity].
        -- destruct (color_of r); [discriminate|reflexivity].
      * destruct Hp1 as [-> | ->]; auto.
    + cbn [result_bind] in Hrun.
      destruct (rec_validate_rbtree l (bc + 1) pbc) as [p1|] eqn:H1; [|discriminate].
      cbn [result_bind] in Hrun.
      destruct (IHl (bc + 1)%Z pbc p1 ltac:(lia) H1) as (n1 & Hrb1 & -> & Hp1).
      destruct (IHr (bc + 1)%Z _ p ltac:(lia) Hrun) as (n2 & Hrb2 & -> & Hp2).
      assert (n1 = n2) by lia. subst n2.
      exists (S n1). split; [constructor; assumption|]. split; [lia|].
      destruct Hp1 as [-> | ->]; auto.
Qed.

End Validation.

(** [X15] [validate_rbtree] passes exactly for the sets whose tree is
    balanced as a red-black tree: the root is black, no red node has a
    red child and every way from the root to a leaf passes the same
    number of black nodes. On every other tree one of its assertions
    ends the process. *)
Theorem validate_rbtree_checks_balance {A : Type} (s : set_t A) :
  validate_rbtree s = Ok tt <-> set_balanced s.
Proof.
  unfold validate_rbtree, set_balanced. split.
  - destruct (root s) as [|[] l e r] eqn:Hroot; [|discriminate|].
    + intros _. split; [reflexivity|]. exists 0. constructor.
    + intros Hrun.
      destruct (rec_validate_rbtree (Node BLACK l e r) 0 (-1)) as [p|] eqn:Hrec;
        [|discriminate].
      destruct (rec_validate_rbtree_sound _ 0 (-1) p (Z.le_refl 0) Hrec) as (n & Hrb & _).
      split; [reflexivity|]. exists n. exact Hrb.
  - intros [Hblack [n Hrb]].
    destruct (root s) as [|c l e r] eqn:Hroot; [reflexivity|].
    simpl in Hblack. subst c.
    rewrite (rec_validate_rbtree_ok _ n Hrb 0 (-1)) by (lia || auto). reflexivity.
Qed.

End RBSet.

(** * Insertion into either container *)

(** [C7] On a well-formed set and a well-formed map, [set_insert] and
    [map_insert] return. They return NULL exactly when no element (no
    key) comparing equal to the inserted one was present; the container
    then holds one element more. Otherwise they return the stored
    element (entry) that compares equal, the new one stands in its
    place, and the length is unchanged. *)
Theorem insert_returns_previous {A K V : Type}
    (code : RBSet.fn_ptr -> cmp_fn A) (s : RBSet.set_t A) (x : A)
    (m : HashMap.map_t K V) (k : K) (v : V) :
  TotalOrderCmp (code (RBSet.cmpfn s)) -> RBSet.set_wf code s ->
  HashMap.map_wf m -> HashMap.hash_respects_cmp (HashMap.cmpfn m) (HashMap.hashfn m) ->
  (exists r s',
     RBSet.set_insert code s x = Ok (r, s') /\ RBSet.set_wf code s' /\
     match r with
     | None =>
         ~ RBSet.set_mem code s x /\
         RBSet.set_length s' = RBSet.set_length s + 1 /\
         exists l1 l2, RBSet.elements s = l1 ++ l2 /\
                       RBSet.elements s' = l1 ++ x :: l2
     | Some y =>
         In y (RBSet.elements s) /\ cmp_eqv (code (RBSet.cmpfn s)) x y /\
         RBSet.set_length s' = RBSet.set_length s /\
         exists l1 l2, RBSet.elements s = l1 ++ y :: l2 /\
                       RBSet.elements s' = l1 ++ x :: l2
     end) /\
  (exists r m',
     HashMap.map_insert m k v = Ok (r, m') /\ HashMap.map_wf m' /\
     match r with
     | None =>
         ~ HashMap.map_mem m k /\
         HashMap.map_length m' = HashMap.map_length m + 1 /\
         Permutation (HashMap.entries m')
                     (HashMap.mk_entry k v :: HashMap.entries m)
     | Some old =>
         In old (HashMap.entries m) /\
         HashMap.cmpfn m k (HashMap.key old) = 0%Z /\
         HashMap.map_length m' = HashMap.map_length m /\
         exists l1 l2, HashMap.entries m = l1 ++ old :: l2 /\
                       HashMap.entries m' = l1 ++ HashMap.mk_entry k v :: l2
     end).
Proof.
  intros Hord Hswf Hmwf Hhash. split.
  - destruct (RBSet.set_insert_spec code s x Hord Hswf)
      as (r & s' & Hrun & Hwf' & _ & Hcase).
    exists r, s'. split; [exact Hrun|]. split; [exact Hwf'|].
    destruct r as [y|].
    + destruct Hcase as (Hxy & Hlen & l1 & l2 & Hl & Hl').
      split; [rewrite Hl; apply in_or_app; right; left; reflexivity|].
      split; [exact Hxy|]. split; [exact Hlen|]. eauto.
    + destruct Hcase as (Habs & Hlen & Hl).
      split; [|split; [exact Hlen|exact Hl]].
      intros (y & Hy & Hxy). rewrite Forall_forall in Habs.
      apply (Habs y); [apply list_elem_of_In; exact Hy|exact Hxy].
  - destruct (HashMap.map_insert_spec m k v Hmwf Hhash)
      as (r & m' & Hrun & Hwf' & _ & _ & Hcase).
    exists r, m'. split; [exact Hrun|]. split; [exact Hwf'|].
    destruct r as [old|].
    + destruct Hcase as (Hk & Hlen & l1 & l2 & Hl & Hl').
      split; [rewrite Hl; apply in_or_app; right; left; reflexivity|].
      split; [exact Hk|]. split; [exact Hlen|]. eauto.
    + destruct Hcase as (Habs & Hlen & Hperm).
      split; [|split; [exact Hlen|exact Hperm]].
      intros (e & He & Hk). rewrite Forall_forall in Habs.
      apply (Habs e); [apply list_elem_of_In; exact He|exact Hk].
Qed.

(** A map of integers, hashed by their value, that holds 7 -> 1. *)
Definition example_map : HashMap.map_t Z Z :=
  {| HashMap.cmpfn := Z.sub; HashMap.hashfn := fun k => k;
     HashMap.buckets := <[7 := [HashMap.mk_entry 7%Z 1%Z]]> (replicate 16 []);
     HashMap.capacity := 16; HashMap.length := 1;
     HashMap.rehash_threshold := 12 |}.

Lemma example_map_wf : HashMap.map_wf example_map.
Proof.
  destruct (@HashMap.map_create Z Z true true Z.sub (fun k : Z => k)) as [m0|] eqn:Hm0;
    [|discriminate].
  pose proof (HashMap.map_create_wf _ _ _ Hm0) as Hwf0.
  injection Hm0 as <-.
  destruct (HashMap.map_insert_spec _ 7%Z 1%Z Hwf0) as (r & m' & Hrun & Hwf & _).
  { intros k1 k2. simpl. lia. }
  vm_compute in Hrun. injection Hrun as _ <-. exact Hwf.
Qed.

(** The premises hold for the example set and map: inserting 2 into
    {1, 2} returns the stored 2, and inserting the key 7 returns the
    stored entry 7 -> 1; both lengths stay. *)
Lemma insert_returns_previous_witness :
  exists s' m',
    RBSet.set_insert Z_code RBSet.example_set_a 2%Z = Ok (Some 2%Z, s') /\
    RBSet.set_length s' = 2 /\
    HashMap.map_insert example_map 7%Z 8%Z
    = Ok (Some (HashMap.mk_entry 7%Z 1%Z), m') /\
    HashMap.map_length m' = 1.
Proof.
  destruct (insert_returns_previous Z_code RBSet.example_set_a 2%Z example_map 7%Z 8%Z)
    as [(r & s' & Hs & _ & Hsr) (r' & m' & Hm & _ & Hmr)].
  - exact Z_sub_total_order.
  - exact RBSet.example_set_a_wf.
  - exact example_map_wf.
  - intros k1 k2. simpl. lia.
  - exists s', m'.
    assert (Hr : r = Some 2%Z).
    { vm_compute in Hs. injection Hs as <- _. reflexivity. }
    assert (Hr' : r' = Some (HashMap.mk_entry 7%Z 1%Z)).
    { vm_compute in Hm. injection Hm as <- _. reflexivity. }
    subst r r'. split; [exact Hs|]. split; [apply Hsr|].
    split; [exact Hm|apply Hmr].
Defined.

(** * [index.c] *)

Module Index.
Import DList.

(** An address held in a pointer field. *)
Definition ptr : Type := nat.

(** [struct index]: two pointers and two counters. *)
Record index_t : Type := mk_index {
  terms : ptr;
  doc_names : ptr;
  number_of_docs : nat;
  number_of_terms : nat
}.

Section Defs.
(** The C [double] of a score, with its [<] test. *)
Variable double : Type.
Variable double_lt : double -> double -> bool.

(** [query_result_t] of [index.h]. *)
Record query_result_t : Type := mk_query_result {
  doc_name : string;
  score : double
}.


(** [index_create] allocates the struct and sets no field: on success the
    index holds whatever the fresh memory [uninit] contains. *)
Definition index_create (malloc_ok : bool) (uninit : index_t) : option index_t :=
  if malloc_ok then Some uninit else None.

(** [index_document] creates an iterator over [terms], never uses it,
    and returns 0. The index is not written. *)
Definition index_document (malloc_ok : bool) (index : index_t) (doc : string)
    (terms : list_t string) : Z * index_t :=
  let newIterator := list_createiter malloc_ok terms in
  (0%Z, index).

(** [index_query] prints the tokens to the log and returns NULL. Neither
    the token list nor the message buffer [errmsg] is written. The result
    is the returned pointer, the token list and the buffer. *)
Definition index_query (index : index_t) (query_tokens : list_t string)
    (errmsg : string)
  : option (list_t query_result_t) * list_t string * string :=
  (None, query_tokens, errmsg).

(** [index_stat] stores 0 through both pointers: [(n_docs, n_terms)]. *)
Definition index_stat (index : index_t) : nat * nat := (0, 0).

(** A token list as the tokenizer hands it over. *)
Definition tokens_of (ts : list string) : list_t string :=
  {| nodes := ts; length := List.length ts; cmpfn := fun _ _ => 0%Z |}.

(** The documents of the scenario in the specification. *)
Definition doc1_terms : list_t string := tokens_of ["cat"; "dog"]%string.
Definition doc2_terms : list_t string := tokens_of ["dog"; "dog"; "bird"]%string.

(** Indexing a sequence of documents, each call succeeding in its
    allocation. *)
Definition index_documents (index : index_t) (docs : list (string * list_t string))
  : index_t :=
  fold_left (fun idx d => (index_document true idx d.1 d.2).2) docs index.

End Defs.
Arguments doc_name {double} _.
Arguments score {double} _.
Arguments index_query {double} _ _ _.

(** [C1] The source answers every query, well-formed or not, with NULL:
    for the well-formed one-term query [dog] no result list is returned,
    where [index.h] documents a non-NULL list sorted by score. *)
Theorem index_query_wellformed_returns_null
    (double : Type) (index : index_t) (errmsg : string) :
  (@index_query double index (tokens_of ["dog"]%string) errmsg).1.1 = None.
Proof. reflexivity. Qed.

(** [C2] On a query ending in an operator, one with an unclosed
    parenthesis, one starting with an operator and the empty query the
    source returns NULL but leaves the message buffer as the caller
    passed it (empty here), and the well-formed [(a & b) | !c] is
    answered with NULL as well. *)
Theorem index_query_malformed_leaves_errbuf
    (double : Type) (index : index_t) :
  Forall (fun ts => @index_query double index (tokens_of ts) ""%string
                    = (None, tokens_of ts, ""%string))
    [ ["term"; "&"]; ["("; "term"]; ["&"; "term"]; [] ;
      ["("; "a"; "&"; "b"; ")"; "|"; "!"; "c"] ]%string.
Proof. repeat constructor. Qed.

(** [C3] After a document containing [cat] has been indexed, the query
    [cat | !cat] yields NULL, not a result list holding that document;
    the same holds for [cat & dog], [cat | dog] and [cat & !cat]. *)
Theorem index_query_algebra_returns_null
    (double : Type) (index : index_t) (errmsg : string) :
  let idx := index_documents index [("doc1"%string, doc1_terms)] in
  Forall (fun ts => (@index_query double idx (tokens_of ts) errmsg).1.1 = None)
    [ ["cat"; "|"; "!"; "cat"]; ["cat"; "&"; "!"; "cat"];
      ["cat"; "&"; "dog"]; ["cat"; "|"; "dog"] ]%string.
Proof. repeat constructor. Qed.

(** [C4] After the two documents of the scenario [index_stat] reports
    0 documents and 0 terms, where the specification states 2 and 3. *)
Theorem index_stat_after_two_documents (index : index_t) :
  index_stat (index_documents index
                [("doc1"%string, doc1_terms); ("doc2"%string, doc2_terms)])
  = (0, 0).
Proof. reflexivity. Qed.

(** [C5] A call to [index_document] leaves the reported number of
    documents where it was, at 0, where the specification has it grow
    by one. *)
Theorem index_stat_unchanged_by_index_document
    (malloc_ok : bool) (index : index_t) (doc : string) (terms : list_t string) :
  (index_stat (index_document malloc_ok index doc terms).2).1
  = (index_stat index).1.
Proof. reflexivity. Qed.

(** ** Ordering results by score *)

Section Scores.
Variable double : Type.
Variable double_lt : double -> double -> bool.

(** The scores are ordered as numbers are: no score is a NaN. *)
Hypothesis lt_irrefl : forall x, double_lt x x = false.
Hypothesis lt_trans :
  forall x y z, double_lt x y = true -> double_lt y z = true -> double_lt x z = true.
Hypothesis ge_trans :
  forall x y z, double_lt x y = false -> double_lt y z = false -> double_lt x z = false.




End Scores.



End Index.

(** * [common.c] *)

Module Common.

(** ** [trim]

    The string lies in a character array: the list [buf] holds the
    array from the address [str] to its end, and a pointer into it is an
    index. An access outside the array is undefined; it ends the run
    with [SEGFAULT]. *)

Definition read (buf : list Z) (i : nat) : result Z :=
  match buf !! i with
  | Some c => Ok c
  | None => Abort SEGFAULT
  end.

Definition write (buf : list Z) (i : nat) (c : Z) : result (list Z) :=
  if (i <? List.length buf)%nat then Ok (<[i := c]> buf) else Abort SEGFAULT.

(** What the array holds as a C string: the characters in front of the
    first NUL. *)
Fixpoint c_string (buf : list Z) : list Z :=
  match buf with
  | [] => []
  | c :: rest => if (c =? 0)%Z then [] else c :: c_string rest
  end.

Section Trim.
(** [isspace] of the C library. *)
Variable isspace : Z -> Z.

(** The loop [while (isspace( *start)) start++;]. *)
Fixpoint skip_space (fuel : nat) (buf : list Z) (start : nat) : result nat :=
  match fuel with
  | 0 => Abort TIMEOUT
  | S fuel' =>
      do c <- read buf start;
      if (isspace c =? 0)%Z then Ok start else skip_space fuel' buf (S start)
  end.

(** The loop [while ( *end != 0) end++;]. *)
Fixpoint find_end (fuel : nat) (buf : list Z) (end_ : nat) : result nat :=
  match fuel with
  | 0 => Abort TIMEOUT
  | S fuel' =>
      do c <- read buf end_;
      if (c =? 0)%Z then Ok end_ else find_end fuel' buf (S end_)
  end.

(** The loop [do { *end = 0; end--; } while (isspace( *end));]. *)
Fixpoint clear_trailing (fuel : nat) (buf : list Z) (end_ : nat)
  : result (list Z * nat) :=
  match fuel with
  | 0 => Abort TIMEOUT
  | S fuel' =>
      do buf' <- write buf end_ 0%Z;
      match end_ with
      | 0 => Abort SEGFAULT
      | S end' =>
          do c <- read buf' end';
          if (isspace c =? 0)%Z then Ok (buf', end')
          else clear_trailing fuel' buf' end'
      end
  end.

(** The loop [for (s = str; *s != 0; s++, start++) *s = *start;]. *)
Fixpoint shift (fuel : nat) (buf : list Z) (s start : nat) : result (list Z) :=
  match fuel with
  | 0 => Abort TIMEOUT
  | S fuel' =>
      do c <- read buf s;
      if (c =? 0)%Z then Ok buf
      else
        do x <- read buf start;
        do buf' <- write buf s x;
        shift fuel' buf' (S s) (S start)
  end.

(** [trim]: the array afterwards. Every loop moves its pointer by one
    place per pass and stops or leaves the array within
    [length buf + 1] passes. *)
Definition trim (buf : list Z) : result (list Z) :=
  let fuel := S (List.length buf) in
  do start <- skip_space fuel buf 0;
  do c <- read buf start;
  if (c =? 0)%Z then write buf 0 0%Z
  else
    do end_ <- find_end fuel buf start;
    do '(buf1, _) <- clear_trailing fuel buf end_;
    if (start =? 0)%nat then Ok buf1 else shift fuel buf1 0 start.

Definition space (c : Z) : Prop := isspace c <> 0%Z.

Hypothesis isspace_nul : isspace 0 = 0%Z.

Lemma read_middle (pre rest : list Z) (c : Z) :
  read (pre ++ c :: rest) (List.length pre) = Ok c.
Proof. unfold read. rewrite list_lookup_middle by reflexivity. reflexivity. Qed.

Lemma write_middle (pre rest : list Z) (c x : Z) :
  write (pre ++ c :: rest) (List.length pre) x = Ok (pre ++ x :: rest).
Proof.
  unfold write. rewrite length_app. simpl.
  destruct (Nat.ltb_spec (List.length pre) (List.length pre + S (List.length rest)));
    [|lia].
  replace (List.length pre) with (List.length pre + 0) at 1 by lia.
  rewrite insert_app_r. reflexivity.
Qed.

Lemma skip_space_spec (lead : list Z) : forall (pre : list Z) (c : Z) (rest : list Z) fuel,
  Forall space lead -> isspace c = 0%Z -> List.length lead < fuel ->
  skip_space fuel (pre ++ lead ++ c :: rest) (List.length pre)
  = Ok (List.length pre + List.length lead).
Proof.
  induction lead as [|a lead IH]; intros pre c rest fuel Hlead Hc Hfuel;
    (destruct fuel as [|fuel]; [simpl in Hfuel; lia|]); cbn [skip_space app].
  - rewrite read_middle. cbn [result_bind]. rewrite Hc. simpl. f_equal. lia.
  - apply Forall_cons in Hlead. destruct Hlead as [Ha Hlead].
    rewrite read_middle. cbn [result_bind].
    destruct (Z.eqb_spec (isspace a) 0) as [H0|_]; [contradiction|].
    replace (pre ++ a :: lead ++ c :: rest) with ((pre ++ [a]) ++ lead ++ c :: rest)
      by (rewrite <- app_assoc; reflexivity).
    replace (S (List.length pre)) with (List.length (pre ++ [a]))
      by (rewrite length_app; simpl; lia).
    rewrite IH; [|assumption|assumption|simpl in Hfuel; lia].
    rewrite length_app. simpl. f_equal. lia.
Qed.

Lemma find_end_spec (body : list Z) : forall (pre rest : list Z) fuel,
  Forall (fun c => c <> 0%Z) body -> List.length body < fuel ->
  find_end fuel (pre ++ body ++ 0%Z :: rest) (List.length pre)
  = Ok (List.length pre + List.length body).
Proof.
  induction body as [|a body IH]; intros pre rest fuel Hbody Hfuel;
    (destruct fuel as [|fuel]; [simpl in Hfuel; lia|]); cbn [find_end app].
  - rewrite read_middle. simpl. f_equal. lia.
  - apply Forall_cons in Hbody. destruct Hbody as [Ha Hbody].
    rewrite read_middle. cbn [result_bind].
    destruct (Z.eqb_spec a 0) as [H0|_]; [contradiction|].
    replace (pre ++ a :: body ++ 0%Z :: rest) with ((pre ++ [a]) ++ body ++ 0%Z :: rest)
      by (rewrite <- app_assoc; reflexivity).
    replace (S (List.length pre)) with (List.length (pre ++ [a]))
      by (rewrite length_app; simpl; lia).
    rewrite IH; [|assumption|simpl in Hfuel; lia].
    rewrite length_app. simpl. f_equal. lia.
Qed.

Lemma clear_trailing_spec (trail : list Z) : forall (pre : list Z) (z x : Z) (rest : list Z) fuel,
  Forall space trail -> isspace z = 0%Z -> List.length trail < fuel ->
  clear_trailing fuel ((pre ++ [z]) ++ trail ++ x :: rest)
                 (List.length (pre ++ [z]) + List.length trail)
  = Ok ((pre ++ [z]) ++ replicate (S (List.length trail)) 0%Z ++ rest, List.length pre).
Proof.
  induction trail as [|t trail IH] using rev_ind; intros pre z x rest fuel Htrail Hz Hfuel;
    (destruct fuel as [|fuel]; [lia|]); cbn [clear_trailing].
  - cbn [app List.length]. rewrite Nat.add_0_r, write_middle. cbn [result_bind].
    rewrite length_app. cbn [List.length]. rewrite Nat.add_1_r.
    rewrite <- app_assoc. cbn [app]. rewrite read_middle. cbn [result_bind].
    rewrite Hz. cbn. rewrite <- app_assoc. reflexivity.
  - apply Forall_app in Htrail. destruct Htrail as [Htrail Ht].
    apply Forall_cons in Ht. destruct Ht as [Ht _].
    rewrite length_app in Hfuel. cbn [List.length] in Hfuel.
    replace ((pre ++ [z]) ++ (trail ++ [t]) ++ x :: rest)
      with (((pre ++ [z]) ++ trail ++ [t]) ++ x :: rest)
      by (rewrite <- !app_assoc; reflexivity).
    replace (List.length (pre ++ [z]) + List.length (trail ++ [t]))
      with (List.length ((pre ++ [z]) ++ trail ++ [t]))
      by (rewrite !length_app; reflexivity).
    rewrite write_middle. cbn [result_bind].
    replace (List.length ((pre ++ [z]) ++ trail ++ [t]))
      with (S (List.length ((pre ++ [z]) ++ trail)))
      by (rewrite !length_app; simpl; lia).
    replace (((pre ++ [z]) ++ trail ++ [t]) ++ 0%Z :: rest)
      with (((pre ++ [z]) ++ trail) ++ t :: 0%Z :: rest)
      by (rewrite <- !app_assoc; reflexivity).
    rewrite read_middle. cbn [result_bind].
    destruct (Z.eqb_spec (isspace t) 0) as [H0|_]; [contradiction|].
    replace (List.length ((pre ++ [z]) ++ trail))
      with (List.length (pre ++ [z]) + List.length trail)
      by (rewrite !length_app; simpl; lia).
    rewrite <- (app_assoc (pre ++ [z]) trail).
    rewrite (IH pre z t (0%Z :: rest) fuel Htrail Hz ltac:(lia)).
    do 2 f_equal. rewrite length_app. cbn [List.length].
    rewrite Nat.add_1_r. rewrite (replicate_S_end (S (List.length trail))).
    rewrite <- !app_assoc. reflexivity.
Qed.

(** The state of the array while [shift] runs over the string [b]:
    the first [i] places hold what stood [lead] places further on. *)
Definition shifted (b : list Z) (lead i : nat) : list Z :=
  take i (drop lead b) ++ drop i b.

Lemma shifted_length (b : list Z) (lead i : nat) :
  lead + i <= List.length b -> List.length (shifted b lead i) = List.length b.
Proof.
  intros H. unfold shifted. rewrite length_app, length_take, !length_drop. lia.
Qed.

Lemma shifted_lookup (b : list Z) (lead i j : nat) :
  lead + i <= List.length b -> i <= j -> shifted b lead i !! j = b !! j.
Proof.
  intros H Hj. unfold shifted.
  rewrite lookup_app_r; rewrite length_take, length_drop; [|lia].
  rewrite lookup_drop. f_equal. lia.
Qed.

Lemma shifted_step (b : list Z) (lead i : nat) (x : Z) :
  lead + i < List.length b -> b !! (lead + i) = Some x ->
  <[i := x]> (shifted b lead i) = shifted b lead (S i).
Proof.
  intros H Hx. unfold shifted.
  assert (Hlen : List.length (take i (drop lead b)) = i)
    by (rewrite length_take, length_drop; lia).
  rewrite insert_app_r_alt by lia. rewrite Hlen, Nat.sub_diag.
  rewrite (take_S_r _ _ x) by (rewrite lookup_drop; exact Hx).
  rewrite <- app_assoc. f_equal.
  destruct (lookup_lt_is_Some_2 b i ltac:(lia)) as [y Hy].
  rewrite (drop_S b y i Hy). reflexivity.
Qed.

Lemma shift_spec (b : list Z) (lead stop : nat) : forall (n i : nat) fuel,
  0 < lead -> stop = i + n -> lead + stop <= List.length b ->
  (forall j, j < stop -> exists c, b !! j = Some c /\ c <> 0%Z) ->
  b !! stop = Some 0%Z -> n < fuel ->
  shift fuel (shifted b lead i) i (lead + i) = Ok (shifted b lead stop).
Proof.
  induction n as [|n IH]; intros i fuel Hlead Hstop Hroom Hbody Hnul Hfuel;
    (destruct fuel as [|fuel]; [lia|]); cbn [shift]; unfold read.
  - rewrite Nat.add_0_r in Hstop. subst i.
    rewrite shifted_lookup by lia. rewrite Hnul. reflexivity.
  - rewrite shifted_lookup by lia.
    destruct (Hbody i ltac:(lia)) as (c & -> & Hc). cbn [result_bind].
    destruct (Z.eqb_spec c 0) as [|_]; [contradiction|].
    rewrite shifted_lookup by lia.
    destruct (b !! (lead + i)) as [x|] eqn:Hx;
      [|apply lookup_ge_None in Hx; lia].
    cbn [result_bind]. unfold write. rewrite shifted_length by lia.
    destruct (Nat.ltb_spec i (List.length b)) as [_|]; [|lia]. cbn [result_bind].
    rewrite (shifted_step b lead i x) by (lia || exact Hx).
    replace (S (lead + i)) with (lead + S i) by lia.
    apply (IH (S i) fuel); auto; lia.
Qed.

(** When the array ends before the place [lead + stop - 1], the loop
    reads behind it. *)
Lemma shift_overrun (b : list Z) (lead stop : nat) : forall (n i : nat) fuel,
  List.length b = lead + i + n -> i + n < stop -> stop <= List.length b ->
  (forall j, j < stop -> exists c, b !! j = Some c /\ c <> 0%Z) ->
  n < fuel ->
  shift fuel (shifted b lead i) i (lead + i) = Abort SEGFAULT.
Proof.
  induction n as [|n IH]; intros i fuel Hlen Hstop Hin Hbody Hfuel;
    (destruct fuel as [|fuel]; [lia|]); cbn [shift]; unfold read;
    rewrite shifted_lookup by lia;
    (destruct (Hbody i ltac:(lia)) as (c & -> & Hc)); cbn [result_bind];
    (destruct (Z.eqb_spec c 0) as [|_]; [contradiction|]);
    rewrite shifted_lookup by lia.
  - rewrite (proj2 (lookup_ge_None b (lead + i))) by lia. reflexivity.
  - destruct (b !! (lead + i)) as [x|] eqn:Hx;
      [|apply lookup_ge_None in Hx; lia].
    cbn [result_bind]. unfold write. rewrite shifted_length by lia.
    destruct (Nat.ltb_spec i (List.length b)) as [_|]; [|lia]. cbn [result_bind].
    rewrite (shifted_step b lead i x) by (lia || exact Hx).
    replace (S (lead + i)) with (lead + S i) by lia.
    apply (IH (S i) fuel); auto; lia.
Qed.

Lemma c_string_app (body rest : list Z) :
  Forall (fun c => c <> 0%Z) body -> c_string (body ++ 0%Z :: rest) = body.
Proof.
  induction 1 as [|c body Hc _ IH]; simpl; [reflexivity|].
  destruct (Z.eqb_spec c 0); [contradiction|]. rewrite IH. reflexivity.
Qed.

Lemma space_not_nul (l : list Z) : Forall space l -> Forall (fun c => c <> 0%Z) l.
Proof.
  intros H. apply (Forall_impl _ _ _ H). intros c Hc ->. apply Hc. exact isspace_nul.
Qed.

(** A string of blanks only becomes the empty string. *)
Lemma trim_blank (blank rest : list Z) :
  Forall space blank ->
  trim (blank ++ 0%Z :: rest) = Ok (<[0 := 0%Z]> (blank ++ 0%Z :: rest)).
Proof.
  intros Hblank. unfold trim.
  rewrite (skip_space_spec blank [] 0%Z rest);
    [|assumption|exact isspace_nul|simpl; rewrite length_app; simpl; lia].
  cbn [result_bind List.length Nat.add].
  rewrite (read_middle blank rest 0%Z). cbn [result_bind Z.eqb].
  unfold write. rewrite length_app. cbn [List.length].
  destruct (Nat.ltb_spec 0 (List.length blank + S (List.length rest))); [reflexivity|lia].
Qed.

(** The array after the first three loops of [trim], for a string with
    a word in it. *)
Definition cleared (lead core trail rest : list Z) : list Z :=
  (lead ++ core) ++ replicate (S (List.length trail)) 0%Z ++ rest.

Lemma trim_word (lead body : list Z) (z : Z) (trail rest : list Z) :
  Forall space lead -> Forall space trail ->
  Forall (fun c => c <> 0%Z) body -> z <> 0%Z ->
  (forall c, head (body ++ [z]) = Some c -> isspace c = 0%Z) -> isspace z = 0%Z ->
  trim (lead ++ (body ++ [z]) ++ trail ++ 0%Z :: rest)
  = if (List.length lead =? 0)%nat then Ok (cleared lead (body ++ [z]) trail rest)
    else shift (S (List.length (lead ++ (body ++ [z]) ++ trail ++ 0%Z :: rest)))
               (cleared lead (body ++ [z]) trail rest) 0 (List.length lead).
Proof.
  intros Hlead Htrail Hbody Hz Hhead Hlast. unfold trim.
  set (buf := lead ++ (body ++ [z]) ++ trail ++ 0%Z :: rest).
  assert (Hlen : List.length buf
                 = List.length lead + List.length body + 1 + List.length trail
                   + 1 + List.length rest)
    by (unfold buf; rewrite !length_app; simpl; lia).
  destruct (body ++ [z]) as [|c tl] eqn:Hcore;
    [destruct body; discriminate|].
  assert (Hc : isspace c = 0%Z) by (apply Hhead; reflexivity).
  assert (Hcore0 : Forall (fun c => c <> 0%Z) (c :: tl)).
  { rewrite <- Hcore. apply Forall_app. split; [assumption|].
    constructor; [assumption|constructor]. }
  assert (Hc0 : c <> 0%Z) by (inversion Hcore0; assumption).
  remember (S (List.length buf)) as fuel eqn:Hf.
  assert (Hfuel : List.length lead + List.length body + 1 + List.length trail + 1 < fuel)
    by lia.
  clear Hf Hlen.
  assert (S1 : skip_space fuel buf 0 = Ok (List.length lead)).
  { exact (skip_space_spec lead [] c (tl ++ trail ++ 0%Z :: rest) fuel Hlead Hc
             ltac:(lia)). }
  assert (S2 : read buf (List.length lead) = Ok c).
  { exact (read_middle lead (tl ++ trail ++ 0%Z :: rest) c). }
  assert (S3 : find_end fuel buf (List.length lead)
               = Ok (List.length ((lead ++ body) ++ [z]) + List.length trail)).
  { assert (E3 : buf = lead ++ ((c :: tl) ++ trail) ++ 0%Z :: rest)
      by (unfold buf; rewrite <- !app_assoc; reflexivity).
    rewrite E3, find_end_spec.
    - f_equal. rewrite <- Hcore, !length_app. simpl. lia.
    - apply Forall_app. split; [assumption|apply space_not_nul; assumption].
    - rewrite length_app, <- Hcore, length_app. simpl. lia. }
  assert (S4 : clear_trailing fuel buf
                 (List.length ((lead ++ body) ++ [z]) + List.length trail)
               = Ok (cleared lead (c :: tl) trail rest, List.length (lead ++ body))).
  { assert (E4 : buf = ((lead ++ body) ++ [z]) ++ trail ++ 0%Z :: rest)
      by (unfold buf; rewrite <- Hcore, <- !app_assoc; reflexivity).
    rewrite E4, clear_trailing_spec; [|assumption|assumption|lia].
    unfold cleared. rewrite <- Hcore, <- !app_assoc. reflexivity. }
  rewrite S1. cbn [result_bind]. rewrite S2. cbn [result_bind].
  destruct (Z.eqb_spec c 0) as [|_]; [contradiction|].
  rewrite S3. cbn [result_bind]. rewrite S4. cbn [result_bind]. reflexivity.
Qed.

Lemma cleared_body (lead core trail rest : list Z) (j : nat) :
  Forall space lead -> Forall (fun c => c <> 0%Z) core ->
  j < List.length lead + List.length core ->
  exists c, cleared lead core trail rest !! j = Some c /\ c <> 0%Z.
Proof.
  intros Hlead Hcore Hj. unfold cleared.
  assert (Hall : Forall (fun c => c <> 0%Z) (lead ++ core))
    by (apply Forall_app; split; [apply space_not_nul|]; assumption).
  destruct ((lead ++ core) !! j) as [c|] eqn:Hc.
  - exists c. split; [apply lookup_app_l_Some; exact Hc|].
    apply (proj1 (Forall_lookup _ _) Hall j c Hc).
  - apply lookup_ge_None in Hc. rewrite length_app in Hc. lia.
Qed.

Lemma cleared_length (lead core trail rest : list Z) :
  List.length (cleared lead core trail rest)
  = List.length lead + List.length core + S (List.length trail) + List.length rest.
Proof.
  unfold cleared. rewrite !length_app, length_replicate. lia.
Qed.

Lemma shifted_cleared (lead core trail rest : list Z) :
  0 < List.length lead -> Forall (fun c => c <> 0%Z) core ->
  c_string (shifted (cleared lead core trail rest) (List.length lead)
                    (List.length lead + List.length core)) = core.
Proof.
  intros Hpos Hcore. unfold shifted, cleared.
  rewrite <- (app_assoc lead core). rewrite drop_app_length.
  rewrite take_app_ge by lia.
  destruct (List.length lead) as [|n] eqn:Hn; [lia|].
  replace (S n + List.length core - List.length core) with (S n) by lia.
  cbn [replicate app take]. rewrite <- app_assoc. cbn [app].
  apply c_string_app. assumption.
Qed.

Lemma trim_word_shift (lead core trail rest : list Z) (fuel : nat) :
  Forall space lead -> Forall (fun c => c <> 0%Z) core ->
  0 < List.length lead ->
  List.length (cleared lead core trail rest) < fuel ->
  shift fuel (cleared lead core trail rest) 0 (List.length lead)
  = if (List.length lead <=? List.length trail + 1 + List.length rest)%nat
    then Ok (shifted (cleared lead core trail rest) (List.length lead)
                     (List.length lead + List.length core))
    else Abort SEGFAULT.
Proof.
  intros Hlead Hcore Hpos Hfuel.
  set (b := cleared lead core trail rest) in *.
  assert (Hlen := cleared_length lead core trail rest). fold b in Hlen.
  assert (Hbody : forall j, j < List.length lead + List.length core ->
                            exists c, b !! j = Some c /\ c <> 0%Z)
    by (intros j Hj; apply cleared_body; assumption).
  destruct (Nat.leb_spec (List.length lead) (List.length trail + 1 + List.length rest))
    as [Hroom|Hroom].
  - pose proof (shift_spec b (List.length lead) (List.length lead + List.length core)
                  (List.length lead + List.length core) 0 fuel Hpos eq_refl
                  ltac:(lia) Hbody) as H.
    rewrite Nat.add_0_r in H. apply H; [|lia].
    unfold b, cleared. rewrite <- length_app. apply list_lookup_middle. reflexivity.
  - pose proof (shift_overrun b (List.length lead) (List.length lead + List.length core)
                  (List.length b - List.length lead) 0 fuel ltac:(lia) ltac:(lia)
                  ltac:(lia) Hbody ltac:(lia)) as H.
    rewrite Nat.add_0_r in H. exact H.
Qed.

(** [X19] [trim] on the string [lead ++ core ++ trail], where [lead] and
    [trail] are white space and [core] neither starts nor ends with
    white space, in an array with [rest] behind the terminator. The
    loop that moves the word to the front tests the place it writes to,
    not the one it reads: it copies [length lead] characters more than
    the word has. With no word ([core] empty), or with at most
    [length trail + 1 + length rest] leading blanks, [trim] returns and
    the array then holds the string [core]; with more leading blanks the
    loop reads behind the end of the array. *)
Theorem trim_removes_surrounding_space (lead core trail rest : list Z) :
  Forall space lead -> Forall space trail ->
  Forall (fun c => c <> 0%Z) core ->
  (forall c, head core = Some c -> isspace c = 0%Z) ->
  (forall c, last core = Some c -> isspace c = 0%Z) ->
  let buf := lead ++ core ++ trail ++ 0%Z :: rest in
  (core = [] \/ List.length lead <= List.length trail + 1 + List.length rest ->
   exists buf', trim buf = Ok buf' /\ c_string buf' = core
                /\ List.length buf' = List.length buf) /\
  (core <> [] -> List.length trail + 1 + List.length rest < List.length lead ->
   trim buf = Abort SEGFAULT).
Proof.
  intros Hlead Htrail Hcore Hhead Hlast buf.
  destruct core as [|z body _] using rev_ind.
  - split; [intros _|intros H; contradiction].
    assert (E : buf = (lead ++ trail) ++ 0%Z :: rest)
      by (unfold buf; rewrite <- app_assoc; reflexivity).
    rewrite E, trim_blank by (apply Forall_app; split; assumption).
    eexists. split; [reflexivity|]. split; [|apply length_insert].
    destruct (lead ++ trail); reflexivity.
  - apply Forall_app in Hcore. destruct Hcore as [Hbody Hz].
    apply Forall_cons in Hz. destruct Hz as [Hz _].
    assert (Hzs : isspace z = 0%Z) by (apply Hlast, last_snoc).
    assert (Hcore : Forall (fun c => c <> 0%Z) (body ++ [z]))
      by (apply Forall_app; split; [assumption|constructor; [assumption|constructor]]).
    assert (Htrim := trim_word lead body z trail rest Hlead Htrail Hbody Hz Hhead Hzs).
    fold buf in Htrim.
    assert (Hlen : List.length (cleared lead (body ++ [z]) trail rest) = List.length buf)
      by (rewrite cleared_length; unfold buf; rewrite !length_app; simpl; lia).
    destruct (Nat.eqb_spec (List.length lead) 0) as [H0|H0].
    + split; [intros _|intros _ H; lia].
      exists (cleared lead (body ++ [z]) trail rest).
      split; [exact Htrim|]. split; [|exact Hlen].
      destruct lead; [|discriminate]. unfold cleared. cbn [app replicate].
      apply c_string_app. exact Hcore.
    + rewrite trim_word_shift in Htrim by (assumption || lia).
      split.
      * intros [Hnil|Hroom]; [destruct body; discriminate|].
        destruct (Nat.leb_spec (List.length lead)
                    (List.length trail + 1 + List.length rest)); [|lia].
        eexists. split; [exact Htrim|]. split.
        -- apply shifted_cleared; [lia|exact Hcore].
        -- rewrite shifted_length; [exact Hlen|].
           rewrite cleared_length, length_app. lia.
      * intros _ Hover.
        destruct (Nat.leb_spec (List.length lead)
                    (List.length trail + 1 + List.length rest)); [lia|].
        exact Htrim.
Qed.

End Trim.

(** White space as the C locale has it: the blank and the characters
    from tab to carriage return. *)
Definition isspace_c (c : Z) : Z :=
  if ((c =? 32) || ((9 <=? c) && (c <=? 13)))%Z then 1%Z else 0%Z.

Lemma trim_removes_surrounding_space_witness :
  (exists buf', trim isspace_c [32; 97; 98; 10; 0]%Z = Ok buf'
                /\ c_string buf' = [97; 98]%Z /\ List.length buf' = 5)
  /\ trim isspace_c [32; 32; 97; 0]%Z = Abort SEGFAULT.
Proof.
  split.
  - apply (trim_removes_surrounding_space isspace_c eq_refl
             [32]%Z [97; 98]%Z [10]%Z []).
    + repeat constructor; intros H; vm_compute in H; discriminate.
    + repeat constructor; intros H; vm_compute in H; discriminate.
    + repeat constructor; intros H; discriminate.
    + intros c [= <-]. reflexivity.
    + intros c [= <-]. reflexivity.
    + right. simpl. lia.
  - apply (trim_removes_surrounding_space isspace_c eq_refl
             [32; 32]%Z [97]%Z [] []).
    + repeat constructor; intros H; vm_compute in H; discriminate.
    + constructor.
    + repeat constructor; intros H; discriminate.
    + intros c [= <-]. reflexivity.
    + intros c [= <-]. reflexivity.
    + discriminate.
    + simpl. lia.
Defined.

End Common.
